(** * KEML language support: action index, tokenizer and resolver

    A shallow embedding of the document-parsing and cross-document
    action-resolution engine of the KEML editor extension.

    JavaScript values are modelled as follows.
    - numbers that are used as indices or sentinels ([-1]) are [Z];
    - strings are [string] (one [ascii] per code unit);
    - arrays are [list]s, [push] appends at the end;
    - a [Map<string, V>] is an association list in insertion order with at
      most one entry per key ([Store]);
    - module-level mutable state (the [lastIndex] of the shared global
      regular expression, the [docs] table, the diagnostic collection) is
      threaded explicitly. *)

From Stdlib Require Import List String Ascii ZArith Lia Bool Arith.
From Stdlib Require Import Sorted Permutation.
From Equations Require Import Equations.
Import ListNotations.

Local Open Scope string_scope.
Local Open Scope Z_scope.

(** ** JavaScript string primitives *)

Module JS.

Definition len (s : string) : Z := Z.of_nat (String.length s).

(** [s.charCodeAt(i)]; [None] stands for [NaN]. *)
Definition charCodeAt (s : string) (i : Z) : option Z :=
  if i <? 0 then None
  else option_map (fun c => Z.of_nat (nat_of_ascii c)) (String.get (Z.to_nat i) s).

(** The relative-index clamping shared by [slice]. *)
Definition clamp (n : Z) (k : Z) : Z :=
  if k <? 0 then Z.max (n + k) 0 else Z.min k n.

(** [s.slice(a, b)]. *)
Definition slice (s : string) (a b : Z) : string :=
  let from := clamp (len s) a in
  let to := clamp (len s) b in
  String.substring (Z.to_nat from) (Z.to_nat (to - from)) s.

(** [s.slice(a)]. *)
Definition slice_from (s : string) (a : Z) : string := slice s a (len s).

(** Offset of the first occurrence of [c] in [s], counted from [off]. *)
Fixpoint find_char (c : ascii) (s : string) (off : Z) : Z :=
  match s with
  | EmptyString => -1
  | String c' s' => if Ascii.eqb c' c then off else find_char c s' (off + 1)
  end.

(** [s.indexOf(c, from)] for a one-character search string. *)
Definition indexOf (s : string) (c : ascii) (from : Z) : Z :=
  let start := Z.min (Z.max from 0) (len s) in
  find_char c (slice_from s start) start.

(** Largest index [j <= k] holding [c], or [-1]. *)
Fixpoint rfind_char (c : ascii) (s : string) (k : nat) : Z :=
  match String.get k s with
  | Some c' =>
      if Ascii.eqb c' c then Z.of_nat k
      else match k with O => -1 | S k' => rfind_char c s k' end
  | None => match k with O => -1 | S k' => rfind_char c s k' end
  end.

(** [s.lastIndexOf(c, from)] for a one-character search string. *)
Definition lastIndexOf (s : string) (c : ascii) (from : Z) : Z :=
  let start := Z.min (Z.max from 0) (len s - 1) in
  if start <? 0 then -1 else rfind_char c s (Z.to_nat start).

(** [s.startsWith(p)]. *)
Definition startsWith (s p : string) : bool := String.prefix p s.

(** [xs.includes(x)] on an array of strings. *)
Definition includes (xs : list string) (x : string) : bool :=
  existsb (String.eqb x) xs.

(** [xs.join(sep)]. *)
Fixpoint join (sep : string) (xs : list string) : string :=
  match xs with
  | [] => ""
  | [x] => x
  | x :: rest => x ++ sep ++ join sep rest
  end.

End JS.

(** ** The shared pattern [INVALID_PATTERN = /[\(\)\[\]\<\>\{\}]/g]

    The pattern carries the [g] flag, so the regular expression object
    owns a mutable [lastIndex].  [test] reads and writes it; [matchAll]
    starts a private copy of the matcher at the current [lastIndex] and
    leaves the original untouched. *)

Module InvalidPattern.

Definition chars : list ascii :=
  ["("; ")"; "["; "]"; "<"; ">"; "{"; "}"]%char.

Definition matches_char (c : ascii) : bool := existsb (Ascii.eqb c) chars.

(** Offset of the first character of the class in [s], counted from [off]. *)
Fixpoint find (s : string) (off : Z) : option Z :=
  match s with
  | EmptyString => None
  | String c s' => if matches_char c then Some off else find s' (off + 1)
  end.

(** One run of the matcher from [lastIndex]: the index of the match (if
    any) and the [lastIndex] left behind. *)
Definition exec (lastIndex : Z) (s : string) : option Z * Z :=
  if JS.len s <? lastIndex then (None, 0)
  else match find (JS.slice_from s lastIndex) lastIndex with
       | Some j => (Some j, j + 1)
       | None => (None, 0)
       end.

(** [INVALID_PATTERN.test(s)]: the answer and the new [lastIndex]. *)
Definition test (lastIndex : Z) (s : string) : bool * Z :=
  match exec lastIndex s with
  | (Some _, li) => (true, li)
  | (None, li) => (false, li)
  end.

(** Offsets of every character of the class in [s], counted from [off]. *)
Fixpoint find_all (s : string) (off : Z) : list Z :=
  match s with
  | EmptyString => []
  | String c s' =>
      if matches_char c then off :: find_all s' (off + 1)
      else find_all s' (off + 1)
  end.

(** [Array.from(s.matchAll(INVALID_PATTERN))], as the list of match
    indices: every match at or after [lastIndex]. *)
Definition matchAll (lastIndex : Z) (s : string) : list Z :=
  if JS.len s <? lastIndex then []
  else find_all (JS.slice_from s lastIndex) lastIndex.

End InvalidPattern.

(** ** Tokenizer ([parseTokens.ts]) *)

Record ParsedToken : Type := mkToken {
  token : string;
  characterDelta : Z
}.

Definition space : ascii := " "%char.

(** State of the scanning loop: the pending start index (or [-1]) and the
    tokens pushed so far. *)
Definition ScanState : Type := (Z * list ParsedToken)%type.

(** [input.charCodeAt(i) === 32]. *)
Definition isSpaceAt (input : string) (i : Z) : bool :=
  match JS.charCodeAt input i with
  | Some code => code =? 32
  | None => false
  end.

(** [result.push(x)]. *)
Definition push {A : Type} (xs : list A) (x : A) : list A := (xs ++ [x])%list.

(** One iteration of the [for] loop of [parseTokens] at index [i]. *)
Definition parseTokens_step (input : string) (leftBoundary rightBoundary : Z)
    (st : ScanState) (i : Z) : ScanState :=
  let '(characterDelta, result) := st in
  if (leftBoundary <? i) && (i <? rightBoundary) then (-1, result)
  else if isSpaceAt input i then
    if negb (characterDelta =? -1)
    then (-1, push result (mkToken (JS.slice input characterDelta i) characterDelta))
    else (characterDelta, result)
  else if characterDelta =? -1 then (i, result)
  else (characterDelta, result).

(** The indices [i, i+1, ..., i+n-1] visited by a counting loop. *)
Definition indices (i : Z) (n : nat) : list Z :=
  map (fun k => i + Z.of_nat k) (seq 0 n).

(** The two boundaries computed before the loop. *)
Definition boundaries (lastIndex : Z) (input : string) : Z * Z :=
  let matches := InvalidPattern.matchAll lastIndex input in
  match matches with
  | [] => (JS.len input, -1)
  | first :: _ =>
      let leftBoundary := JS.lastIndexOf input space first in
      let rightBoundary := JS.indexOf input space (last matches first) in
      (leftBoundary, if rightBoundary =? -1 then JS.len input else rightBoundary)
  end.

(** [parseTokens(input)], run while the shared pattern's [lastIndex] is
    [lastIndex]. *)
Definition parseTokens (lastIndex : Z) (input : string) : list ParsedToken :=
  let '(leftBoundary, rightBoundary) := boundaries lastIndex input in
  let '(characterDelta, result) :=
    fold_left (parseTokens_step input leftBoundary rightBoundary)
              (indices 0 (String.length input)) (-1, []) in
  if negb (characterDelta =? -1)
  then push result (mkToken (JS.slice input characterDelta (JS.len input)) characterDelta)
  else result.

(** ** Reference description of space splitting

    [words off s] lists the maximal space-free runs of [s] from left to
    right, each with the offset of its first character ([off] being the
    offset of the first character of [s]).  It is defined by recursion on
    the text, without indices or slices, and serves as the yardstick for
    the scanning loop. *)

Module TokenSpec.

Definition is_space (c : ascii) : bool := Ascii.eqb c space.

Definition starts_with_space (s : string) : bool :=
  match s with
  | String c _ => is_space c
  | EmptyString => false
  end.

Definition starts_with_word (s : string) : bool :=
  match s with
  | String c _ => negb (is_space c)
  | EmptyString => false
  end.

Fixpoint words (off : Z) (s : string) : list ParsedToken :=
  match s with
  | EmptyString => []
  | String c s' =>
      if is_space c then words (off + 1) s'
      else if starts_with_word s' then
        match words (off + 1) s' with
        | t :: ts => mkToken (String c (token t)) off :: ts
        | [] => [mkToken (String c "") off]
        end
      else mkToken (String c "") off :: words (off + 1) s'
  end.

(** Every run of spaces becomes a single space. *)
Fixpoint collapse (s : string) : string :=
  match s with
  | EmptyString => ""
  | String c s' =>
      if is_space c && starts_with_space s' then collapse s'
      else String c (collapse s')
  end.

(** Leading spaces removed. *)
Fixpoint trim_start (s : string) : string :=
  match s with
  | EmptyString => ""
  | String c s' => if is_space c then trim_start s' else s
  end.

(** Trailing spaces removed. *)
Fixpoint trim_end (s : string) : string :=
  match s with
  | EmptyString => ""
  | String c s' =>
      match trim_end s' with
      | EmptyString => if is_space c then "" else String c ""
      | t => String c t
      end
  end.

Definition normalize (s : string) : string :=
  trim_end (trim_start (collapse s)).

(** No character of [s] is a space. *)
Fixpoint spaceless (s : string) : bool :=
  match s with
  | EmptyString => true
  | String c s' => negb (is_space c) && spaceless s'
  end.

(** Every character of [s] is a space. *)
Fixpoint all_spaces (s : string) : bool :=
  match s with
  | EmptyString => true
  | String c s' => is_space c && all_spaces s'
  end.

(** No character of [s] belongs to the bracket class. *)
Fixpoint bracket_free (s : string) : bool :=
  match s with
  | EmptyString => true
  | String c s' => negb (InvalidPattern.matches_char c) && bracket_free s'
  end.

End TokenSpec.

(** ** The protected zone, as described

    Positions are indices into the input; [-1] is the position just before
    the first character. *)

Module ZoneSpec.

Definition char_at (s : string) (j : Z) : option ascii :=
  if j <? 0 then None else String.get (Z.to_nat j) s.

Definition bracket_at (s : string) (j : Z) : Prop :=
  exists c, char_at s j = Some c /\ InvalidPattern.matches_char c = true.

Definition space_at (s : string) (j : Z) : Prop := char_at s j = Some space.

(** [p] is the position of the first character of the class. *)
Definition first_bracket (s : string) (p : Z) : Prop :=
  bracket_at s p /\ forall j, j < p -> ~ bracket_at s j.

(** [q] is the position of the last character of the class. *)
Definition last_bracket (s : string) (q : Z) : Prop :=
  bracket_at s q /\ forall j, q < j -> ~ bracket_at s j.

(** [lb] is the position of the last space at or before [p], or [-1]
    when there is none. *)
Definition left_boundary (s : string) (p lb : Z) : Prop :=
  (lb = -1 \/ (space_at s lb /\ lb <= p)) /\
  forall j, lb < j <= p -> ~ space_at s j.

(** [rb] is the position of the first space at or after [q], or the
    length of the text when there is none. *)
Definition right_boundary (s : string) (q rb : Z) : Prop :=
  (rb = JS.len s \/ (space_at s rb /\ q <= rb)) /\
  forall j, q <= j < rb -> ~ space_at s j.

End ZoneSpec.

(** The reading under which the text around the brackets comes out as one
    token: some token covers the first bracket character. *)
Definition bracket_run_emitted (input : string) : Prop :=
  forall p, ZoneSpec.first_bracket input p ->
    exists t, In t (parseTokens 0 input) /\
              characterDelta t <= p < characterDelta t + JS.len (token t).

(** ** Insertion-ordered maps with string keys ([Map<string, V>]) *)

Module JSMap.
Section Ops.
Context {V : Type}.

Definition t : Type := list (string * V).

Definition empty : t := [].

(** [m.get(k)]. *)
Fixpoint get (m : t) (k : string) : option V :=
  match m with
  | [] => None
  | (k', v) :: m' => if String.eqb k' k then Some v else get m' k
  end.

(** [m.has(k)]. *)
Definition has (m : t) (k : string) : bool :=
  match get m k with Some _ => true | None => false end.

(** [m.set(k, v)]: an existing key keeps its place, a new key goes last. *)
Fixpoint set (m : t) (k : string) (v : V) : t :=
  match m with
  | [] => [(k, v)]
  | (k', v') :: m' =>
      if String.eqb k' k then (k, v) :: m' else (k', v') :: set m' k v
  end.

(** [m.delete(k)]. *)
Fixpoint delete (m : t) (k : string) : t :=
  match m with
  | [] => []
  | (k', v') :: m' =>
      if String.eqb k' k then m' else (k', v') :: delete m' k
  end.

(** [m.keys()] and [m.values()], in iteration order. *)
Definition keys (m : t) : list string := map fst m.
Definition values (m : t) : list V := map snd m.

(** At most one entry per key. *)
Definition wf (m : t) : Prop := NoDup (keys m).
End Ops.
Arguments t : clear implicits.
End JSMap.

(** ** Editor data ([vscode]) *)

Record Position : Type := mkPosition { line : Z; character : Z }.

Definition isBefore (a b : Position) : bool :=
  (line a <? line b) || ((line a =? line b) && (character a <? character b)).

Record Range : Type := mkRange { range_start : Position; range_end : Position }.

(** [new Range(a, b)]: the two ends are put in order. *)
Definition new_Range (a b : Position) : Range :=
  if isBefore b a then mkRange b a else mkRange a b.

(** [p.translate({ characterDelta })]. *)
Definition translate (p : Position) (characterDelta : Z) : Position :=
  mkPosition (line p) (character p + characterDelta).

(** [r.with({ start, end })]. *)
Definition range_with (r : Range) (start end_ : Position) : Range :=
  new_Range start end_.

Inductive DiagnosticSeverity : Type := Error | Warning | Information | Hint.

Inductive DiagnosticTag : Type := Unnecessary | Deprecated.

Record Diagnostic : Type := mkDiagnostic {
  d_range : Range;
  d_message : string;
  d_severity : DiagnosticSeverity;
  d_source : option string;
  d_tags : option (list DiagnosticTag)
}.

(** [new Diagnostic(range, message, severity)]. *)
Definition new_Diagnostic (range : Range) (message : string)
    (severity : DiagnosticSeverity) : Diagnostic :=
  mkDiagnostic range message severity None None.

Definition set_source (d : Diagnostic) (s : string) : Diagnostic :=
  mkDiagnostic (d_range d) (d_message d) (d_severity d) (Some s) (d_tags d).

Definition set_tags (d : Diagnostic) (tags : list DiagnosticTag) : Diagnostic :=
  mkDiagnostic (d_range d) (d_message d) (d_severity d) (d_source d) (Some tags).

Definition severity_eqb (a b : DiagnosticSeverity) : bool :=
  match a, b with
  | Error, Error | Warning, Warning | Information, Information | Hint, Hint => true
  | _, _ => false
  end.

(** [vscode.TextDocument], as far as the engine reads it. *)
Record TextDocument : Type := mkTextDocument {
  uri : string;          (* [uri.toString()] *)
  uri_path : string;     (* [uri.path] *)
  version : Z;
  languageId : string;
  getText : string
}.

(** The language service's own document ([LSTextDocument.create]). *)
Record LSTextDocument : Type := mkLSTextDocument {
  ls_uri : string;
  ls_languageId : string;
  ls_version : Z;
  ls_text : string
}.

(** An element of the tree built by the HTML language service. *)
#[warnings="-register-all"]
Inductive Node : Type := mkNode {
  tag : option string;
  start : Z;
  startTagEnd : option Z;
  attributes : option (list (string * option string));
  children : list Node
}.

Record HTMLDocument : Type := mkHTMLDocument { roots : list Node }.

(** What [parseNodeAttrs] yields for one attribute. *)
Record Attr : Type := mkAttr {
  name : string;
  value : string;
  offset : Z;
  end_ : Z;
  range : Range;
  fullRange : Range
}.

(** ** Message templates ([t.ts])

    [t strings placeholders] is the function returned by the tag [t] for a
    template literal with the given literal parts and placeholder names;
    it is applied to the record of values. *)

Fixpoint t (strings placeholders : list string) (values : string -> string) : string :=
  match strings, placeholders with
  | [], _ => ""
  | s :: _, [] => s
  | s :: strings', p :: placeholders' =>
      s ++ values p ++ t strings' placeholders' values
  end.

(** A record of values, as a lookup from placeholder name to value. *)
Fixpoint record (fields : list (string * string)) (key : string) : string :=
  match fields with
  | [] => ""
  | (k, v) :: fields' => if String.eqb k key then v else record fields' key
  end.

(** ** Symbol tables ([addRange.ts], [addDefinitionRanges.ts]) *)

Definition Store : Type := JSMap.t (list Range).

(** [store.get(key)?.push(range) ?? store.set(key, [range])], under
    [if (key)]. *)
Definition addRange (store : Store) (key : string) (r : Range) : Store :=
  if String.eqb key "" then store
  else match JSMap.get store key with
       | Some ranges => JSMap.set store key (push ranges r)
       | None => JSMap.set store key [r]
       end.

Definition addDefinitionRanges (lastIndex : Z) (store : Store) (value : string)
    (r : Range) : Store :=
  fold_left
    (fun store tok =>
       addRange store (token tok)
         (range_with r
            (translate (range_start r) (characterDelta tok))
            (translate (range_start r)
               (characterDelta tok + JS.len (token tok)))))
    (parseTokens lastIndex value) store.

(** ** Attribute-name classifiers *)

Definition isEventDefinition (name : string) : bool :=
  JS.startsWith name "on:" || JS.startsWith name "x-on:".

Definition isEventReference (name : string) : bool :=
  String.eqb name "on" || String.eqb name "x-on" ||
  String.eqb name "reset" || String.eqb name "x-reset".

Definition isEventFilter (name : string) : bool :=
  JS.startsWith name "event:" || JS.startsWith name "x-event:".

Definition isStateDefinition (name : string) : bool :=
  JS.startsWith name "if:" || JS.startsWith name "x-if:".

Definition isStateReference (name : string) : bool :=
  String.eqb name "if" || String.eqb name "x-if".

Definition isResultDefinition (name : string) : bool :=
  String.eqb name "result" || String.eqb name "x-result" ||
  String.eqb name "error" || String.eqb name "x-error".

Definition isResultReference (name : string) : bool :=
  String.eqb name "render" || String.eqb name "x-render".

Definition isPosition (name : string) : bool :=
  String.eqb name "position" || String.eqb name "x-position".

Definition onDependentAttributes : list string :=
  ["debounce"; "throttle"; "credentials"; "result"; "error"; "redirect";
   "once"; "if:loading"; "if:error"; "get"; "post"; "put"; "delete"].

Definition isOnDependent (name : string) : bool :=
  JS.startsWith name "h-" ||
  JS.includes onDependentAttributes name ||
  (JS.startsWith name "x-" &&
   JS.includes onDependentAttributes (JS.slice_from name 2)).

Definition onDependentTags : JSMap.t (list string) :=
  [("href", ["base"; "link"; "a"]);
   ("action", ["form"]);
   ("src", ["img"; "iframe"; "embed"; "video"; "audio"; "source"; "track";
            "input"; "script"]);
   ("method", ["form"]);
   ("name", ["meta"; "iframe"; "object"; "param"; "map"; "form"; "input";
             "button"; "select"; "textarea"; "output"; "fieldset"; "slot"]);
   ("value", ["li"; "param"; "input"; "button"; "option"; "progress";
              "meter"; "data"])].

(** [tags.includes(tag)] where [tag] may be [undefined]. *)
Definition includes_tag (tags : list string) (tag : option string) : bool :=
  match tag with
  | Some tg => JS.includes tags tg
  | None => false
  end.

Definition isTagOnDependent (tag : option string) (name : string) : bool :=
  if isOnDependent name then true
  else match JSMap.get onDependentTags name with
       | Some tags => negb (includes_tag tags tag)
       | None =>
           if JS.startsWith name "x-" then
             match JSMap.get onDependentTags (JS.slice_from name 2) with
             | Some tags => negb (includes_tag tags tag)
             | None => false
             end
           else false
       end.

(** ** Dependency diagnostics ([addDependsDiagnostic.ts]) *)

Definition DEP_TPL : (string -> string) -> string :=
  t ["'"; "' without "; " '"; "' (or 'x-"; "') does nothing."]
    ["name"; "article"; "depends"; "depends"].

(** [key in attributes]. *)
Definition has_attribute (attributes : list (string * option string))
    (key : string) : bool :=
  existsb (fun kv => String.eqb (fst kv) key) attributes.

Definition addDependsDiagnostic (diagnostics : list Diagnostic)
    (attributes : list (string * option string)) (r : Range)
    (name depends article : string) : list Diagnostic :=
  if has_attribute attributes depends || has_attribute attributes ("x-" ++ depends)
  then diagnostics
  else
    let diagnostic :=
      new_Diagnostic r
        (DEP_TPL (record [("name", name); ("article", article); ("depends", depends)]))
        Warning in
    let diagnostic := set_source diagnostic "KEML" in
    let diagnostic := set_tags diagnostic [Unnecessary] in
    push diagnostics diagnostic.

(** ** Document parser ([parseHTMLDocument.ts]) *)

Record ParsedDocument : Type := mkParsedDocument {
  doc : TextDocument;
  textDoc : LSTextDocument;
  htmlDoc : HTMLDocument;
  event_definitions : Store;
  event_references : Store;
  state_definitions : Store;
  state_references : Store;
  result_definitions : Store;
  result_references : Store;
  diagnostics : list Diagnostic
}.

(** [\s] on eight-bit code units. *)
Definition is_whitespace (c : ascii) : bool :=
  let n := nat_of_ascii c in
  existsb (Nat.eqb n) [9; 10; 11; 12; 13; 32; 160]%nat.

Fixpoint last_char (s : string) : option ascii :=
  match s with
  | EmptyString => None
  | String c EmptyString => Some c
  | String _ s' => last_char s'
  end.

(** [END_SPACE_PATTERN.test(value)] for [/(?:^\s|\s$)/]. *)
Definition END_SPACE_PATTERN_test (value : string) : bool :=
  match value with
  | EmptyString => false
  | String c _ =>
      is_whitespace c ||
      match last_char value with Some c' => is_whitespace c' | None => false end
  end.

Definition validPosition : list string :=
  ["replaceChildren"; "replaceWith"; "before"; "after"; "prepend"; "append"].

Definition invalid_position_message : string :=
  "Invalid render position specified." ++ String (ascii_of_nat 10) "Must be one of: "
  ++ JS.join ", " validPosition ++ ".".

Definition subscriber_message : string :=
  "Action subscribers are only allowed to hold 1 value and are used verbatim."
  ++ String (ascii_of_nat 10) "Make sure not to have any spaces in the action name.".

(** The variables of [parseHTMLDocument] that change during the walk,
    together with the [lastIndex] of the shared pattern. *)
Record ParseState : Type := mkParseState {
  ps_lastIndex : Z;
  ps_diagnostics : list Diagnostic;
  ps_event_definitions : Store;
  ps_event_references : Store;
  ps_state_definitions : Store;
  ps_state_references : Store;
  ps_result_definitions : Store;
  ps_result_references : Store
}.

Definition initial_state (lastIndex : Z) : ParseState :=
  mkParseState lastIndex [] JSMap.empty JSMap.empty JSMap.empty JSMap.empty
    JSMap.empty JSMap.empty.

Definition with_diagnostics (st : ParseState) (ds : list Diagnostic) : ParseState :=
  mkParseState (ps_lastIndex st) ds (ps_event_definitions st)
    (ps_event_references st) (ps_state_definitions st) (ps_state_references st)
    (ps_result_definitions st) (ps_result_references st).

Definition with_lastIndex (st : ParseState) (li : Z) : ParseState :=
  mkParseState li (ps_diagnostics st) (ps_event_definitions st)
    (ps_event_references st) (ps_state_definitions st) (ps_state_references st)
    (ps_result_definitions st) (ps_result_references st).

(** The [if / else if] chain that files the attribute in a table. *)
Definition record_action (st : ParseState) (a : Attr) : ParseState :=
  let li := ps_lastIndex st in
  if isEventDefinition (name a) then
    mkParseState li (ps_diagnostics st)
      (addDefinitionRanges li (ps_event_definitions st) (value a) (range a))
      (ps_event_references st) (ps_state_definitions st) (ps_state_references st)
      (ps_result_definitions st) (ps_result_references st)
  else if isEventReference (name a) then
    mkParseState li (ps_diagnostics st) (ps_event_definitions st)
      (addRange (ps_event_references st) (value a) (range a))
      (ps_state_definitions st) (ps_state_references st)
      (ps_result_definitions st) (ps_result_references st)
  else if isStateDefinition (name a) then
    mkParseState li (ps_diagnostics st) (ps_event_definitions st)
      (ps_event_references st)
      (addDefinitionRanges li (ps_state_definitions st) (value a) (range a))
      (ps_state_references st) (ps_result_definitions st) (ps_result_references st)
  else if isStateReference (name a) then
    mkParseState li (ps_diagnostics st) (ps_event_definitions st)
      (ps_event_references st) (ps_state_definitions st)
      (addRange (ps_state_references st) (value a) (range a))
      (ps_result_definitions st) (ps_result_references st)
  else if isResultDefinition (name a) then
    mkParseState li (ps_diagnostics st) (ps_event_definitions st)
      (ps_event_references st) (ps_state_definitions st) (ps_state_references st)
      (addDefinitionRanges li (ps_result_definitions st) (value a) (range a))
      (ps_result_references st)
  else if isResultReference (name a) then
    mkParseState li (ps_diagnostics st) (ps_event_definitions st)
      (ps_event_references st) (ps_state_definitions st) (ps_state_references st)
      (ps_result_definitions st)
      (addRange (ps_result_references st) (value a) (range a))
  else st.

(** The empty and malformed reference checks. *)
Definition check_reference (st : ParseState) (a : Attr) : ParseState :=
  if isEventReference (name a) || isStateReference (name a)
     || isResultReference (name a)
  then
    if String.eqb (value a) "" then
      let diagnostic := new_Diagnostic (fullRange a) "No action specified." Warning in
      let diagnostic := set_source diagnostic "KEML" in
      let diagnostic := set_tags diagnostic [Unnecessary] in
      with_diagnostics st (push (ps_diagnostics st) diagnostic)
    else if END_SPACE_PATTERN_test (value a) then
      let diagnostic := new_Diagnostic (fullRange a) subscriber_message Error in
      let diagnostic := set_source diagnostic "KEML" in
      with_diagnostics st (push (ps_diagnostics st) diagnostic)
    else st
  else st.

Definition check_event_filter (attrs : list (string * option string))
    (st : ParseState) (a : Attr) : ParseState :=
  if isEventFilter (name a) then
    with_diagnostics st
      (addDependsDiagnostic (ps_diagnostics st) attrs (fullRange a) (name a)
         ("on" ++ JS.slice_from (name a) (JS.indexOf (name a) ":"%char 0))
         "a corresponding")
  else st.

Definition check_on_dependent (tg : option string)
    (attrs : list (string * option string))
    (st : ParseState) (a : Attr) : ParseState :=
  if isTagOnDependent tg (name a) then
    with_diagnostics st
      (addDependsDiagnostic (ps_diagnostics st) attrs (fullRange a) (name a) "on" "an")
  else st.

(** The [position] checks; [INVALID_PATTERN.test] runs only when the value
    is not one of [validPosition], and moves the pattern's [lastIndex]. *)
Definition check_position (attrs : list (string * option string))
    (st : ParseState) (a : Attr) : ParseState :=
  if isPosition (name a) then
    let st :=
      with_diagnostics st
        (addDependsDiagnostic (ps_diagnostics st) attrs (fullRange a) (name a)
           "render" "a") in
    if negb (JS.includes validPosition (value a)) then
      let '(found, li) := InvalidPattern.test (ps_lastIndex st) (value a) in
      let st := with_lastIndex st li in
      if negb found then
        let diagnostic :=
          new_Diagnostic (fullRange a) invalid_position_message Error in
        let diagnostic := set_source diagnostic "KEML" in
        with_diagnostics st (push (ps_diagnostics st) diagnostic)
      else st
    else st
  else st.

Definition check_x_prefix (attrs : list (string * option string))
    (st : ParseState) (a : Attr) : ParseState :=
  if JS.startsWith (name a) "x-" then
    with_diagnostics st
      (addDependsDiagnostic (ps_diagnostics st) attrs (fullRange a) (name a) "if" "an")
  else st.

(** The body of the loop over the attributes of one element. *)
Definition parseAttr (tg : option string) (attrs : list (string * option string))
    (st : ParseState) (a : Attr) : ParseState :=
  let st := record_action st a in
  let st := check_reference st a in
  let st := check_event_filter attrs st a in
  let st := check_on_dependent tg attrs st a in
  let st := check_position attrs st a in
  check_x_prefix attrs st a.

(** Size of the work left on the stack of node lists. *)
Fixpoint node_size (n : Node) : nat :=
  S (list_sum (map node_size (children n))).

Definition nodes_size (nodes : list Node) : nat :=
  S (list_sum (map node_size nodes)).

Definition stack_size (stack : list (list Node)) : nat :=
  list_sum (map nodes_size stack).

Section Parser.

(** The HTML language service: [service.parseHTMLDocument] and the
    attribute extractor [parseNodeAttrs] that is built on its scanner. *)
Variable service_parseHTMLDocument : LSTextDocument -> HTMLDocument.
Variable parseNodeAttrs : LSTextDocument -> Node -> list Attr.

(** The body of [for (node of nodes)]: push the children, then go
    through the attributes.  The stack is kept with its top first. *)
Definition visit_node (textDoc : LSTextDocument)
    (acc : list (list Node) * ParseState) (node : Node)
    : list (list Node) * ParseState :=
  let '(stack, st) := acc in
  let stack := children node :: stack in
  let attrs := match attributes node with Some a => a | None => [] end in
  (stack, fold_left (parseAttr (tag node) attrs) (parseNodeAttrs textDoc node) st).

(** [while ((nodes = stack.pop())) { for (node of nodes) { ... } }]. *)
Equations walk (textDoc : LSTextDocument) (stack : list (list Node))
    (st : ParseState) : ParseState by wf (stack_size stack) lt :=
  walk textDoc [] st := st;
  walk textDoc (nodes :: stack) st :=
    walk textDoc
      (fst (fold_left (visit_node textDoc) nodes (stack, st)))
      (snd (fold_left (visit_node textDoc) nodes (stack, st))).
Next Obligation.
  assert (Hsize : forall td ns acc,
    stack_size (fst (fold_left (visit_node td) ns acc))
    = (list_sum (map node_size ns) + stack_size (fst acc))%nat).
  { intros td. induction ns as [|n ns IH]; intros [stk s]; [reflexivity|].
    cbn [fold_left]. rewrite IH. unfold visit_node. cbn [fst].
    unfold stack_size, nodes_size. destruct n.
    simpl. lia. }
  rewrite Hsize. cbn [fst].
  unfold stack_size, nodes_size. simpl. lia.
Qed.

(** [parseHTMLDocument(doc, textDoc)], started with the shared pattern at
    [lastIndex]; the second component is the [lastIndex] left behind. *)
Definition parseHTMLDocument (lastIndex : Z) (doc : TextDocument)
    (textDoc : LSTextDocument) : ParsedDocument * Z :=
  let htmlDoc := service_parseHTMLDocument textDoc in
  let st := walk textDoc [roots htmlDoc] (initial_state lastIndex) in
  (mkParsedDocument doc textDoc htmlDoc
     (ps_event_definitions st) (ps_event_references st)
     (ps_state_definitions st) (ps_state_references st)
     (ps_result_definitions st) (ps_result_references st)
     (ps_diagnostics st),
   ps_lastIndex st).

End Parser.

(** ** Cross-document resolver
    ([addPartialReferenceDiagnostics.ts], [addReferenceDiagnostics.ts],
    [updateDiagnosticCollection.ts]) *)

Definition UNUSED_TPL : (string -> string) -> string :=
  t ["'"; "' "; " action is declared but its value is never read."]
    ["action"; "kind"].

Definition UNDECLARED_TPL : (string -> string) -> string :=
  t ["Cannot find "; " action '"; "'."] ["kind"; "action"].

(** The settings read by the engine ([configure.ts]); a severity that is
    not one of the four levels is stored as [undefined]. *)
Record Config : Type := mkConfig {
  languageIds : list string;
  exclude : list string;
  include : list string;
  actionUndefinedSeverity : option DiagnosticSeverity;
  actionUnusedSeverity : option DiagnosticSeverity
}.

Definition Docs : Type := JSMap.t ParsedDocument.

Section Resolver.

(** The module-level table [docs]. *)
Variable docs : Docs.

(** The search [for (ref of docs.values())] with its [break]. *)
Definition found_in_docs (right : ParsedDocument -> Store) (action : string) : bool :=
  existsb (fun ref => JSMap.has (right ref) action) (JSMap.values docs).

(** The diagnostic built for one range. *)
Definition partial_diagnostic (kind : string) (tpl : (string -> string) -> string)
    (severity : DiagnosticSeverity) (tags : option (list DiagnosticTag))
    (action : string) (r : Range) : Diagnostic :=
  let diagnostic :=
    new_Diagnostic r (tpl (record [("kind", kind); ("action", action)])) severity in
  let diagnostic := set_source diagnostic "KEML" in
  match tags with
  | Some tgs => set_tags diagnostic tgs
  | None => diagnostic
  end.

Definition addPartialReferenceDiagnostics (diagnostics : list Diagnostic)
    (cur : ParsedDocument) (left right : ParsedDocument -> Store)
    (kind : string) (tpl : (string -> string) -> string)
    (severity : DiagnosticSeverity) (tags : option (list DiagnosticTag))
    : list Diagnostic :=
  fold_left
    (fun diagnostics entry =>
       let '(action, ranges) := entry in
       if negb (found_in_docs right action) then
         fold_left
           (fun diagnostics r =>
              push diagnostics (partial_diagnostic kind tpl severity tags action r))
           ranges diagnostics
       else diagnostics)
    (left cur) diagnostics.

Definition addReferenceDiagnostics (cfg : Config) (diagnostics : list Diagnostic)
    (cur : ParsedDocument)
    (definitionResolver referenceResolver : ParsedDocument -> Store)
    (kind : string) : list Diagnostic :=
  let diagnostics :=
    match actionUnusedSeverity cfg with
    | Some severity =>
        addPartialReferenceDiagnostics diagnostics cur
          definitionResolver referenceResolver kind UNUSED_TPL severity
          (if severity_eqb severity Warning then Some [Unnecessary] else None)
    | None => diagnostics
    end in
  match actionUndefinedSeverity cfg with
  | Some severity =>
      addPartialReferenceDiagnostics diagnostics cur
        referenceResolver definitionResolver kind UNDECLARED_TPL severity None
  | None => diagnostics
  end.

(** The cross-document diagnostics computed for one document. *)
Definition reference_diagnostics (cfg : Config) (cur : ParsedDocument)
    : list Diagnostic :=
  let diagnostics := [] in
  let diagnostics :=
    addReferenceDiagnostics cfg diagnostics cur
      event_definitions event_references "event" in
  let diagnostics :=
    addReferenceDiagnostics cfg diagnostics cur
      state_definitions state_references "state" in
  addReferenceDiagnostics cfg diagnostics cur
    result_definitions result_references "result".

(** [updateDiagnosticCollection()]: the collection is cleared and then
    filled, one entry per tracked document, keyed by [cur.doc.uri]. *)
Definition updateDiagnosticCollection (cfg : Config)
    : JSMap.t (list Diagnostic) :=
  fold_left
    (fun collection cur =>
       JSMap.set collection (uri (doc cur))
         (reference_diagnostics cfg cur ++ diagnostics cur)%list)
    (JSMap.values docs) JSMap.empty.

End Resolver.

(** ** Workspace table ([setDocs.ts], [onDidRename.ts], [match.ts]) *)

(** Everything the handlers read and write. *)
Record World : Type := mkWorld {
  w_config : Config;
  w_docs : Docs;
  w_lastIndex : Z;
  w_diagnosticCollection : JSMap.t (list Diagnostic)
}.

Section Coordinator.

Variable service_parseHTMLDocument : LSTextDocument -> HTMLDocument.
Variable parseNodeAttrs : LSTextDocument -> Node -> list Attr.

(** [matchesGlob] of [node:path]. *)
Variable matchesGlob : string -> string -> bool.

Definition glob (path pattern : string) : bool :=
  matchesGlob path pattern ||
  matchesGlob path ("**/" ++ pattern) ||
  matchesGlob path (pattern ++ "/**") ||
  matchesGlob path ("**/" ++ pattern ++ "/**").

Definition match_ (path : string) (exclude include : list string) : bool :=
  if existsb (glob path) exclude then existsb (glob path) include else true.

Definition setDocs (w : World) (doc : TextDocument) (overwrite : bool) : World :=
  let url := uri doc in
  if negb (Bool.eqb (JSMap.has (w_docs w) url) overwrite) then w
  else if negb (JS.includes (languageIds (w_config w)) (languageId doc))
          || negb (match_ (uri_path doc) (exclude (w_config w)) (include (w_config w)))
  then w
  else
    let textDoc := mkLSTextDocument url "html" (version doc) (getText doc) in
    let '(parsed, lastIndex) :=
      parseHTMLDocument service_parseHTMLDocument parseNodeAttrs
        (w_lastIndex w) doc textDoc in
    let docs := JSMap.set (w_docs w) url parsed in
    mkWorld (w_config w) docs lastIndex
      (updateDiagnosticCollection docs (w_config w)).

Definition onDidChangeDoc (w : World) (doc : TextDocument) : World :=
  setDocs w doc true.

Definition onDidCreateDoc (w : World) (doc : TextDocument) : World :=
  setDocs w doc false.

(** [cur.doc = ...]. *)
Definition set_doc (cur : ParsedDocument) (d : TextDocument) : ParsedDocument :=
  mkParsedDocument d (textDoc cur) (htmlDoc cur)
    (event_definitions cur) (event_references cur)
    (state_definitions cur) (state_references cur)
    (result_definitions cur) (result_references cur)
    (diagnostics cur).

(** How the promise of [workspace.openTextDocument(newUri)] settles. *)
Inductive Settled : Type :=
| Fulfilled (opened : TextDocument)
| Rejected.

(** What [onDidRename] does once the promise has settled, on the world as
    the handlers that ran in the meantime have left it; [cur] is the
    object that was read before the [await].  A rejection ends the
    function at the [await]: the assignment and the three calls after it
    do not run.  The handlers for creation, change, edit and deletion file
    freshly parsed objects or remove entries, so the assignment to
    [cur.doc] shows only in the entry that is filed under [newUrl];
    another rename of the same entry is taken not to settle in between. *)
Definition onDidRename_resume (w : World) (cur : ParsedDocument)
    (oldUrl newUrl : string) (settled : Settled) : World :=
  match settled with
  | Rejected => w
  | Fulfilled opened =>
      let cur := set_doc cur opened in
      let docs := JSMap.delete (w_docs w) oldUrl in
      let docs := JSMap.set docs newUrl cur in
      mkWorld (w_config w) docs (w_lastIndex w)
        (updateDiagnosticCollection docs (w_config w))
  end.

(** [onDidRename({ oldUri, newUri })]: the lookup is done when the event
    arrives; [during] is what the handlers that run while the promise is
    pending do to the world (the identity when none runs). *)
Definition onDidRename (w : World) (oldUrl newUrl : string)
    (during : World -> World) (settled : Settled) : World :=
  match JSMap.get (w_docs w) oldUrl with
  | None => w
  | Some cur => onDidRename_resume (during w) cur oldUrl newUrl settled
  end.

End Coordinator.

(** ** The classification grammar, as tabulated

    | pattern                       | kind   | role       |
    | [on:<evt>]                    | event  | definition |
    | [on], [reset]                 | event  | reference  |
    | [if:<s>]                      | state  | definition |
    | [if]                          | state  | reference  |
    | [result], [error]             | result | definition |
    | [render]                      | result | reference  |

    each optionally prefixed with [x-]. *)

Module Grammar.

Inductive Kind : Type := event | state | result.
Inductive Role : Type := definition | reference.

Inductive row : string -> Kind -> Role -> Prop :=
| row_on_def (evt : string) : row ("on:" ++ evt) event definition
| row_on : row "on" event reference
| row_reset : row "reset" event reference
| row_if_def (s : string) : row ("if:" ++ s) state definition
| row_if : row "if" state reference
| row_result : row "result" result definition
| row_error : row "error" result definition
| row_render : row "render" result reference.

Inductive in_grammar : string -> Kind -> Role -> Prop :=
| plain (n : string) (k : Kind) (r : Role) : row n k r -> in_grammar n k r
| prefixed (n : string) (k : Kind) (r : Role) :
    row n k r -> in_grammar ("x-" ++ n) k r.

(** The six classifiers, in the order of the parser's [if] chain. *)
Definition classifiers (name : string) : list bool :=
  [isEventDefinition name; isEventReference name;
   isStateDefinition name; isStateReference name;
   isResultDefinition name; isResultReference name].

Definition count_true (bs : list bool) : nat :=
  List.length (filter (fun b => b) bs).

End Grammar.

(** ** The invariant of the symbol tables *)

(** Every key is a non-empty string and maps to a non-empty list. *)
Definition store_ok (store : Store) : Prop :=
  forall key ranges, In (key, ranges) store -> key <> "" /\ ranges <> [].

(** The number of occurrences recorded in a table. *)
Definition ranges_count (store : Store) : nat :=
  list_sum (map (fun entry => List.length (snd entry)) store).

Definition tables_ok (cur : ParsedDocument) : Prop :=
  store_ok (event_definitions cur) /\ store_ok (event_references cur) /\
  store_ok (state_definitions cur) /\ store_ok (state_references cur) /\
  store_ok (result_definitions cur) /\ store_ok (result_references cur).

(** ** A small workspace

    The document [<button position="(a" on:click="(x save"></button>],
    with the tree and the attributes that the HTML language service
    reports for it. *)

Module Sample.

Definition quote : string := String (ascii_of_nat 34) EmptyString.

Definition quoted (s : string) : string := quote ++ s ++ quote.

Definition text : string :=
  "<button position=" ++ quoted "(a" ++ " on:click=" ++ quoted "(x save"
  ++ "></button>".

Definition button : Node :=
  mkNode (Some "button") 0 (Some 41)
    (Some [("position", Some (quoted "(a")); ("on:click", Some (quoted "(x save"))])
    [].

Definition service_parseHTMLDocument (td : LSTextDocument) : HTMLDocument :=
  mkHTMLDocument [button].

Definition at_ (l c : Z) : Position := mkPosition l c.

Definition position_attr : Attr :=
  mkAttr "position" "(a" 18 20
    (mkRange (at_ 0 18) (at_ 0 20)) (mkRange (at_ 0 8) (at_ 0 21)).

Definition on_click_attr : Attr :=
  mkAttr "on:click" "(x save" 32 39
    (mkRange (at_ 0 32) (at_ 0 39)) (mkRange (at_ 0 22) (at_ 0 40)).

Definition parseNodeAttrs (td : LSTextDocument) (node : Node) : list Attr :=
  match tag node with
  | Some _ => [position_attr; on_click_attr]
  | None => []
  end.

Definition matchesGlob (path pattern : string) : bool := false.

Definition document : TextDocument :=
  mkTextDocument "file:///a.html" "/a.html" 1 "html" text.

Definition renamed : TextDocument :=
  mkTextDocument "file:///b.html" "/b.html" 1 "html" text.

Definition ls_document : LSTextDocument :=
  mkLSTextDocument "file:///a.html" "html" 1 text.

Definition config : Config :=
  mkConfig ["html"] [] [] (Some Error) (Some Warning).

(** Before anything is opened. *)
Definition world0 : World := mkWorld config JSMap.empty 0 JSMap.empty.

(** After the document has been opened. *)
Definition world1 : World :=
  onDidCreateDoc service_parseHTMLDocument parseNodeAttrs matchesGlob
    world0 document.

(** The first parse, with the shared pattern at rest, and a second parse
    of the same text right after it. *)
Definition first_parse : ParsedDocument * Z :=
  parseHTMLDocument service_parseHTMLDocument parseNodeAttrs 0
    document ls_document.

Definition second_parse : ParsedDocument * Z :=
  parseHTMLDocument service_parseHTMLDocument parseNodeAttrs
    (snd first_parse) document ls_document.

(** The entry of the table after the document has been opened. *)
Definition parsed : ParsedDocument := fst first_parse.

Definition save_range : Range := mkRange (at_ 0 35) (at_ 0 39).

Definition invalid_position_diagnostic : Diagnostic :=
  mkDiagnostic (fullRange position_attr) invalid_position_message Error
    (Some "KEML") None.

End Sample.

(** ** Notions used to state and prove the properties *)

(** What [parseTokens] does after its loop, were the loop to stop at [e]. *)
Definition flush (input : string) (e : Z) (st : ScanState) : list ParsedToken :=
  let '(characterDelta, result) := st in
  if negb (characterDelta =? -1)
  then push result (mkToken (JS.slice input characterDelta e) characterDelta)
  else result.

(** The pending start index for a pending run [w] that begins at [off]. *)
Definition pending (off : Z) (w : string) : Z :=
  match w with EmptyString => -1 | _ => off end.

(** [tok] is a non-empty space-free piece of [s] found at its recorded
    offset, [off] being the offset of the first character of [s]. *)
Definition located (off : Z) (s : string) (tok : ParsedToken) : Prop :=
  token tok <> "" /\ TokenSpec.spaceless (token tok) = true /\
  exists a b, s = a ++ token tok ++ b /\ characterDelta tok = off + JS.len a.

(** The state of the scanning loop before index [i]: a pending start lies
    before [i], and no token pushed so far is empty. *)
Definition scan_ok (i : Z) (st : ScanState) : Prop :=
  (fst st = -1 \/ 0 <= fst st < i) /\
  forall tok, In tok (snd st) -> token tok <> "".

(** The six tables of a parse state satisfy the invariant. *)
Definition state_ok (st : ParseState) : Prop :=
  store_ok (ps_event_definitions st) /\ store_ok (ps_event_references st) /\
  store_ok (ps_state_definitions st) /\ store_ok (ps_state_references st) /\
  store_ok (ps_result_definitions st) /\ store_ok (ps_result_references st).

(** The six tables of a parse state have unique keys. *)
Definition state_wf (st : ParseState) : Prop :=
  JSMap.wf (ps_event_definitions st) /\ JSMap.wf (ps_event_references st) /\
  JSMap.wf (ps_state_definitions st) /\ JSMap.wf (ps_state_references st) /\
  JSMap.wf (ps_result_definitions st) /\ JSMap.wf (ps_result_references st).

(** The two messages of the resolver, for a kind and an action name. *)
Definition unused_message (kind action : string) : string :=
  UNUSED_TPL (record [("kind", kind); ("action", action)]).

Definition undeclared_message (kind action : string) : string :=
  UNDECLARED_TPL (record [("kind", kind); ("action", action)]).

(** The diagnostics one pass emits, entry by entry. *)
Definition emitted (docs : Docs) (cur : ParsedDocument)
    (left right : ParsedDocument -> Store)
    (kind : string) (tpl : (string -> string) -> string)
    (severity : DiagnosticSeverity) (tags : option (list DiagnosticTag))
    : list Diagnostic :=
  flat_map
    (fun entry =>
       if found_in_docs docs right (fst entry) then []
       else map (partial_diagnostic kind tpl severity tags (fst entry)) (snd entry))
    (left cur).

(** [d] is an "unused" diagnostic for [action] of kind [kind]. *)
Definition is_unused_for (kind action : string) (d : Diagnostic) : bool :=
  String.eqb (d_message d) (unused_message kind action).

(** ** Order of tokens *)

(** [a] ends before [b] starts, with at least one character in between. *)
Definition precedes (a b : ParsedToken) : Prop :=
  characterDelta a + JS.len (token a) < characterDelta b.

(** ** Navigation and completion
    ([getLocations.ts], [getExistingActionValue.ts],
    [provideActionValues.ts], [combineIterators.ts], [addCompletions.ts]) *)

(** [vscode.Location]. *)
Record Location : Type := mkLocation { loc_uri : string; loc_range : Range }.

(** [getLocations(value, resolver)] over the table [docs]. *)
Definition getLocations (docs : Docs) (value : string)
    (resolver : ParsedDocument -> Store) : list Location :=
  fold_left
    (fun result cur =>
       match JSMap.get (resolver cur) value with
       | Some ranges =>
           fold_left (fun result r => push result (mkLocation (uri (doc cur)) r))
                     ranges result
       | None => result
       end)
    (JSMap.values docs) [].

(** The loop of [getExistingActionValue], with its early [return]. *)
Fixpoint getExistingActionValue_from {V : Type} (curs : list ParsedDocument)
    (name : string) (definitionsGetter : ParsedDocument -> Store)
    (valueGetter : string -> V) : option V :=
  match curs with
  | [] => None
  | cur :: curs' =>
      if JSMap.has (definitionsGetter cur) name then Some (valueGetter name)
      else getExistingActionValue_from curs' name definitionsGetter valueGetter
  end.

(** [getExistingActionValue(name, definitionsGetter, valueGetter)];
    [None] stands for [undefined]. *)
Definition getExistingActionValue {V : Type} (docs : Docs) (name : string)
    (definitionsGetter : ParsedDocument -> Store) (valueGetter : string -> V)
    : option V :=
  getExistingActionValue_from (JSMap.values docs) name definitionsGetter valueGetter.

(** A [Set<string>], as the list of its members in insertion order. *)
Definition set_has (s : list string) (x : string) : bool :=
  existsb (String.eqb x) s.

Definition set_add (s : list string) (x : string) : list string :=
  if set_has s x then s else (s ++ [x])%list.

(** [provideActionValues(resolver, converter)]. *)
Definition provideActionValues {V : Type} (docs : Docs)
    (resolver : ParsedDocument -> Store) (converter : string -> V) : list V :=
  snd
    (fold_left
       (fun acc cur =>
          fold_left
            (fun acc action =>
               let '(seen, result) := acc in
               if negb (set_has seen action)
               then (set_add seen action, push result (converter action))
               else (seen, result))
            (JSMap.keys (resolver cur)) acc)
       (JSMap.values docs) ([], [])).

(** [combineIterators(...args)], on iterators that have been run to the
    end. *)
Definition combineIterators {A : Type} (args : list (list A)) : list A :=
  List.concat args.

(** [IValueData] of the language service. *)
Record MarkupContent : Type := mkMarkupContent { mc_kind : string; mc_value : string }.

Record ValueData : Type := mkValueData {
  vd_name : string;
  vd_description : MarkupContent
}.

Inductive CompletionItemKind : Type := KindValue | KindOther (n : Z).

(** [vscode.CompletionItem], with the fields the engine sets. *)
Record CompletionItem : Type := mkCompletionItem {
  ci_label : string;
  ci_kind : option CompletionItemKind;
  ci_preselect : bool;
  ci_insertText : option string;
  ci_range : option Range;
  ci_documentation : option string
}.

(** The item built for one action. *)
Definition action_item (action : string) (r : Range) (documentation : ValueData)
    : CompletionItem :=
  mkCompletionItem action (Some KindValue) true (Some action) (Some r)
    (Some (mc_value (vd_description documentation))).

(** [addCompletions(completions, definitionsGetter, referencesGetter,
    range, valueGetter)]; the state of the loops is the set [done] and the
    array [completions]. *)
Definition addCompletions_step (docs : Docs)
    (definitionsGetter : ParsedDocument -> Store) (r : Range)
    (valueGetter : string -> ValueData)
    (acc : list string * list CompletionItem) (action : string)
    : list string * list CompletionItem :=
  let '(done, completions) := acc in
  if set_has done action then (done, completions)
  else
    match getExistingActionValue docs action definitionsGetter valueGetter with
    | None => (done, completions)
    | Some documentation =>
        (set_add done action, push completions (action_item action r documentation))
    end.

Definition addCompletions (docs : Docs) (completions : list CompletionItem)
    (definitionsGetter referencesGetter : ParsedDocument -> Store)
    (r : Range) (valueGetter : string -> ValueData) : list CompletionItem :=
  snd
    (fold_left
       (fun acc cur =>
          fold_left (addCompletions_step docs definitionsGetter r valueGetter)
            (combineIterators
               [JSMap.keys (definitionsGetter cur); JSMap.keys (referencesGetter cur)])
            acc)
       (JSMap.values docs) ([], completions)).

(** ** Removing a document ([onDidDelete.ts]) *)

Definition onDidDelete (w : World) (url : string) : World :=
  let docs := JSMap.delete (w_docs w) url in
  mkWorld (w_config w) docs (w_lastIndex w)
    (updateDiagnosticCollection docs (w_config w)).

(** [d] is an "undefined" diagnostic for [action] of kind [kind]. *)
Definition is_undeclared_for (kind action : string) (d : Diagnostic) : bool :=
  String.eqb (d_message d) (undeclared_message kind action).

(** A document that defines the event action [save] and subscribes to it. *)
Definition linked_document : ParsedDocument :=
  mkParsedDocument Sample.document Sample.ls_document (mkHTMLDocument [])
    [("save", [Sample.save_range])]
    [("save", [mkRange (mkPosition 1 9) (mkPosition 1 13)])]
    JSMap.empty JSMap.empty JSMap.empty JSMap.empty [].

(** A document with a reference to an event action that nothing defines. *)
Definition dangling_document : ParsedDocument :=
  mkParsedDocument Sample.document Sample.ls_document (mkHTMLDocument [])
    JSMap.empty
    [("load", [mkRange (mkPosition 2 9) (mkPosition 2 13)])]
    JSMap.empty JSMap.empty JSMap.empty JSMap.empty [].

(** ** Local diagnostics *)

(** The six tables of a parse state. *)
Definition tables_of (st : ParseState)
    : Store * Store * Store * Store * Store * Store :=
  (ps_event_definitions st, ps_event_references st,
   ps_state_definitions st, ps_state_references st,
   ps_result_definitions st, ps_result_references st).

(** The shape shared by the diagnostics of the parser: they come from
    KEML, and are either a warning tagged "unnecessary" or an untagged
    error. *)
Definition local_diagnostic_ok (d : Diagnostic) : Prop :=
  d_source d = Some "KEML" /\
  ((d_severity d = Warning /\ d_tags d = Some [Unnecessary]) \/
   (d_severity d = Error /\ d_tags d = None)).

(** The warning for a reference attribute without a value. *)
Definition no_action_diagnostic (a : Attr) : Diagnostic :=
  mkDiagnostic (fullRange a) "No action specified." Warning (Some "KEML")
    (Some [Unnecessary]).

(** The error for a reference attribute whose value starts or ends with
    white space. *)
Definition subscriber_diagnostic (a : Attr) : Diagnostic :=
  mkDiagnostic (fullRange a) subscriber_message Error (Some "KEML") None.

(** The attribute is in a reference role. *)
Definition isReference (name : string) : bool :=
  isEventReference name || isStateReference name || isResultReference name.

(** A step that keeps the tables and only adds well-shaped diagnostics. *)
Definition frames (st st' : ParseState) : Prop :=
  tables_of st' = tables_of st /\
  exists extra,
    ps_diagnostics st' = (ps_diagnostics st ++ extra)%list /\
    Forall local_diagnostic_ok extra.


(** ** Looking up what was recorded *)

(** The ranges found under a key once [new] ranges have been appended to
    what was there. *)
Definition appended (old : option (list Range)) (new : list Range)
    : option (list Range) :=
  match old, new with
  | Some ranges, _ => Some (ranges ++ new)%list
  | None, [] => None
  | None, _ => Some new
  end.

(** The range of a token of an attribute value whose range is [r]: it
    starts [characterDelta] characters after the start of [r] and is as
    long as the token. *)
Definition token_range (r : Range) (tok : ParsedToken) : Range :=
  mkRange (translate (range_start r) (characterDelta tok))
          (translate (range_start r) (characterDelta tok + JS.len (token tok))).

(** ** The order of the traversal

    The loop of [parseHTMLDocument] pops a list of siblings, goes through
    it from left to right and pushes the children of each; the list popped
    next is therefore the children of the last sibling. *)

(** The nodes below [n], in the order in which the loop reaches them once
    the children of [n] are on top of the stack. *)
Fixpoint visited_after (n : Node) : list Node :=
  (children n ++ List.concat (rev (map visited_after (children n))))%list.

Definition visit_order (nodes : list Node) : list Node :=
  (nodes ++ List.concat (rev (map visited_after nodes)))%list.

(** The nodes of a tree in document order. *)
Fixpoint subtree (n : Node) : list Node :=
  n :: List.concat (map subtree (children n)).

Definition document_order (nodes : list Node) : list Node :=
  List.concat (map subtree nodes).

(** The inner loop over the attributes of one node. *)
Definition visit_attrs (parseNodeAttrs : LSTextDocument -> Node -> list Attr)
    (textDoc : LSTextDocument) (st : ParseState) (node : Node) : ParseState :=
  fold_left
    (parseAttr (tag node)
       (match attributes node with Some a => a | None => [] end))
    (parseNodeAttrs textDoc node) st.

(** An attribute that leaves the shared pattern at rest: it is not a
    position, or its value is one of the valid positions, or its value has
    no bracket character. *)
Definition position_at_rest (a : Attr) : bool :=
  negb (isPosition (name a))
  || JS.includes validPosition (value a)
  || TokenSpec.bracket_free (value a).

(** ** Attribute extraction ([parseNodeAttrs.ts], [getAttrAtOffset.ts]) *)

Module Extractor.

(** The token kinds that [parseNodeAttrs] tells apart; every other kind
    of the scanner is [OtherToken]. *)
Inductive TokenType : Type := AttributeName | AttributeValue | EOS | OtherToken.

(** What the scanner shows after one [scan()]. *)
Record Scanned : Type := mkScanned {
  getTokenType : TokenType;
  getTokenOffset : Z;
  getTokenEnd : Z;
  getTokenText : string
}.

Definition is_quote (c : ascii) : bool :=
  Ascii.eqb c (ascii_of_nat 34) || Ascii.eqb c (ascii_of_nat 39).

Fixpoint all_whitespace (s : string) : bool :=
  match s with
  | EmptyString => true
  | String c s' => is_whitespace c && all_whitespace s'
  end.

Fixpoint has_quote (s : string) : bool :=
  match s with
  | EmptyString => false
  | String c s' => is_quote c || has_quote s'
  end.

(** The match of [HEAD_PATTERN] (at the start of the text, white space
    and then a single or double quote, or else nothing) on a text of which
    [n] white-space characters have been read: its length. *)
Fixpoint head_match (s : string) (n : Z) : Z :=
  match s with
  | EmptyString => 0
  | String c s' =>
      if is_quote c then n + 1
      else if is_whitespace c then head_match s' (n + 1)
      else 0
  end.

(** [HEAD_PATTERN.exec(tokenText)![0].length]. *)
Definition HEAD_PATTERN_length (tokenText : string) : Z :=
  head_match tokenText 0.

(** [TAIL_PATTERN.exec(tokenText)![0].length] (a single or double quote
    and then white space up to the end of the text, or else nothing at the
    end): the match starts at the first index at which a quote is followed
    by white space only up to the end; failing that it is the empty match
    at the end. *)
Fixpoint TAIL_PATTERN_length (tokenText : string) : Z :=
  match tokenText with
  | EmptyString => 0
  | String c s' =>
      if is_quote c && all_whitespace s' then JS.len tokenText
      else TAIL_PATTERN_length s'
  end.

(** [convertPosition(pos)]. *)
Definition convertPosition (pos : Position) : Position :=
  mkPosition (line pos) (character pos).

Section Scan.

(** [service.createScanner(text, start)], as the tokens that successive
    calls of [scan()] show before the scanner runs out, and
    [textDoc.positionAt]. *)
Variable createScanner : string -> Z -> list Scanned.
Variable positionAt : LSTextDocument -> Z -> Position.

(** The object yielded for a value token.  [tail] is [-0] when the tail
    pattern matches nothing, and [slice] reads [-0] as [0]. *)
Definition yield_attr (textDoc : LSTextDocument) (name : string)
    (nameOffset : Z) (tok : Scanned) : Attr :=
  let tokenEnd := getTokenEnd tok in
  let tokenOffset := getTokenOffset tok in
  let tokenText := getTokenText tok in
  let head := HEAD_PATTERN_length tokenText in
  let tail := TAIL_PATTERN_length tokenText * -1 in
  let offset := tokenOffset + head in
  let end_ := tokenEnd + tail in
  mkAttr name (JS.slice tokenText head tail) offset end_
    (new_Range (convertPosition (positionAt textDoc offset))
               (convertPosition (positionAt textDoc end_)))
    (new_Range (convertPosition (positionAt textDoc nameOffset))
               (convertPosition (positionAt textDoc tokenEnd))).

(** [while (tokenEnd < startTagEnd && (token = scanner.scan()) !== EOS)]. *)
Fixpoint scan_loop (textDoc : LSTextDocument) (startTagEnd : Z)
    (tokens : list Scanned) (tokenEnd : Z) (name : option string)
    (nameOffset : option Z) : list Attr :=
  match tokens with
  | [] => []
  | tok :: rest =>
      if tokenEnd <? startTagEnd then
        match getTokenType tok with
        | EOS => []
        | AttributeName =>
            scan_loop textDoc startTagEnd rest (getTokenEnd tok)
              (Some (getTokenText tok)) (Some (getTokenOffset tok))
        | AttributeValue =>
            match name, nameOffset with
            | Some n, Some no =>
                yield_attr textDoc n no tok
                :: scan_loop textDoc startTagEnd rest (getTokenEnd tok)
                     None nameOffset
            | _, _ =>
                scan_loop textDoc startTagEnd rest (getTokenEnd tok)
                  name nameOffset
            end
        | OtherToken =>
            scan_loop textDoc startTagEnd rest (getTokenEnd tok)
              name nameOffset
        end
      else []
  end.

(** [parseNodeAttrs(textDoc, node)], as the list of what it yields. *)
Definition parseNodeAttrs (textDoc : LSTextDocument) (node : Node)
    : list Attr :=
  match startTagEnd node, tag node, attributes node with
  | Some e, Some tg, Some _ =>
      if (e =? 0) || String.eqb tg "" then []
      else scan_loop textDoc e (createScanner (ls_text textDoc) (start node))
             (-1) None None
  | _, _, _ => []
  end.

(** [getAttrAtOffset(textDoc, node, offset)]. *)
Definition getAttrAtOffset (textDoc : LSTextDocument) (node : Node)
    (offset_ : Z) : option Attr :=
  find (fun attribute => (offset attribute <=? offset_)
                         && (offset_ <=? end_ attribute))
       (parseNodeAttrs textDoc node).

End Scan.

End Extractor.

(** The scanner's tokens for the start tag of [Sample.text], and
    [positionAt] for a text of one line. *)
Module SampleTokens.

Import Extractor.

Definition createScanner (text : string) (start : Z) : list Scanned :=
  [mkScanned OtherToken 0 1 "<";
   mkScanned OtherToken 1 7 "button";
   mkScanned OtherToken 7 8 " ";
   mkScanned AttributeName 8 16 "position";
   mkScanned OtherToken 16 17 "=";
   mkScanned AttributeValue 17 21 (Sample.quoted "(a");
   mkScanned OtherToken 21 22 " ";
   mkScanned AttributeName 22 30 "on:click";
   mkScanned OtherToken 30 31 "=";
   mkScanned AttributeValue 31 40 (Sample.quoted "(x save");
   mkScanned OtherToken 40 41 ">"].

Definition positionAt (textDoc : LSTextDocument) (o : Z) : Position :=
  mkPosition 0 o.

End SampleTokens.

(** ** Edits ([onDidChangeTextDocument.ts]) *)

Section Edits.

Variable service_parseHTMLDocument : LSTextDocument -> HTMLDocument.
Variable parseNodeAttrs : LSTextDocument -> Node -> list Attr.

(** The content changes of an event and [TextDocument.update] of the
    language service. *)
Variable Change : Type.
Variable TextDocument_update : LSTextDocument -> list Change -> Z -> LSTextDocument.

Definition onDidChangeTextDocument (w : World) (document : TextDocument)
    (contentChanges : list Change) : World :=
  let url := uri document in
  match JSMap.get (w_docs w) url with
  | None => w
  | Some cur =>
      match contentChanges with
      | [] => w
      | _ :: _ =>
          let textDoc :=
            TextDocument_update (textDoc cur) contentChanges (version document) in
          let '(parsed, lastIndex) :=
            parseHTMLDocument service_parseHTMLDocument parseNodeAttrs
              (w_lastIndex w) document textDoc in
          let docs := JSMap.set (w_docs w) url parsed in
          mkWorld (w_config w) docs lastIndex
            (updateDiagnosticCollection docs (w_config w))
      end
  end.

End Edits.

(** The table in which a reference attribute called [name] is filed. *)
Definition reference_table (name : string) (st : ParseState) : Store :=
  if isEventReference name then ps_event_references st
  else if isStateReference name then ps_state_references st
  else ps_result_references st.

(** ** Removing several documents ([onDidDeleteFiles.ts]):
    [files.forEach(onDidDelete)]. *)
Definition onDidDeleteFiles (w : World) (files : list string) : World :=
  fold_left onDidDelete files w.

(** ** Whole words

    [tok] is a whole word of [s], recorded at the index of its own first
    character ([off] being the offset of the first character of [s]): the
    text splits into what comes before the token, the token and what comes
    after; the offset counts the characters before; and the token is
    bounded by a space or by the edge of the text on either side. *)
Definition whole_word (off : Z) (s : string) (tok : ParsedToken) : Prop :=
  exists before after,
    s = before ++ token tok ++ after /\
    characterDelta tok = off + JS.len before /\
    (before = "" \/ exists b, before = b ++ String space "") /\
    (after = "" \/ exists a, after = String space a).

(** ** Renaming, as claimed

    The reading under which every rename of a tracked identity relinks the
    document, however the opening of the new identity turns out. *)
Definition rename_always_relinks (w : World) (oldUrl newUrl : string) : Prop :=
  forall cur settled,
    JSMap.get (w_docs w) oldUrl = Some cur ->
    let w' := onDidRename w oldUrl newUrl (fun w0 => w0) settled in
    (oldUrl <> newUrl -> JSMap.get (w_docs w') oldUrl = None) /\
    exists cur',
      JSMap.get (w_docs w') newUrl = Some cur' /\
      event_definitions cur' = event_definitions cur /\
      event_references cur' = event_references cur /\
      state_definitions cur' = state_definitions cur /\
      state_references cur' = state_references cur /\
      result_definitions cur' = result_definitions cur /\
      result_references cur' = result_references cur /\
      diagnostics cur' = diagnostics cur.

(** ** Where the entries of the tables come from *)

(** [a] is one of the attributes that the extractor yields for a node of
    the tree. *)
Definition extracted (parseNodeAttrs : LSTextDocument -> Node -> list Attr)
    (textDoc : LSTextDocument) (nodes : list Node) (a : Attr) : Prop :=
  exists node, In node (document_order nodes) /\ In a (parseNodeAttrs textDoc node).

(** [r] is the range of a token [k] of the value of an attribute of
    [seen] whose name has the role [role]: a token that the tokenizer
    gives for that value, and a whole word of the value recorded at the
    index of its own first character. *)
Definition token_of (seen : Attr -> Prop) (role : string -> bool)
    (k : string) (r : Range) : Prop :=
  exists a lastIndex tok,
    seen a /\ role (name a) = true /\
    0 <= lastIndex /\ In tok (parseTokens lastIndex (value a)) /\
    whole_word 0 (value a) tok /\
    token tok = k /\ k <> "" /\ r = token_range (range a) tok.

(** [k] is the whole, non-empty value of an attribute of [seen] whose name
    has the role [role], and [r] is the range of that value. *)
Definition value_of (seen : Attr -> Prop) (role : string -> bool)
    (k : string) (r : Range) : Prop :=
  exists a,
    seen a /\ role (name a) = true /\ value a = k /\ k <> "" /\ r = range a.

(** Every key of [store] holds at least one range, and every range held
    under a key has the given origin. *)
Definition store_from (origin : string -> Range -> Prop) (store : Store) : Prop :=
  forall k ranges,
    JSMap.get store k = Some ranges ->
    (exists r, In r ranges) /\ forall r, In r ranges -> origin k r.

(** Each of the six tables holds only what was extracted in its role. *)
Definition tables_from (seen : Attr -> Prop)
    (tables : Store * Store * Store * Store * Store * Store) : Prop :=
  let '(event_definitions, event_references, state_definitions,
        state_references, result_definitions, result_references) := tables in
  store_from (token_of seen isEventDefinition) event_definitions /\
  store_from (value_of seen isEventReference) event_references /\
  store_from (token_of seen isStateDefinition) state_definitions /\
  store_from (value_of seen isStateReference) state_references /\
  store_from (token_of seen isResultDefinition) result_definitions /\
  store_from (value_of seen isResultReference) result_references.

(** The six tables of a parsed document. *)
Definition document_tables (cur : ParsedDocument)
    : Store * Store * Store * Store * Store * Store :=
  (event_definitions cur, event_references cur,
   state_definitions cur, state_references cur,
   result_definitions cur, result_references cur).

(** * Properties *)

(** ** Sample runs of the tokenizer *)

Example parseTokens_doc_example :
  parseTokens 0 "foo bar(baz) qux" = [mkToken "foo" 0; mkToken "qux" 13].
Proof. reflexivity. Qed.

Example parseTokens_abc :
  parseTokens 0 "a b c" = [mkToken "a" 0; mkToken "b" 2; mkToken "c" 4].
Proof. reflexivity. Qed.

Example parseTokens_bracketed :
  parseTokens 0 "a (b c) d" = [mkToken "a" 0; mkToken "d" 8].
Proof. reflexivity. Qed.

Example words_example :
  TokenSpec.words 0 "  ab  c d " = [mkToken "ab" 2; mkToken "c" 6; mkToken "d" 8].
Proof. reflexivity. Qed.

Example normalize_example :
  TokenSpec.normalize "  ab  c d " = "ab c d".
Proof. reflexivity. Qed.

(** ** Facts about strings *)

Section StringFacts.

Lemma string_app_length (a b : string) :
  String.length (a ++ b) = (String.length a + String.length b)%nat.
Proof. induction a as [|c a IH]; simpl; [reflexivity | now rewrite IH]. Qed.

Lemma string_app_assoc (a b c : string) : (a ++ b) ++ c = a ++ (b ++ c).
Proof. induction a as [|x a IH]; simpl; [reflexivity | now rewrite IH]. Qed.

Lemma string_app_empty_r (a : string) : a ++ "" = a.
Proof. induction a as [|x a IH]; simpl; [reflexivity | now rewrite IH]. Qed.

Lemma get_app_here (a b : string) (c : ascii) :
  String.get (String.length a) (a ++ String c b) = Some c.
Proof. induction a as [|x a IH]; simpl; [reflexivity | exact IH]. Qed.

Lemma substring_prefix (w b : string) :
  String.substring 0 (String.length w) (w ++ b) = w.
Proof.
  induction w as [|x w IH]; simpl.
  - destruct b; reflexivity.
  - now rewrite IH.
Qed.

Lemma substring_skip (a b : string) (n : nat) :
  String.substring (String.length a) n (a ++ b) = String.substring 0 n b.
Proof. induction a as [|x a IH]; simpl; [reflexivity | exact IH]. Qed.

Lemma substring_app_middle (a w b : string) :
  String.substring (String.length a) (String.length w) (a ++ w ++ b) = w.
Proof. rewrite substring_skip. apply substring_prefix. Qed.

Lemma substring_all (s : string) :
  String.substring 0 (String.length s) s = s.
Proof.
  rewrite <- (string_app_empty_r s) at 2. apply substring_prefix.
Qed.

Lemma substring_zero_len (s : string) (n : nat) : String.substring n 0 s = "".
Proof.
  revert n; induction s as [|x s IH]; intros [|n]; simpl; auto.
Qed.

Lemma substring_tail (a b : string) :
  String.substring (String.length a) (String.length b) (a ++ b) = b.
Proof. rewrite substring_skip. apply substring_all. Qed.

Lemma code_is_space (c : ascii) :
  (Z.of_nat (nat_of_ascii c) =? 32) = TokenSpec.is_space c.
Proof.
  destruct c as [[] [] [] [] [] [] [] []]; reflexivity.
Qed.

(** Reading the character that follows a known prefix. *)
Lemma isSpaceAt_here (a b : string) (c : ascii) :
  isSpaceAt (a ++ String c b) (Z.of_nat (String.length a)) = TokenSpec.is_space c.
Proof.
  unfold isSpaceAt, JS.charCodeAt.
  destruct (Z.ltb_spec (Z.of_nat (String.length a)) 0) as [H|_]; [lia|].
  rewrite Nat2Z.id, get_app_here. simpl. apply code_is_space.
Qed.

(** Slicing out a known middle part. *)
Lemma slice_middle (a w b : string) :
  JS.slice (a ++ w ++ b) (Z.of_nat (String.length a))
           (Z.of_nat (String.length a + String.length w)) = w.
Proof.
  unfold JS.slice, JS.clamp, JS.len.
  rewrite !string_app_length.
  destruct (Z.ltb_spec (Z.of_nat (String.length a)) 0) as [H|_]; [lia|].
  destruct (Z.ltb_spec (Z.of_nat (String.length a + String.length w)) 0) as [H|_]; [lia|].
  rewrite !Z.min_l by lia.
  replace (Z.to_nat (Z.of_nat (String.length a + String.length w) - Z.of_nat (String.length a)))
    with (String.length w) by lia.
  rewrite Nat2Z.id. apply substring_app_middle.
Qed.

Lemma slice_empty (s : string) (a : Z) : JS.slice s a a = "".
Proof. unfold JS.slice. rewrite Z.sub_diag. apply substring_zero_len. Qed.

Lemma slice_from_tail (a b : string) :
  JS.slice_from (a ++ b) (Z.of_nat (String.length a)) = b.
Proof.
  unfold JS.slice_from.
  replace (JS.len (a ++ b)) with (Z.of_nat (String.length a + String.length b))
    by (unfold JS.len; rewrite string_app_length; lia).
  pose proof (slice_middle a b "") as H.
  rewrite string_app_empty_r in H. exact H.
Qed.

Lemma slice_from_zero (s : string) : JS.slice_from s 0 = s.
Proof. exact (slice_from_tail "" s). Qed.

End StringFacts.

(** ** The reference splitter *)

Section WordsFacts.
Import TokenSpec.

Lemma words_run (w r : string) (off : Z) :
  spaceless w = true -> w <> "" -> starts_with_word r = false ->
  words off (w ++ r) = mkToken w off :: words (off + JS.len w) r.
Proof.
  revert off. induction w as [|c w IH]; intros off Hw Hne Hr; [congruence|].
  simpl in Hw. apply andb_true_iff in Hw as [Hc Hw].
  apply negb_true_iff in Hc.
  cbn [append words]. rewrite Hc.
  destruct w as [|c' w'].
  - cbn [append]. rewrite Hr. unfold JS.len. simpl. reflexivity.
  - assert (Hsw : starts_with_word (String c' w' ++ r) = true).
    { simpl in Hw. apply andb_true_iff in Hw as [Hc' _]. simpl. exact Hc'. }
    rewrite Hsw. rewrite (IH (off + 1)) by (auto; discriminate).
    simpl token. f_equal. f_equal.
    unfold JS.len. cbn [String.length]. lia.
Qed.

Lemma words_single (w : string) (off : Z) :
  spaceless w = true -> w <> "" -> words off w = [mkToken w off].
Proof.
  intros Hw Hne. rewrite <- (string_app_empty_r w) at 1.
  rewrite words_run by auto. reflexivity.
Qed.

Lemma words_run_space (w r : string) (off : Z) :
  spaceless w = true -> w <> "" ->
  words off (w ++ String space r) = mkToken w off :: words (off + JS.len w + 1) r.
Proof.
  intros Hw Hne. rewrite words_run by auto. reflexivity.
Qed.

Lemma spaceless_snoc (w : string) (c : ascii) :
  spaceless w = true -> is_space c = false -> spaceless (w ++ String c "") = true.
Proof.
  induction w as [|x w IH]; simpl; intros Hw Hc.
  - now rewrite Hc.
  - apply andb_true_iff in Hw as [Hx Hw]. rewrite Hx. simpl. auto.
Qed.

End WordsFacts.

(** ** The scanning loop on a stretch outside the protected zone *)

Section ScanFacts.
Import TokenSpec.

Lemma indices_succ (i : Z) (n : nat) :
  indices i (S n) = i :: indices (i + 1) n.
Proof.
  unfold indices. cbn [seq map]. f_equal; [lia|].
  rewrite <- seq_shift, map_map. apply map_ext. intros k. lia.
Qed.

Lemma indices_app (i : Z) (n m : nat) :
  indices i (n + m) = (indices i n ++ indices (i + Z.of_nat n) m)%list.
Proof.
  revert i. induction n as [|n IH]; intros i.
  - simpl. f_equal. lia.
  - cbn [Nat.add]. rewrite !indices_succ, IH. simpl. do 3 f_equal. lia.
Qed.

Lemma scan_stretch (lb rb : Z) (mid : string) :
  forall (pre w post : string) (result : list ParsedToken),
    spaceless w = true ->
    (forall j, JS.len pre + JS.len w <= j < JS.len pre + JS.len w + JS.len mid ->
               (lb <? j) && (j <? rb) = false) ->
    flush (pre ++ w ++ mid ++ post) (JS.len pre + JS.len w + JS.len mid)
      (fold_left (parseTokens_step (pre ++ w ++ mid ++ post) lb rb)
         (indices (JS.len pre + JS.len w) (String.length mid))
         (pending (JS.len pre) w, result))
    = (result ++ words (JS.len pre) (w ++ mid))%list.
Proof.
  induction mid as [|c mid IH]; intros pre w post result Hw Hzone.
  - cbn [String.length indices seq map fold_left flush].
    destruct w as [|x w]; cbn [pending].
    + cbn [Z.eqb negb append words]. now rewrite app_nil_r.
    + destruct (Z.eqb_spec (JS.len pre) (-1)) as [E|_]; [unfold JS.len in E; lia|].
      cbn [negb]. unfold push. f_equal.
      rewrite string_app_empty_r.
      rewrite words_single by (auto; discriminate). f_equal. f_equal.
      replace (JS.len pre + JS.len (String x w) + JS.len "")
        with (Z.of_nat (String.length pre + String.length (String x w)))
        by (unfold JS.len; cbn [String.length]; lia).
      apply (slice_middle pre (String x w) ("" ++ post)).
  - cbn [String.length]. rewrite indices_succ. cbn [fold_left].
    assert (Hstep :
      parseTokens_step (pre ++ w ++ String c mid ++ post) lb rb
        (pending (JS.len pre) w, result) (JS.len pre + JS.len w)
      = if is_space c
        then (-1, match w with
                  | EmptyString => result
                  | _ => push result (mkToken w (JS.len pre))
                  end)
        else (JS.len pre, result)).
    { unfold parseTokens_step.
      rewrite Hzone by (unfold JS.len; cbn [String.length]; lia).
      replace (pre ++ w ++ String c mid ++ post)
        with ((pre ++ w) ++ String c (mid ++ post))
        by (rewrite string_app_assoc; reflexivity).
      replace (JS.len pre + JS.len w) with (Z.of_nat (String.length (pre ++ w)))
        by (rewrite string_app_length; unfold JS.len; lia).
      rewrite isSpaceAt_here.
      destruct (is_space c) eqn:Hc.
      - destruct w as [|x w]; cbn [pending].
        + reflexivity.
        + destruct (Z.eqb_spec (JS.len pre) (-1)) as [E|_]; [unfold JS.len in E; lia|].
          cbn [negb]. do 3 f_equal.
          rewrite string_app_length.
          rewrite string_app_assoc.
          apply (slice_middle pre (String x w) (String c (mid ++ post))).
      - destruct w as [|x w]; cbn [pending].
        + simpl. rewrite string_app_empty_r. reflexivity.
        + destruct (Z.eqb_spec (JS.len pre) (-1)) as [E|_]; [unfold JS.len in E; lia|].
          reflexivity. }
    rewrite Hstep. clear Hstep.
    destruct (is_space c) eqn:Hc.
    + (* a space closes the pending run *)
      assert (Hcs : c = space) by (apply Ascii.eqb_eq; exact Hc). subst c.
      pose proof (IH (pre ++ w ++ String space "") "" post
                    (match w with
                     | EmptyString => result
                     | _ => push result (mkToken w (JS.len pre))
                     end) eq_refl) as IH'.
      cbn [pending append] in IH'.
      replace ((pre ++ w ++ String space "") ++ mid ++ post)
        with (pre ++ w ++ String space mid ++ post) in IH'
        by (rewrite !string_app_assoc; reflexivity).
      replace (JS.len (pre ++ w ++ String space "") + JS.len "")
        with (JS.len pre + JS.len w + 1) in IH'
        by (unfold JS.len; rewrite !string_app_length; simpl; lia).
      replace (JS.len pre + JS.len w + JS.len (String space mid))
        with (JS.len pre + JS.len w + 1 + JS.len mid)
        by (unfold JS.len; simpl; lia).
      rewrite IH'.
      * replace (JS.len (pre ++ w ++ String space ""))
          with (JS.len pre + JS.len w + 1)
          by (unfold JS.len; rewrite !string_app_length; simpl; lia).
        destruct w as [|x w].
        -- cbn [append words]. unfold is_space. rewrite Ascii.eqb_refl.
           unfold JS.len at 2. simpl. do 2 f_equal. lia.
        -- rewrite words_run_space by (auto; discriminate).
           unfold push. rewrite <- app_assoc. reflexivity.
      * intros j Hj. apply Hzone. unfold JS.len in *. cbn [String.length]. lia.
    + (* any other character opens or extends the pending run *)
      pose proof (IH pre (w ++ String c "") post result
                    (spaceless_snoc w c Hw Hc)) as IH'.
      replace (pending (JS.len pre) (w ++ String c "")) with (JS.len pre) in IH'
        by (destruct w; reflexivity).
      replace (pre ++ (w ++ String c "") ++ mid ++ post)
        with (pre ++ w ++ String c mid ++ post) in IH'
        by (rewrite !string_app_assoc; reflexivity).
      replace (JS.len (w ++ String c "")) with (JS.len w + 1) in IH'
        by (unfold JS.len; rewrite string_app_length; simpl; lia).
      replace (JS.len pre + JS.len w + JS.len (String c mid))
        with (JS.len pre + (JS.len w + 1) + JS.len mid)
        by (unfold JS.len; simpl; lia).
      replace (JS.len pre + JS.len w + 1) with (JS.len pre + (JS.len w + 1)) by lia.
      rewrite IH'.
      * rewrite string_app_assoc. reflexivity.
      * intros j Hj. apply Hzone. unfold JS.len in *. cbn [String.length]. lia.
Qed.

End ScanFacts.

(** ** Joining the reference words gives the normalised text *)

Section NormalizeFacts.
Import TokenSpec.

Lemma starts_with_word_not_space (s : string) :
  starts_with_word s = true -> starts_with_space s = false.
Proof. destruct s; simpl; [easy|]. now intros ->%negb_true_iff. Qed.

Lemma collapse_head (s : string) :
  starts_with_space s = false -> starts_with_space (collapse s) = false.
Proof.
  destruct s as [|c s]; simpl; [easy|]. intros Hc. now rewrite Hc.
Qed.

Lemma trim_start_id (s : string) :
  starts_with_space s = false -> trim_start s = s.
Proof. destruct s as [|c s]; simpl; [easy|]. now intros ->. Qed.

Lemma normalize_skip_space (c : ascii) (s : string) :
  is_space c = true -> normalize (String c s) = normalize s.
Proof.
  intros Hc. unfold normalize. cbn [collapse]. rewrite Hc. cbn [andb].
  destruct (starts_with_space s); [reflexivity|].
  cbn [trim_start]. now rewrite Hc.
Qed.

Lemma normalize_keep (c : ascii) (s : string) :
  is_space c = false ->
  normalize (String c s) = String c (trim_end (collapse s)).
Proof.
  intros Hc. unfold normalize. cbn [collapse trim_start trim_end].
  rewrite Hc. cbn [andb trim_start]. rewrite Hc. cbn [trim_end].
  destruct (trim_end (collapse s)); rewrite ?Hc; reflexivity.
Qed.

Lemma normalize_no_leading_space (s : string) :
  starts_with_space s = false -> normalize s = trim_end (collapse s).
Proof.
  intros H. unfold normalize. now rewrite trim_start_id by now apply collapse_head.
Qed.

Lemma trim_end_collapse_spaced (s : string) :
  starts_with_space s = true ->
  trim_end (collapse s)
  = match normalize s with EmptyString => "" | t => String space t end.
Proof.
  induction s as [|c s IH]; [discriminate|].
  cbn [starts_with_space]. intros Hc.
  rewrite (normalize_skip_space _ _ Hc).
  assert (Hcs : c = space) by (apply Ascii.eqb_eq; exact Hc). subst c.
  cbn [collapse]. rewrite Hc. cbn [andb].
  destruct (starts_with_space s) eqn:Hs.
  - now apply IH.
  - cbn [trim_end]. rewrite Hc.
    rewrite (normalize_no_leading_space _ Hs).
    destruct (trim_end (collapse s)); reflexivity.
Qed.

Lemma words_head_nonempty (off : Z) (s : string) (t : ParsedToken) ts :
  words off s = t :: ts -> token t <> "".
Proof.
  revert off. induction s as [|c s IH]; intros off; cbn [words]; [discriminate|].
  destruct (is_space c); [apply IH|].
  destruct (starts_with_word s).
  - destruct (words (off + 1) s); intros [= <- _]; discriminate.
  - intros [= <- _]; discriminate.
Qed.

Lemma join_cons_char (c : ascii) (t : string) (ts : list string) :
  JS.join " " (String c t :: ts) = String c (JS.join " " (t :: ts)).
Proof. destruct ts; reflexivity. Qed.

Lemma join_nonempty (t : string) (ts : list string) :
  t <> "" -> JS.join " " (t :: ts) <> "".
Proof.
  destruct t; [congruence|]. intros _. destruct ts; discriminate.
Qed.

Lemma join_words (s : string) :
  forall off, JS.join " " (map token (words off s)) = normalize s.
Proof.
  induction s as [|c s IH]; intros off; [reflexivity|].
  cbn [words]. destruct (is_space c) eqn:Hc.
  - rewrite (normalize_skip_space _ _ Hc). apply IH.
  - rewrite (normalize_keep _ _ Hc).
    destruct (starts_with_word s) eqn:Hs.
    + rewrite <- (normalize_no_leading_space s)
        by now apply starts_with_word_not_space.
      rewrite <- (IH (off + 1)).
      destruct (words (off + 1) s) as [|t ts]; [reflexivity|].
      cbn [map token]. apply join_cons_char.
    + cbn [map token].
      destruct s as [|c' s'].
      * reflexivity.
      * assert (Hsp : starts_with_space (String c' s') = true).
        { simpl in *. now apply negb_false_iff. }
        rewrite (trim_end_collapse_spaced _ Hsp).
        rewrite <- (IH (off + 1)).
        destruct (words (off + 1) (String c' s')) as [|t ts] eqn:Hws.
        -- reflexivity.
        -- pose proof (words_head_nonempty _ _ _ _ Hws) as Hne.
           cbn [map].
           destruct (JS.join " " (token t :: map token ts)) eqn:Hj.
           ++ exfalso. revert Hj. now apply join_nonempty.
           ++ rewrite <- Hj. reflexivity.
Qed.

Lemma words_all_spaces (s : string) :
  forall off, all_spaces s = true -> words off s = [].
Proof.
  induction s as [|c s IH]; intros off; [reflexivity|].
  simpl. intros [Hc Hs]%andb_true_iff. rewrite Hc. now apply IH.
Qed.

End NormalizeFacts.

(** ** Where the reference words sit in the text *)

Section WordsLocated.
Import TokenSpec.

Lemma located_shift (off : Z) (c : ascii) (s : string) (t : ParsedToken) :
  located (off + 1) s t -> located off (String c s) t.
Proof.
  intros (Hne & Hsp & a & b & Hs & Hcd).
  repeat split; auto. exists (String c a), b. split.
  - simpl. now rewrite <- Hs.
  - rewrite Hcd. unfold JS.len. cbn [String.length]. lia.
Qed.

Lemma words_located_aux (s : string) :
  forall off,
    (forall t, In t (words off s) -> located off s t) /\
    (starts_with_word s = true ->
     exists t ts b, words off s = t :: ts /\ characterDelta t = off /\
                    s = token t ++ b).
Proof.
  induction s as [|c s IH]; intros off.
  - split; [intros t []|discriminate].
  - destruct (IH (off + 1)) as [IHall IHhead].
    cbn [words starts_with_word].
    destruct (is_space c) eqn:Hc; cbn [negb].
    + split; [|discriminate].
      intros t Ht. apply located_shift. now apply IHall.
    + destruct (starts_with_word s) eqn:Hs.
      * destruct (IHhead eq_refl) as (t0 & ts & b & Hw & Hcd & Hsb).
        rewrite Hw in *.
        assert (Ht0 : located (off + 1) s t0) by (apply IHall; now left).
        destruct Ht0 as (Hne & Hsp & _).
        split.
        -- intros t [<-|Ht].
           ++ repeat split; cbn [token characterDelta].
              ** discriminate.
              ** cbn [spaceless]. now rewrite Hc, Hsp.
              ** exists "", b. split; [simpl; now rewrite <- Hsb|].
                 unfold JS.len. simpl. lia.
           ++ apply located_shift. apply IHall. now right.
        -- intros _. eexists _, ts, b. split; [reflexivity|].
           cbn [token characterDelta]. split; [reflexivity|].
           simpl. now rewrite <- Hsb.
      * split.
        -- intros t [<-|Ht].
           ++ repeat split; cbn [token characterDelta].
              ** discriminate.
              ** cbn [spaceless]. now rewrite Hc.
              ** exists "", s. split; [reflexivity|]. unfold JS.len; simpl; lia.
           ++ apply located_shift. now apply IHall.
        -- intros _. eexists _, _, s. split; [reflexivity|].
           cbn [token characterDelta]. split; reflexivity.
Qed.

Lemma words_located (off : Z) (s : string) (t : ParsedToken) :
  In t (words off s) -> located off s t.
Proof. apply words_located_aux. Qed.

(** A located token is what [slice] cuts out at its offset. *)
Lemma located_slice (s : string) (t : ParsedToken) :
  located 0 s t ->
  0 <= characterDelta t /\
  JS.slice s (characterDelta t) (characterDelta t + JS.len (token t)) = token t.
Proof.
  intros (_ & _ & a & b & Hs & Hcd). rewrite Hcd, Hs. split.
  - unfold JS.len. lia.
  - replace (0 + JS.len a) with (Z.of_nat (String.length a)) by (unfold JS.len; lia).
    replace (Z.of_nat (String.length a) + JS.len (token t))
      with (Z.of_nat (String.length a + String.length (token t)))
      by (unfold JS.len; lia).
    apply slice_middle.
Qed.

End WordsLocated.

(** ** Tokenizing text without bracket characters *)

Section BracketFree.
Import TokenSpec.

Lemma find_all_bracket_free (s : string) (off : Z) :
  bracket_free s = true -> InvalidPattern.find_all s off = [].
Proof.
  revert off. induction s as [|c s IH]; intros off; [reflexivity|].
  simpl. intros [Hc Hs]%andb_true_iff. apply negb_true_iff in Hc.
  rewrite Hc. now apply IH.
Qed.

Lemma bracket_free_substring (s : string) :
  forall n m, bracket_free s = true -> bracket_free (String.substring n m s) = true.
Proof.
  induction s as [|c s IH]; intros n m H.
  - destruct n, m; reflexivity.
  - simpl in H. apply andb_true_iff in H as [Hc Hs].
    destruct n as [|n]; destruct m as [|m]; simpl; auto.
    rewrite Hc. simpl. now apply IH.
Qed.

Lemma matchAll_bracket_free (lastIndex : Z) (s : string) :
  bracket_free s = true -> InvalidPattern.matchAll lastIndex s = [].
Proof.
  intros H. unfold InvalidPattern.matchAll.
  destruct (JS.len s <? lastIndex); [reflexivity|].
  apply find_all_bracket_free. now apply bracket_free_substring.
Qed.

(** With no index inside the zone the loop is the reference splitter. *)
Lemma parseTokens_no_zone (lastIndex : Z) (input : string) (lb rb : Z) :
  boundaries lastIndex input = (lb, rb) ->
  (forall j, 0 <= j < JS.len input -> (lb <? j) && (j <? rb) = false) ->
  parseTokens lastIndex input = words 0 input.
Proof.
  intros Hb Hzone. unfold parseTokens. rewrite Hb.
  pose proof (scan_stretch lb rb input "" "" "" []) as H.
  cbn [append pending] in H. rewrite string_app_empty_r in H.
  change (JS.len "") with 0 in H. cbn [Z.add] in H.
  specialize (H eq_refl Hzone).
  unfold flush in H.
  destruct (fold_left _ _ _) as [cd result]. exact H.
Qed.

Lemma parseTokens_bracket_free_words (lastIndex : Z) (input : string) :
  bracket_free input = true -> parseTokens lastIndex input = words 0 input.
Proof.
  intros H. apply (parseTokens_no_zone lastIndex input (JS.len input) (-1)).
  - unfold boundaries. now rewrite matchAll_bracket_free.
  - intros j Hj. apply andb_false_iff. left. apply Z.ltb_ge. lia.
Qed.

End BracketFree.

(** ** Tokenizing text with a protected zone *)

Section ZoneFacts.
Import TokenSpec.

Lemma length_substring (s : string) :
  forall n m, (n + m <= String.length s)%nat ->
              String.length (String.substring n m s) = m.
Proof.
  induction s as [|c s IH]; intros n m H; simpl in H.
  - assert (n = 0%nat) by lia. assert (m = 0%nat) by lia. subst. reflexivity.
  - destruct n as [|n]; destruct m as [|m]; simpl; auto.
    + f_equal. apply (IH 0%nat). lia.
    + apply IH. lia.
    + apply IH. lia.
Qed.

Lemma string_split_at (s : string) :
  forall n, (n <= String.length s)%nat ->
    s = String.substring 0 n s ++ String.substring n (String.length s - n) s.
Proof.
  induction s as [|c s IH]; intros n H; simpl in H.
  - assert (n = 0%nat) by lia. subst. reflexivity.
  - destruct n as [|n].
    + cbn [String.substring append Nat.sub String.length].
      now rewrite (substring_all s).
    + cbn [String.substring append Nat.sub String.length].
      f_equal. apply IH. lia.
Qed.

(** Splitting the text at an index. *)
Lemma slice_split (s : string) (k : Z) :
  0 <= k <= JS.len s ->
  s = JS.slice s 0 k ++ JS.slice_from s k /\ JS.len (JS.slice s 0 k) = k.
Proof.
  intros Hk. unfold JS.slice_from, JS.slice, JS.clamp, JS.len in *.
  destruct (Z.ltb_spec k 0) as [?|_]; [lia|].
  destruct (Z.ltb_spec (Z.of_nat (String.length s)) 0) as [?|_]; [lia|].
  cbn [Z.ltb Z.compare].
  rewrite !Z.min_l by lia.
  replace (Z.to_nat 0) with 0%nat by reflexivity.
  replace (Z.to_nat (k - 0)) with (Z.to_nat k) by lia.
  replace (Z.to_nat (Z.of_nat (String.length s) - k))
    with (String.length s - Z.to_nat k)%nat by lia.
  split.
  - apply string_split_at. lia.
  - rewrite length_substring by lia. lia.
Qed.

Lemma scan_zone (input : string) (lb rb : Z) (n : nat) :
  forall i result,
    (forall j, i <= j < i + Z.of_nat n -> (lb <? j) && (j <? rb) = true) ->
    fold_left (parseTokens_step input lb rb) (indices i n) (-1, result)
    = (-1, result).
Proof.
  induction n as [|n IH]; intros i result H; [reflexivity|].
  rewrite indices_succ. cbn [fold_left].
  unfold parseTokens_step at 2. rewrite H by lia.
  apply IH. intros j Hj. apply H. lia.
Qed.

Lemma step_space_flush (input : string) (lb rb i : Z) (st : ScanState) :
  isSpaceAt input i = true -> (lb <? i) && (i <? rb) = false ->
  parseTokens_step input lb rb st i = (-1, flush input i st).
Proof.
  intros Hs Hz. destruct st as [cd result]. unfold parseTokens_step, flush.
  rewrite Hz, Hs.
  destruct (Z.eqb_spec cd (-1)) as [->|_]; reflexivity.
Qed.

(** The state reached just after the left boundary. *)
Lemma scan_prefix (input : string) (lb rb : Z) :
  lb = -1 \/ (0 <= lb < JS.len input /\ isSpaceAt input lb = true) ->
  fold_left (parseTokens_step input lb rb)
            (indices 0 (Z.to_nat (lb + 1))) (-1, [])
  = (-1, words 0 (JS.slice input 0 (Z.max lb 0))).
Proof.
  intros [->|[Hlb Hsp]].
  { cbn [Z.add Z.to_nat indices seq map fold_left Z.max Z.compare Z.opp].
    now rewrite slice_empty. }
  replace (Z.to_nat (lb + 1)) with (Z.to_nat lb + 1)%nat by lia.
  rewrite indices_app, fold_left_app.
  replace (0 + Z.of_nat (Z.to_nat lb)) with lb by lia.
  cbn [indices seq map fold_left]. rewrite Z.add_0_r.
  rewrite step_space_flush; auto.
  2:{ apply andb_false_iff. left. apply Z.ltb_ge. lia. }
  f_equal. rewrite Z.max_l by lia.
  destruct (slice_split input lb ltac:(lia)) as [Hsplit Hlen].
  pose proof (scan_stretch lb rb (JS.slice input 0 lb) "" ""
                (JS.slice_from input lb) []) as H.
  cbn [append pending] in H. change (JS.len "") with 0 in H.
  cbn [Z.add] in H. rewrite <- Hsplit, Hlen in H.
  replace (String.length (JS.slice input 0 lb)) with (Z.to_nat lb) in H
    by (unfold JS.len in Hlen; lia).
  apply H; [reflexivity|].
  intros j Hj. apply andb_false_iff. left. apply Z.ltb_ge. lia.
Qed.

Lemma parseTokens_with_zone (lastIndex : Z) (input : string) (lb rb : Z) :
  boundaries lastIndex input = (lb, rb) ->
  lb = -1 \/ (0 <= lb < JS.len input /\ isSpaceAt input lb = true) ->
  lb < rb <= JS.len input ->
  parseTokens lastIndex input
  = (words 0 (JS.slice input 0 (Z.max lb 0)) ++ words rb (JS.slice_from input rb))%list.
Proof.
  intros Hb Hlb Hrb. unfold parseTokens. rewrite Hb.
  assert (Hlb' : -1 <= lb) by (destruct Hlb; lia).
  replace (String.length input)
    with (Z.to_nat (lb + 1) + (Z.to_nat (rb - lb - 1) + Z.to_nat (JS.len input - rb)))%nat
    by (unfold JS.len in *; lia).
  rewrite !indices_app, !fold_left_app.
  rewrite scan_prefix by exact Hlb.
  rewrite scan_zone.
  2:{ intros j Hj. apply andb_true_iff. split; apply Z.ltb_lt; lia. }
  replace (0 + Z.of_nat (Z.to_nat (lb + 1)) + Z.of_nat (Z.to_nat (rb - lb - 1)))
    with rb by lia.
  destruct (slice_split input rb ltac:(lia)) as [Hsplit Hlen].
  pose proof (scan_stretch lb rb (JS.slice_from input rb) (JS.slice input 0 rb) "" ""
                (words 0 (JS.slice input 0 (Z.max lb 0)))) as H.
  cbn [append pending] in H. change (JS.len "") with 0 in H.
  rewrite string_app_empty_r, Z.add_0_r in H.
  rewrite <- Hsplit, Hlen in H.
  replace (String.length (JS.slice_from input rb)) with (Z.to_nat (JS.len input - rb)) in H.
  2:{ apply (f_equal String.length) in Hsplit. rewrite string_app_length in Hsplit.
      unfold JS.len in *. lia. }
  replace (rb + JS.len (JS.slice_from input rb)) with (JS.len input) in H.
  2:{ apply (f_equal String.length) in Hsplit. rewrite string_app_length in Hsplit.
      unfold JS.len in *. lia. }
  unfold flush in H.
  destruct (fold_left _ _ _) as [cd result].
  apply H; [reflexivity|].
  intros j Hj. apply andb_false_iff. right. apply Z.ltb_ge. lia.
Qed.

End ZoneFacts.

(** ** The boundaries computed by the code are those of the description *)

Section BoundaryFacts.
Import TokenSpec ZoneSpec.

Lemma get_none_beyond (s : string) :
  forall n, (String.length s <= n)%nat -> String.get n s = None.
Proof.
  induction s as [|c s IH]; intros n H; [destruct n; reflexivity|].
  destruct n as [|n]; simpl in *; [lia|]. apply IH. lia.
Qed.

Lemma get_some_within (s : string) :
  forall n c, String.get n s = Some c -> (n < String.length s)%nat.
Proof.
  intros n c H. destruct (Nat.lt_ge_cases n (String.length s)) as [|Hge]; auto.
  rewrite get_none_beyond in H by exact Hge. discriminate.
Qed.

Lemma get_substring (s : string) :
  forall n m j, (j < m)%nat ->
    String.get j (String.substring n m s) = String.get (n + j) s.
Proof.
  induction s as [|c s IH]; intros n m j Hj.
  - destruct n, m; destruct j; reflexivity.
  - destruct n as [|n]; destruct m as [|m]; try lia.
    + destruct j as [|j]; simpl; [reflexivity|]. apply (IH 0%nat). lia.
    + simpl. apply IH. lia.
Qed.

Lemma char_at_nat (s : string) (n : nat) :
  char_at s (Z.of_nat n) = String.get n s.
Proof.
  unfold char_at. destruct (Z.ltb_spec (Z.of_nat n) 0); [lia|].
  now rewrite Nat2Z.id.
Qed.

Lemma char_at_some (s : string) (j : Z) (c : ascii) :
  char_at s j = Some c -> 0 <= j < JS.len s.
Proof.
  unfold char_at, JS.len. destruct (Z.ltb_spec j 0); [discriminate|].
  intros Hg%get_some_within. lia.
Qed.

Lemma space_at_isSpaceAt (s : string) (j : Z) :
  space_at s j -> isSpaceAt s j = true.
Proof.
  unfold space_at, char_at, isSpaceAt, JS.charCodeAt.
  destruct (j <? 0); [discriminate|]. intros ->. reflexivity.
Qed.

Lemma space_not_bracket (s : string) (j : Z) :
  space_at s j -> ~ bracket_at s j.
Proof.
  intros H (c & Hc & Hm). unfold space_at in H. rewrite H in Hc.
  injection Hc as <-. discriminate.
Qed.

(** *** [find_all] *)

Lemma find_all_in (s : string) :
  forall off x,
    In x (InvalidPattern.find_all s off) <->
    exists n c, x = off + Z.of_nat n /\ String.get n s = Some c /\
                InvalidPattern.matches_char c = true.
Proof.
  induction s as [|c s IH]; intros off x; cbn [InvalidPattern.find_all].
  - split; [intros []|]. intros (n & c & _ & H & _). destruct n; discriminate.
  - assert (Htail : In x (InvalidPattern.find_all s (off + 1)) <->
                    exists n c', x = off + Z.of_nat (S n) /\
                                 String.get n s = Some c' /\
                                 InvalidPattern.matches_char c' = true).
    { rewrite IH. split; intros (n & c' & Hx & H); exists n, c';
        (split; [lia | exact H]). }
    destruct (InvalidPattern.matches_char c) eqn:Hc; cbn [In]; rewrite Htail.
    + split.
      * intros [<-|(n & c' & Hx & H)].
        -- exists 0%nat, c. repeat split; auto. lia.
        -- exists (S n), c'. auto.
      * intros ([|n] & c' & Hx & Hg & Hm).
        -- left. lia.
        -- right. exists n, c'. auto.
    + split.
      * intros (n & c' & Hx & H). exists (S n), c'. auto.
      * intros ([|n] & c' & Hx & Hg & Hm).
        -- simpl in Hg. injection Hg as <-. congruence.
        -- exists n, c'. auto.
Qed.

Lemma find_all_lower (s : string) (off x : Z) :
  In x (InvalidPattern.find_all s off) -> off <= x.
Proof. intros (n & c & -> & _)%find_all_in. lia. Qed.

Lemma find_all_head_least (s : string) :
  forall off p tl x,
    InvalidPattern.find_all s off = p :: tl -> In x tl -> p < x.
Proof.
  induction s as [|c s IH]; intros off p tl x; cbn [InvalidPattern.find_all];
    [discriminate|].
  destruct (InvalidPattern.matches_char c).
  - intros [= <- <-] Hx. apply find_all_lower in Hx. lia.
  - apply IH.
Qed.

Lemma find_all_last_greatest (s : string) :
  forall off d x,
    In x (InvalidPattern.find_all s off) ->
    x <= last (InvalidPattern.find_all s off) d.
Proof.
  induction s as [|c s IH]; intros off d x; cbn [InvalidPattern.find_all];
    [intros []|].
  assert (Hcons : forall y, In x (y :: InvalidPattern.find_all s (off + 1)) ->
                            y <= off ->
                            x <= last (y :: InvalidPattern.find_all s (off + 1)) d).
  { intros y [<-|Hx] Hy.
    - destruct (InvalidPattern.find_all s (off + 1)) as [|z tl] eqn:E.
      + simpl. lia.
      + transitivity z.
        * assert (In z (InvalidPattern.find_all s (off + 1))) by (rewrite E; now left).
          apply find_all_lower in H. lia.
        * change (last (y :: z :: tl) d) with (last (z :: tl) d).
          rewrite <- E. apply IH. rewrite E. now left.
    - destruct (InvalidPattern.find_all s (off + 1)) as [|z tl] eqn:E; [destruct Hx|].
      change (last (y :: z :: tl) d) with (last (z :: tl) d).
      rewrite <- E. apply IH. now rewrite E. }
  destruct (InvalidPattern.matches_char c).
  - intros Hx. apply Hcons; [exact Hx | lia].
  - apply IH.
Qed.

Lemma last_in {A : Type} (l : list A) (d : A) : l <> [] -> In (last l d) l.
Proof.
  induction l as [|a l IH]; [congruence|]. intros _.
  destruct l as [|b l]; [now left|]. right. apply IH. discriminate.
Qed.

Lemma matchAll_fresh (input : string) :
  InvalidPattern.matchAll 0 input = InvalidPattern.find_all input 0.
Proof.
  unfold InvalidPattern.matchAll.
  destruct (Z.ltb_spec (JS.len input) 0) as [H|_]; [unfold JS.len in H; lia|].
  f_equal. apply (slice_from_tail "" input).
Qed.

Lemma bracket_at_in (input : string) (j : Z) :
  bracket_at input j <-> In j (InvalidPattern.find_all input 0).
Proof.
  rewrite find_all_in. split.
  - intros (c & Hc & Hm). pose proof (char_at_some _ _ _ Hc) as Hj.
    exists (Z.to_nat j), c. repeat split; auto; [lia|].
    rewrite <- char_at_nat. now rewrite Z2Nat.id by lia.
  - intros (n & c & -> & Hg & Hm). exists c. split; auto.
    cbn [Z.add]. now rewrite char_at_nat.
Qed.

Lemma find_all_nonempty (s : string) (off : Z) :
  bracket_free s = false -> InvalidPattern.find_all s off <> [].
Proof.
  revert off. induction s as [|c s IH]; intros off; [discriminate|].
  simpl. destruct (InvalidPattern.matches_char c); [discriminate|].
  simpl. apply IH.
Qed.

End BoundaryFacts.

Section BoundarySearch.
Import TokenSpec ZoneSpec.

Lemma rfind_char_spec (c : ascii) (s : string) (k : nat) :
  (JS.rfind_char c s k = -1 \/
   (0 <= JS.rfind_char c s k <= Z.of_nat k /\
    char_at s (JS.rfind_char c s k) = Some c)) /\
  forall j, JS.rfind_char c s k < j <= Z.of_nat k -> char_at s j <> Some c.
Proof.
  induction k as [|k IH]; cbn [JS.rfind_char].
  - pose proof (char_at_nat s 0) as E0. cbn [Z.of_nat] in E0.
    destruct (String.get 0 s) as [c'|] eqn:Hg.
    + destruct (Ascii.eqb_spec c' c) as [->|Hne].
      * cbn [Z.of_nat]. split; [right; split; [lia|exact E0]|]. intros j Hj. lia.
      * split; [now left|]. intros j Hj. assert (j = 0) by lia. subst j.
        rewrite E0. congruence.
    + split; [now left|]. intros j Hj. assert (j = 0) by lia. subst j.
      rewrite E0. discriminate.
  - destruct IH as [IH1 IH2].
    assert (Hrec :
      String.get (S k) s <> Some c ->
      (JS.rfind_char c s k = -1 \/
       (0 <= JS.rfind_char c s k <= Z.of_nat (S k) /\
        char_at s (JS.rfind_char c s k) = Some c)) /\
      forall j, JS.rfind_char c s k < j <= Z.of_nat (S k) -> char_at s j <> Some c).
    { intros Hne. split.
      - destruct IH1 as [->|[Hr Hc]]; [now left|right; split; [lia|exact Hc]].
      - intros j Hj. destruct (Z.eq_dec j (Z.of_nat (S k))) as [->|Hjk].
        + now rewrite char_at_nat.
        + apply IH2. lia. }
    destruct (String.get (S k) s) as [c'|] eqn:Hg.
    + destruct (Ascii.eqb_spec c' c) as [->|Hne].
      * split; [right; split; [lia|]; now rewrite char_at_nat|]. intros j Hj. lia.
      * apply Hrec. congruence.
    + apply Hrec. discriminate.
Qed.

Lemma find_char_spec (c : ascii) (s : string) :
  forall off,
    (JS.find_char c s off = -1 /\ forall n, String.get n s <> Some c) \/
    (exists n, JS.find_char c s off = off + Z.of_nat n /\
               String.get n s = Some c /\
               forall j, (j < n)%nat -> String.get j s <> Some c).
Proof.
  induction s as [|c' s IH]; intros off; cbn [JS.find_char].
  - left. split; [reflexivity|]. intros [|n]; discriminate.
  - destruct (Ascii.eqb_spec c' c) as [->|Hne].
    + right. exists 0%nat. repeat split; [lia|]. intros j Hj. lia.
    + destruct (IH (off + 1)) as [[Hr Hall]|(n & Hr & Hg & Hmin)].
      * left. split; [exact Hr|]. intros [|n]; simpl; [congruence|apply Hall].
      * right. exists (S n). repeat split; [lia|exact Hg|].
        intros [|j] Hj; simpl; [congruence|]. apply Hmin. lia.
Qed.

Lemma slice_from_get (s : string) (q : Z) (j : nat) :
  0 <= q <= JS.len s ->
  String.get j (JS.slice_from s q) = char_at s (q + Z.of_nat j).
Proof.
  intros Hq. destruct (slice_split s q Hq) as [Hsplit Hlen].
  replace (q + Z.of_nat j) with (Z.of_nat (Z.to_nat q + j)) by lia.
  rewrite char_at_nat.
  unfold JS.slice_from, JS.slice, JS.clamp, JS.len in *.
  destruct (Z.ltb_spec q 0) as [?|_]; [lia|].
  destruct (Z.ltb_spec (Z.of_nat (String.length s)) 0) as [?|_]; [lia|].
  rewrite !Z.min_l by lia.
  destruct (Nat.lt_ge_cases j (Z.to_nat (Z.of_nat (String.length s) - q))) as [Hj|Hj].
  - now apply get_substring.
  - rewrite !get_none_beyond; auto; [lia|].
    rewrite length_substring by lia. exact Hj.
Qed.

(** The left boundary is the last space at or before [p], or [-1]. *)
Lemma lastIndexOf_left_boundary (input : string) (p : Z) :
  0 <= p < JS.len input ->
  left_boundary input p (JS.lastIndexOf input space p).
Proof.
  intros Hp. unfold JS.lastIndexOf.
  rewrite Z.max_l, Z.min_l by lia.
  destruct (Z.ltb_spec p 0) as [?|_]; [lia|].
  destruct (rfind_char_spec space input (Z.to_nat p)) as [H1 H2].
  rewrite Z2Nat.id in * by lia. split.
  - destruct H1 as [->|[Hr Hc]]; [now left|]. right. split; [exact Hc|lia].
  - intros j Hj. now apply H2.
Qed.

(** The right boundary is the first space at or after [q], or the end. *)
Lemma indexOf_right_boundary (input : string) (q : Z) :
  0 <= q < JS.len input ->
  right_boundary input q
    (if JS.indexOf input space q =? -1 then JS.len input
     else JS.indexOf input space q).
Proof.
  intros Hq. unfold JS.indexOf.
  rewrite Z.max_l, Z.min_l by lia.
  assert (Hget : forall j, String.get j (JS.slice_from input q)
                           = char_at input (q + Z.of_nat j))
    by (intros j; apply slice_from_get; lia).
  destruct (find_char_spec space (JS.slice_from input q) q)
    as [[-> Hall]|(n & -> & Hg & Hmin)].
  - cbn [Z.eqb]. split; [now left|].
    intros j Hj. unfold space_at.
    replace j with (q + Z.of_nat (Z.to_nat (j - q))) by lia.
    rewrite <- Hget. apply Hall.
  - destruct (Z.eqb_spec (q + Z.of_nat n) (-1)) as [?|_]; [lia|].
    split.
    + right. split; [|lia]. unfold space_at. now rewrite <- Hget.
    + intros j Hj. unfold space_at.
      replace j with (q + Z.of_nat (Z.to_nat (j - q))) by lia.
      rewrite <- Hget. apply Hmin. lia.
Qed.

End BoundarySearch.

Section ZoneTheorem.
Import TokenSpec ZoneSpec.

Lemma located_bounds (off : Z) (s : string) (t : ParsedToken) :
  located off s t ->
  off <= characterDelta t /\
  characterDelta t + JS.len (token t) <= off + JS.len s.
Proof.
  intros (_ & _ & a & b & -> & ->). unfold JS.len.
  rewrite !string_app_length. lia.
Qed.

Lemma boundaries_fresh (input : string) :
  bracket_free input = false ->
  exists p q,
    first_bracket input p /\ last_bracket input q /\ p <= q /\
    boundaries 0 input
    = (JS.lastIndexOf input space p,
       if JS.indexOf input space q =? -1 then JS.len input
       else JS.indexOf input space q).
Proof.
  intros Hb. unfold boundaries. rewrite matchAll_fresh.
  pose proof (find_all_nonempty input 0 Hb) as Hne.
  destruct (InvalidPattern.find_all input 0) as [|p tl] eqn:E; [congruence|].
  exists p, (last (p :: tl) p).
  assert (Hp : In p (p :: tl)) by now left.
  assert (Hq : In (last (p :: tl) p) (p :: tl)) by (apply last_in; discriminate).
  assert (Hmax : forall j, In j (p :: tl) -> j <= last (p :: tl) p).
  { intros j Hj. rewrite <- E in *. now apply find_all_last_greatest. }
  split; [|split; [|split]].
  - split; [apply bracket_at_in; now rewrite E|].
    intros j Hj Hbr%bracket_at_in. rewrite E in Hbr.
    destruct Hbr as [<-|Hbr]; [lia|].
    pose proof (find_all_head_least input 0 p tl j E Hbr). lia.
  - split; [apply bracket_at_in; now rewrite E|].
    intros j Hj Hbr%bracket_at_in. rewrite E in Hbr.
    apply Hmax in Hbr. lia.
  - now apply Hmax.
  - reflexivity.
Qed.

End ZoneTheorem.

(** C1 (amended). For an input with at least one of the characters
    ()[]<>{}, tokenized while the shared pattern is at rest
    ([lastIndex = 0]): with [p] and [q] the positions of the first and the
    last such character, the left boundary [lb] is the position of the last
    space at or before [p] (or [-1]), the right boundary [rb] is the
    position of the first space at or after [q] (or the length of the
    input); the tokens are the space-separated words of the text before
    [lb] followed by those of the text from [rb] on, each with its offset
    in the input; nothing strictly between the boundaries is split or
    emitted: no token reaches into the zone. *)
Theorem parseTokens_zone (input : string) :
  TokenSpec.bracket_free input = false ->
  exists p q lb rb,
    ZoneSpec.first_bracket input p /\ ZoneSpec.last_bracket input q /\
    ZoneSpec.left_boundary input p lb /\ ZoneSpec.right_boundary input q rb /\
    boundaries 0 input = (lb, rb) /\
    parseTokens 0 input
    = (TokenSpec.words 0 (JS.slice input 0 (Z.max lb 0))
       ++ TokenSpec.words rb (JS.slice_from input rb))%list /\
    forall t, In t (parseTokens 0 input) ->
      token t <> "" /\
      (characterDelta t + JS.len (token t) <= lb \/ rb <= characterDelta t).
Proof.
  intros Hb.
  destruct (boundaries_fresh input Hb) as (p & q & Hp & Hq & Hpq & Hbd).
  assert (Hpr : 0 <= p < JS.len input).
  { destruct Hp as [(c & Hc & _) _]. now apply char_at_some in Hc. }
  assert (Hqr : 0 <= q < JS.len input).
  { destruct Hq as [(c & Hc & _) _]. now apply char_at_some in Hc. }
  pose proof (lastIndexOf_left_boundary input p Hpr) as Hlb.
  pose proof (indexOf_right_boundary input q Hqr) as Hrb.
  set (lb := JS.lastIndexOf input space p) in *.
  set (rb := if JS.indexOf input space q =? -1 then JS.len input
             else JS.indexOf input space q) in *.
  assert (Hlb' : lb = -1 \/ (0 <= lb < JS.len input /\ isSpaceAt input lb = true)).
  { destruct Hlb as [[->|[Hs Hle]] _]; [now left|]. right. split.
    - now apply char_at_some in Hs.
    - now apply space_at_isSpaceAt. }
  assert (Hlt : lb < p).
  { destruct Hlb as [[->|[Hs Hle]] _]; [lia|].
    destruct (Z.eq_dec lb p) as [E|]; [|lia].
    exfalso. apply (space_not_bracket _ _ Hs). rewrite E. apply Hp. }
  assert (Hrange : q <= rb <= JS.len input).
  { destruct Hrb as [[->|[Hs Hle]] _]; [lia|].
    apply char_at_some in Hs. lia. }
  pose proof (parseTokens_with_zone 0 input lb rb Hbd Hlb' ltac:(lia)) as Heq.
  exists p, q, lb, rb. repeat (split; [assumption|]).
  intros t. rewrite Heq. intros [Ht|Ht]%in_app_iff.
  - apply words_located in Ht. pose proof (located_bounds _ _ _ Ht) as [Hge Hle].
    destruct Ht as (Hne & _). split; [exact Hne|]. left.
    destruct Hlb' as [->|[Hr _]].
    + cbn [Z.max Z.compare Z.opp] in Hle. rewrite slice_empty in Hle.
      exfalso. apply Hne.
      destruct (token t); [reflexivity|]. unfold JS.len in Hle. simpl in Hle. lia.
    + rewrite Z.max_l in Hle by lia.
      destruct (slice_split input lb ltac:(lia)) as [_ Hlen]. lia.
  - apply words_located in Ht. pose proof (located_bounds _ _ _ Ht) as [Hge _].
    destruct Ht as (Hne & _). split; [exact Hne|]. now right.
Qed.

Lemma parseTokens_zone_witness :
  exists lb rb,
    boundaries 0 "foo bar(baz) qux" = (lb, rb) /\
    parseTokens 0 "foo bar(baz) qux"
    = (TokenSpec.words 0 (JS.slice "foo bar(baz) qux" 0 (Z.max lb 0))
       ++ TokenSpec.words rb (JS.slice_from "foo bar(baz) qux" rb))%list.
Proof.
  destruct (parseTokens_zone "foo bar(baz) qux" eq_refl)
    as (p & q & lb & rb & _ & _ & _ & _ & Hb & Heq & _).
  exists lb, rb. split; [exact Hb | exact Heq].
Defined.

(** C1, as stated, fails: in ["a (b c) d"] the first bracket sits at
    position 2, and no token covers it; the text ["(b c)"] is dropped. *)
Lemma bracket_run_not_emitted : ~ bracket_run_emitted "a (b c) d".
Proof.
  intros H. destruct (H 2) as (t & Ht & Hcov).
  - split.
    + exists "("%char. split; reflexivity.
    + intros j Hj (c & Hc & Hm).
      destruct (Z.eq_dec j 0) as [->|]; [simpl in Hc; injection Hc as <-; discriminate|].
      destruct (Z.eq_dec j 1) as [->|]; [simpl in Hc; injection Hc as <-; discriminate|].
      unfold ZoneSpec.char_at in Hc. destruct (Z.ltb_spec j 0); [discriminate|lia].
  - change (parseTokens 0 "a (b c) d") with [mkToken "a" 0; mkToken "d" 8] in Ht.
    destruct Ht as [<-|[<-|[]]]; cbn in Hcov; lia.
Qed.

(** ** Attribute-name classification *)

Section Classification.
Import Grammar.

Lemma prefix_split (p s : string) :
  String.prefix p s = true -> exists r, s = p ++ r.
Proof.
  revert s. induction p as [|c p IH]; intros s H.
  - exists s. reflexivity.
  - destruct s as [|c' s]; [discriminate|]. simpl in H.
    destruct (Ascii.ascii_dec c c') as [<-|]; [|discriminate].
    destruct (IH s H) as [r ->]. exists r. reflexivity.
Qed.

Lemma prefix_app (p r : string) : String.prefix p (p ++ r) = true.
Proof.
  induction p as [|c p IH]; simpl; [now destruct r|].
  destruct (Ascii.ascii_dec c c); [exact IH|congruence].
Qed.

Lemma isEventDefinition_inv (name : string) :
  isEventDefinition name = true ->
  exists r, name = "on:" ++ r \/ name = "x-on:" ++ r.
Proof.
  unfold isEventDefinition, JS.startsWith.
  intros [H|H]%orb_true_iff; apply prefix_split in H as [r ->]; eauto.
Qed.

Lemma isStateDefinition_inv (name : string) :
  isStateDefinition name = true ->
  exists r, name = "if:" ++ r \/ name = "x-if:" ++ r.
Proof.
  unfold isStateDefinition, JS.startsWith.
  intros [H|H]%orb_true_iff; apply prefix_split in H as [r ->]; eauto.
Qed.

Lemma isEventReference_inv (name : string) :
  isEventReference name = true ->
  name = "on" \/ name = "x-on" \/ name = "reset" \/ name = "x-reset".
Proof.
  unfold isEventReference. rewrite !orb_true_iff, !String.eqb_eq. tauto.
Qed.

Lemma isStateReference_inv (name : string) :
  isStateReference name = true -> name = "if" \/ name = "x-if".
Proof.
  unfold isStateReference. rewrite !orb_true_iff, !String.eqb_eq. tauto.
Qed.

Lemma isResultDefinition_inv (name : string) :
  isResultDefinition name = true ->
  name = "result" \/ name = "x-result" \/ name = "error" \/ name = "x-error".
Proof.
  unfold isResultDefinition. rewrite !orb_true_iff, !String.eqb_eq. tauto.
Qed.

Lemma isResultReference_inv (name : string) :
  isResultReference name = true -> name = "render" \/ name = "x-render".
Proof.
  unfold isResultReference. rewrite !orb_true_iff, !String.eqb_eq. tauto.
Qed.

(** Each classifier accepts only names of its row of the table. *)
Lemma classifiers_sound (name : string) :
  (isEventDefinition name = true -> in_grammar name event definition) /\
  (isEventReference name = true -> in_grammar name event reference) /\
  (isStateDefinition name = true -> in_grammar name state definition) /\
  (isStateReference name = true -> in_grammar name state reference) /\
  (isResultDefinition name = true -> in_grammar name result definition) /\
  (isResultReference name = true -> in_grammar name result reference).
Proof.
  repeat split.
  - intros (r & [->| ->])%isEventDefinition_inv.
    + apply plain, row_on_def.
    + apply (prefixed ("on:" ++ r)), row_on_def.
  - intros [->|[->|[->| ->]]]%isEventReference_inv.
    + apply plain, row_on.
    + apply (prefixed "on"), row_on.
    + apply plain, row_reset.
    + apply (prefixed "reset"), row_reset.
  - intros (r & [->| ->])%isStateDefinition_inv.
    + apply plain, row_if_def.
    + apply (prefixed ("if:" ++ r)), row_if_def.
  - intros [->| ->]%isStateReference_inv.
    + apply plain, row_if.
    + apply (prefixed "if"), row_if.
  - intros [->|[->|[->| ->]]]%isResultDefinition_inv.
    + apply plain, row_result.
    + apply (prefixed "result"), row_result.
    + apply plain, row_error.
    + apply (prefixed "error"), row_error.
  - intros [->| ->]%isResultReference_inv.
    + apply plain, row_render.
    + apply (prefixed "render"), row_render.
Qed.

(** Each name of the table is accepted by the classifier of its row. *)
Lemma classifiers_complete (name : string) (k : Kind) (r : Role) :
  in_grammar name k r ->
  match k, r with
  | event, definition => isEventDefinition name
  | event, reference => isEventReference name
  | state, definition => isStateDefinition name
  | state, reference => isStateReference name
  | result, definition => isResultDefinition name
  | result, reference => isResultReference name
  end = true.
Proof.
  intros [n k' r' H | n k' r' H]; destruct H; try reflexivity;
    unfold isEventDefinition, isStateDefinition, JS.startsWith.
  - now rewrite (prefix_app "on:" evt).
  - now rewrite (prefix_app "if:" s).
  - pose proof (prefix_app "x-on:" evt) as P. cbn [append] in *.
    rewrite P. apply orb_true_r.
  - pose proof (prefix_app "x-if:" s) as P. cbn [append] in *.
    rewrite P. apply orb_true_r.
Qed.

End Classification.

(** C7. The six attribute-name classifiers are pairwise disjoint, in that
    no name satisfies more than one of them, and a name that matches no row
    of the classification table satisfies none. *)
Theorem classifiers_disjoint (name : string) :
  (Grammar.count_true (Grammar.classifiers name) <= 1)%nat /\
  ((forall k r, ~ Grammar.in_grammar name k r) ->
   Grammar.count_true (Grammar.classifiers name) = 0%nat).
Proof.
  split.
  - unfold Grammar.classifiers.
    destruct (isEventReference name) eqn:E1.
    { apply isEventReference_inv in E1 as [->|[->|[->| ->]]]; cbn; lia. }
    destruct (isStateReference name) eqn:E2.
    { apply isStateReference_inv in E2 as [->| ->]; cbn; lia. }
    destruct (isResultDefinition name) eqn:E3.
    { apply isResultDefinition_inv in E3 as [->|[->|[->| ->]]]; cbn; lia. }
    destruct (isResultReference name) eqn:E4.
    { apply isResultReference_inv in E4 as [->| ->]; cbn; lia. }
    destruct (isEventDefinition name) eqn:E5.
    { apply isEventDefinition_inv in E5 as (r & [->| ->]); cbn; lia. }
    destruct (isStateDefinition name); cbn; lia.
  - intros Hout.
    destruct (classifiers_sound name) as (H1 & H2 & H3 & H4 & H5 & H6).
    unfold Grammar.classifiers.
    destruct (isEventDefinition name); [exfalso; eapply Hout; eauto|].
    destruct (isEventReference name); [exfalso; eapply Hout; eauto|].
    destruct (isStateDefinition name); [exfalso; eapply Hout; eauto|].
    destruct (isStateReference name); [exfalso; eapply Hout; eauto|].
    destruct (isResultDefinition name); [exfalso; eapply Hout; eauto|].
    destruct (isResultReference name); [exfalso; eapply Hout; eauto|].
    reflexivity.
Qed.

Lemma classifiers_disjoint_witness :
  Grammar.count_true (Grammar.classifiers "class") = 0%nat.
Proof.
  apply (classifiers_disjoint "class").
  intros k r H.
  inversion H as [n k' r' Hrow | n k' r' Hrow]; inversion Hrow.
Defined.

(** ** Insertion-ordered maps *)

Section JSMapFacts.
Context {V : Type}.
Implicit Types (m : JSMap.t V) (k : string) (v : V).

Lemma get_set_same m k v : JSMap.get (JSMap.set m k v) k = Some v.
Proof.
  induction m as [|[k' v'] m IH]; simpl.
  - now rewrite String.eqb_refl.
  - destruct (String.eqb_spec k' k) as [->|Hne]; simpl.
    + now rewrite String.eqb_refl.
    + destruct (String.eqb_spec k' k); [contradiction|exact IH].
Qed.

Lemma get_set_other m k k0 v :
  k0 <> k -> JSMap.get (JSMap.set m k v) k0 = JSMap.get m k0.
Proof.
  intros Hne. induction m as [|[k' v'] m IH]; simpl.
  - destruct (String.eqb_spec k k0); [congruence|reflexivity].
  - destruct (String.eqb_spec k' k) as [->|Hk]; simpl.
    + destruct (String.eqb_spec k k0); [congruence|reflexivity].
    + destruct (String.eqb_spec k' k0); [reflexivity|exact IH].
Qed.

Lemma get_none_not_in m k : JSMap.get m k = None <-> ~ In k (JSMap.keys m).
Proof.
  induction m as [|[k' v'] m IH]; simpl.
  - tauto.
  - destruct (String.eqb_spec k' k) as [->|Hne].
    + split; [discriminate|]. intros H. exfalso. apply H. now left.
    + rewrite IH. tauto.
Qed.

Lemma get_some_in m k v : JSMap.get m k = Some v -> In (k, v) m.
Proof.
  induction m as [|[k' v'] m IH]; simpl; [discriminate|].
  destruct (String.eqb_spec k' k) as [->|Hne].
  - intros [= ->]. now left.
  - intros H. right. now apply IH.
Qed.

Lemma in_get_wf m k v : JSMap.wf m -> In (k, v) m -> JSMap.get m k = Some v.
Proof.
  unfold JSMap.wf. induction m as [|[k' v'] m IH]; simpl; [intros _ []|].
  intros Hnd [[= -> ->]|Hin].
  - now rewrite String.eqb_refl.
  - inversion Hnd as [|? ? Hnotin Hnd']; subst.
    destruct (String.eqb_spec k' k) as [->|Hne].
    + exfalso. apply Hnotin. change k with (fst (k, v)). now apply in_map.
    + now apply IH.
Qed.

Lemma keys_set m k v :
  JSMap.keys (JSMap.set m k v)
  = if JSMap.has m k then JSMap.keys m else (JSMap.keys m ++ [k])%list.
Proof.
  unfold JSMap.has. induction m as [|[k' v'] m IH]; simpl; [reflexivity|].
  destruct (String.eqb_spec k' k) as [->|Hne]; simpl; [reflexivity|].
  rewrite IH. now destruct (JSMap.get m k).
Qed.

Lemma set_wf m k v : JSMap.wf m -> JSMap.wf (JSMap.set m k v).
Proof.
  unfold JSMap.wf. intros Hnd. rewrite keys_set. unfold JSMap.has.
  destruct (JSMap.get m k) eqn:E; [exact Hnd|].
  apply get_none_not_in in E.
  apply NoDup_app; [exact Hnd|repeat constructor; intros []|].
  intros x Hx [<-|[]]. contradiction.
Qed.

Lemma keys_delete_incl m k x :
  In x (JSMap.keys (JSMap.delete m k)) -> In x (JSMap.keys m).
Proof.
  induction m as [|[k' v'] m IH]; simpl; [tauto|].
  destruct (String.eqb k' k); simpl; tauto.
Qed.

Lemma delete_wf m k : JSMap.wf m -> JSMap.wf (JSMap.delete m k).
Proof.
  unfold JSMap.wf. induction m as [|[k' v'] m IH]; simpl; [auto|].
  intros Hnd. inversion Hnd as [|? ? Hnotin Hnd']; subst.
  destruct (String.eqb k' k); [exact Hnd'|]. simpl. constructor.
  - intros Hin. apply Hnotin. eapply keys_delete_incl. exact Hin.
  - now apply IH.
Qed.

Lemma get_delete_same m k : JSMap.wf m -> JSMap.get (JSMap.delete m k) k = None.
Proof.
  unfold JSMap.wf. induction m as [|[k' v'] m IH]; simpl; [auto|].
  intros Hnd. inversion Hnd as [|? ? Hnotin Hnd']; subst.
  destruct (String.eqb_spec k' k) as [->|Hne].
  - now apply get_none_not_in.
  - simpl. destruct (String.eqb_spec k' k); [contradiction|]. now apply IH.
Qed.

Lemma get_delete_other m k k0 :
  k0 <> k -> JSMap.get (JSMap.delete m k) k0 = JSMap.get m k0.
Proof.
  intros Hne. induction m as [|[k' v'] m IH]; simpl; [reflexivity|].
  destruct (String.eqb_spec k' k) as [->|Hk]; simpl.
  - destruct (String.eqb_spec k k0); [congruence|reflexivity].
  - destruct (String.eqb_spec k' k0); [reflexivity|exact IH].
Qed.

End JSMapFacts.

(** ** Workspace table *)

(** The table keeps one entry per identity when a document is added or
    replaced. *)
Lemma setDocs_wf
    (service_parseHTMLDocument : LSTextDocument -> HTMLDocument)
    (parseNodeAttrs : LSTextDocument -> Node -> list Attr)
    (matchesGlob : string -> string -> bool)
    (w : World) (d : TextDocument) (overwrite : bool) :
  JSMap.wf (w_docs w) ->
  JSMap.wf (w_docs (setDocs service_parseHTMLDocument parseNodeAttrs matchesGlob
                      w d overwrite)).
Proof.
  intros H. unfold setDocs.
  destruct (negb (Bool.eqb _ _)); [exact H|].
  destruct (_ || _); [exact H|].
  destruct (parseHTMLDocument _ _ _ _ _) as [parsed li]. cbn [w_docs].
  now apply set_wf.
Qed.

(** C10. A document-created notification for an identity that already has
    an entry, and a document-changed notification for an identity that has
    none, leave everything as it was: the table, the state of the shared
    pattern (nothing is parsed) and the published diagnostics (the resolver
    is not run). *)
Theorem setDocs_skips
    (service_parseHTMLDocument : LSTextDocument -> HTMLDocument)
    (parseNodeAttrs : LSTextDocument -> Node -> list Attr)
    (matchesGlob : string -> string -> bool)
    (w : World) (d : TextDocument) :
  (JSMap.has (w_docs w) (uri d) = true ->
   onDidCreateDoc service_parseHTMLDocument parseNodeAttrs matchesGlob w d = w) /\
  (JSMap.has (w_docs w) (uri d) = false ->
   onDidChangeDoc service_parseHTMLDocument parseNodeAttrs matchesGlob w d = w).
Proof.
  unfold onDidCreateDoc, onDidChangeDoc, setDocs.
  split; intros ->; reflexivity.
Qed.



(** ** Tokens are never empty, whatever the state of the shared pattern *)

Section TokensNonEmpty.

Lemma slice_nonempty (s : string) (a b : Z) :
  0 <= a < b -> b <= JS.len s -> JS.slice s a b <> "".
Proof.
  intros Ha Hb. unfold JS.slice, JS.clamp, JS.len in *.
  destruct (Z.ltb_spec a 0) as [?|_]; [lia|].
  destruct (Z.ltb_spec b 0) as [?|_]; [lia|].
  rewrite !Z.min_l by lia.
  intros E. apply (f_equal String.length) in E.
  rewrite length_substring in E by lia. simpl in E. lia.
Qed.

Lemma step_scan_ok (input : string) (lb rb i : Z) (st : ScanState) :
  0 <= i < JS.len input -> scan_ok i st ->
  scan_ok (i + 1) (parseTokens_step input lb rb st i).
Proof.
  intros Hi [Hcd Hres]. destruct st as [cd result]. cbn [fst snd] in *.
  unfold parseTokens_step.
  destruct ((lb <? i) && (i <? rb)); [split; cbn [fst snd]; auto|].
  destruct (isSpaceAt input i).
  - destruct (Z.eqb_spec cd (-1)) as [->|Hne]; cbn [negb].
    + split; cbn [fst snd]; auto.
    + split; cbn [fst snd]; [now left|].
      unfold push. intros tok [Htok|[<-|[]]]%in_app_iff.
      * now apply Hres.
      * cbn [token]. apply slice_nonempty; lia.
  - destruct (Z.eqb_spec cd (-1)) as [->|Hne].
    + split; cbn [fst snd]; [right; lia|auto].
    + split; cbn [fst snd]; [right; lia|auto].
Qed.

Lemma fold_scan_ok (input : string) (lb rb : Z) (n : nat) :
  forall i st,
    0 <= i -> i + Z.of_nat n <= JS.len input -> scan_ok i st ->
    scan_ok (i + Z.of_nat n)
      (fold_left (parseTokens_step input lb rb) (indices i n) st).
Proof.
  induction n as [|n IH]; intros i st Hi Hn Hok.
  - cbn [indices seq map fold_left]. now rewrite Z.add_0_r.
  - rewrite indices_succ. cbn [fold_left].
    replace (i + Z.of_nat (S n)) with (i + 1 + Z.of_nat n) by lia.
    apply IH; [lia|lia|]. apply step_scan_ok; [lia|exact Hok].
Qed.

Lemma parseTokens_nonempty (lastIndex : Z) (input : string) (tok : ParsedToken) :
  In tok (parseTokens lastIndex input) -> token tok <> "".
Proof.
  unfold parseTokens. destruct (boundaries lastIndex input) as [lb rb].
  pose proof (fold_scan_ok input lb rb (String.length input) 0 (-1, [])) as H.
  destruct (fold_left _ _ _) as [cd result].
  destruct H as [Hcd Hres]; [lia|unfold JS.len; lia| |].
  { split; cbn [fst snd]; [now left|intros ? []]. }
  cbn [fst snd] in *.
  destruct (Z.eqb_spec cd (-1)) as [->|Hne]; cbn [negb]; [apply Hres|].
  unfold push. intros [Htok|[<-|[]]]%in_app_iff; [now apply Hres|].
  cbn [token]. apply slice_nonempty; unfold JS.len in *; lia.
Qed.

End TokensNonEmpty.

(** ** The symbol tables keep their invariant *)

Section StoreFacts.

Lemma in_set {V : Type} (m : JSMap.t V) (k : string) (v : V) (k0 : string) (v0 : V) :
  In (k0, v0) (JSMap.set m k v) -> (k0, v0) = (k, v) \/ In (k0, v0) m.
Proof.
  induction m as [|[k' v'] m IH]; simpl.
  - intros [H|[]]. left. now symmetry.
  - destruct (String.eqb k' k); simpl.
    + intros [H|H]; [left; now symmetry|right; now right].
    + intros [H|H]; [right; now left|].
      destruct (IH H); [now left|right; now right].
Qed.

Lemma addRange_empty_key (store : Store) (r : Range) :
  addRange store "" r = store.
Proof. reflexivity. Qed.

Lemma addRange_ok (store : Store) (key : string) (r : Range) :
  store_ok store -> store_ok (addRange store key r).
Proof.
  intros Hok. unfold addRange.
  destruct (String.eqb_spec key "") as [->|Hne]; [exact Hok|].
  destruct (JSMap.get store key) as [ranges|];
    intros k rs [[= -> ->]|Hin]%in_set; auto; split; auto.
  - unfold push. now destruct ranges.
  - discriminate.
Qed.

Lemma ranges_count_set (store : Store) (key : string) (rs : list Range) :
  (ranges_count (JSMap.set store key rs)
   + match JSMap.get store key with Some old => List.length old | None => 0 end
   = ranges_count store + List.length rs)%nat.
Proof.
  unfold ranges_count.
  induction store as [|[k v] store IH]; simpl; [lia|].
  destruct (String.eqb k key); simpl; lia.
Qed.

Lemma addRange_count (store : Store) (key : string) (r : Range) :
  key <> "" -> ranges_count (addRange store key r) = S (ranges_count store).
Proof.
  intros Hne. unfold addRange.
  destruct (String.eqb_spec key ""); [contradiction|].
  destruct (JSMap.get store key) as [ranges|] eqn:E.
  - pose proof (ranges_count_set store key (push ranges r)) as H.
    rewrite E in H. unfold push in *. rewrite length_app in H. simpl in H. lia.
  - pose proof (ranges_count_set store key [r]) as H.
    rewrite E in H. simpl in H. lia.
Qed.

Lemma addDefinitionRanges_fold_ok (r : Range) (toks : list ParsedToken) :
  forall store,
    store_ok store ->
    (forall tok, In tok toks -> token tok <> "") ->
    let store' :=
      fold_left
        (fun store tok =>
           addRange store (token tok)
             (range_with r
                (translate (range_start r) (characterDelta tok))
                (translate (range_start r)
                   (characterDelta tok + JS.len (token tok)))))
        toks store in
    store_ok store' /\
    ranges_count store' = (ranges_count store + List.length toks)%nat.
Proof.
  induction toks as [|tok toks IH]; intros store Hok Hne; cbn [fold_left].
  - split; [exact Hok|simpl; lia].
  - destruct (IH (addRange store (token tok)
                    (range_with r
                       (translate (range_start r) (characterDelta tok))
                       (translate (range_start r)
                          (characterDelta tok + JS.len (token tok))))))
      as [Hok' Hcount].
    + now apply addRange_ok.
    + intros t' Ht'. apply Hne. now right.
    + split; [exact Hok'|]. cbn zeta in Hcount. rewrite Hcount.
      rewrite addRange_count by (apply Hne; now left). simpl. lia.
Qed.

Lemma addDefinitionRanges_ok (lastIndex : Z) (store : Store) (value : string)
    (r : Range) :
  store_ok store ->
  store_ok (addDefinitionRanges lastIndex store value r) /\
  ranges_count (addDefinitionRanges lastIndex store value r)
  = (ranges_count store + List.length (parseTokens lastIndex value))%nat.
Proof.
  intros Hok. unfold addDefinitionRanges.
  apply addDefinitionRanges_fold_ok; [exact Hok|].
  intros tok. apply parseTokens_nonempty.
Qed.

Lemma addDefinitionRanges_store_ok (lastIndex : Z) (store : Store)
    (value : string) (r : Range) :
  store_ok store -> store_ok (addDefinitionRanges lastIndex store value r).
Proof. intros Hok. now apply addDefinitionRanges_ok. Qed.

Lemma substring_empty (n m : nat) : String.substring n m "" = "".
Proof. destruct n, m; reflexivity. Qed.

Lemma parseTokens_empty (lastIndex : Z) : parseTokens lastIndex "" = [].
Proof.
  unfold parseTokens, boundaries, InvalidPattern.matchAll.
  unfold JS.slice_from, JS.slice. rewrite substring_empty.
  destruct (JS.len "" <? lastIndex); reflexivity.
Qed.

Lemma addDefinitionRanges_empty (lastIndex : Z) (store : Store) (r : Range) :
  addDefinitionRanges lastIndex store "" r = store.
Proof. unfold addDefinitionRanges. now rewrite parseTokens_empty. Qed.

End StoreFacts.

Section ParserInvariant.

Variable parseNodeAttrs : LSTextDocument -> Node -> list Attr.

Lemma with_diagnostics_ok (st : ParseState) (ds : list Diagnostic) :
  state_ok st -> state_ok (with_diagnostics st ds).
Proof. intros H. exact H. Qed.

Lemma record_action_ok (st : ParseState) (a : Attr) :
  state_ok st -> state_ok (record_action st a).
Proof.
  intros (H1 & H2 & H3 & H4 & H5 & H6). unfold record_action.
  repeat match goal with
         | |- state_ok (if ?b then _ else _) => destruct b
         end;
    unfold state_ok; cbn [ps_event_definitions ps_event_references
                          ps_state_definitions ps_state_references
                          ps_result_definitions ps_result_references];
    repeat apply conj; auto using addRange_ok, addDefinitionRanges_store_ok.
Qed.

Lemma parseAttr_ok (tg : option string) (attrs : list (string * option string))
    (st : ParseState) (a : Attr) :
  state_ok st -> state_ok (parseAttr tg attrs st a).
Proof.
  intros H. apply (record_action_ok st a) in H. unfold parseAttr.
  set (st1 := record_action st a) in *. clearbody st1.
  assert (H2 : state_ok (check_reference st1 a)).
  { unfold check_reference.
    repeat match goal with
           | |- state_ok (if ?b then _ else _) => destruct b
           end; auto. }
  set (st2 := check_reference st1 a) in *. clearbody st2.
  assert (H3 : state_ok (check_event_filter attrs st2 a)).
  { unfold check_event_filter. destruct (isEventFilter (name a)); auto. }
  set (st3 := check_event_filter attrs st2 a) in *. clearbody st3.
  assert (H4 : state_ok (check_on_dependent tg attrs st3 a)).
  { unfold check_on_dependent. destruct (isTagOnDependent tg (name a)); auto. }
  set (st4 := check_on_dependent tg attrs st3 a) in *. clearbody st4.
  assert (H5 : state_ok (check_position attrs st4 a)).
  { unfold check_position. destruct (isPosition (name a)); auto.
    destruct (negb (JS.includes validPosition (value a))); auto.
    destruct (InvalidPattern.test _ _) as [found li].
    destruct (negb found); auto. }
  set (st5 := check_position attrs st4 a) in *. clearbody st5.
  unfold check_x_prefix. destruct (JS.startsWith (name a) "x-"); auto.
Qed.

Lemma fold_parseAttr_ok tg attrs (l : list Attr) :
  forall st, state_ok st -> state_ok (fold_left (parseAttr tg attrs) l st).
Proof.
  induction l as [|a l IH]; intros st H; [exact H|].
  cbn [fold_left]. apply IH. now apply parseAttr_ok.
Qed.

Lemma visit_nodes_ok (td : LSTextDocument) (nodes : list Node) :
  forall acc, state_ok (snd acc) ->
              state_ok (snd (fold_left (visit_node parseNodeAttrs td) nodes acc)).
Proof.
  induction nodes as [|n nodes IH]; intros [stack st] H; [exact H|].
  cbn [fold_left]. apply IH. unfold visit_node. cbn [snd].
  now apply fold_parseAttr_ok.
Qed.

Lemma walk_ok (td : LSTextDocument) (stack : list (list Node)) (st : ParseState) :
  state_ok st -> state_ok (walk parseNodeAttrs td stack st).
Proof.
  funelim (walk parseNodeAttrs td stack st); intros Hok.
  - exact Hok.
  - apply H. now apply visit_nodes_ok.
Qed.

End ParserInvariant.

(** ** Keys stay unique *)

Section UniqueKeys.

Variable parseNodeAttrs : LSTextDocument -> Node -> list Attr.

Lemma addRange_wf (store : Store) (key : string) (r : Range) :
  JSMap.wf store -> JSMap.wf (addRange store key r).
Proof.
  intros H. unfold addRange. destruct (String.eqb key ""); [exact H|].
  destruct (JSMap.get store key); now apply set_wf.
Qed.

Lemma addDefinitionRanges_wf (lastIndex : Z) (store : Store) (value : string)
    (r : Range) :
  JSMap.wf store -> JSMap.wf (addDefinitionRanges lastIndex store value r).
Proof.
  unfold addDefinitionRanges. generalize (parseTokens lastIndex value) as toks.
  intros toks. revert store.
  induction toks as [|tok toks IH]; intros store H; [exact H|].
  cbn [fold_left]. apply IH. now apply addRange_wf.
Qed.

Lemma parseAttr_wf (tg : option string) (attrs : list (string * option string))
    (st : ParseState) (a : Attr) :
  state_wf st -> state_wf (parseAttr tg attrs st a).
Proof.
  intros H.
  assert (H1 : state_wf (record_action st a)).
  { destruct H as (H1 & H2 & H3 & H4 & H5 & H6). unfold record_action.
    repeat match goal with
           | |- state_wf (if ?b then _ else _) => destruct b
           end;
      unfold state_wf; cbn [ps_event_definitions ps_event_references
                            ps_state_definitions ps_state_references
                            ps_result_definitions ps_result_references];
      repeat apply conj; auto using addRange_wf, addDefinitionRanges_wf. }
  unfold parseAttr.
  set (st1 := record_action st a) in *. clearbody st1.
  assert (H2 : state_wf (check_reference st1 a)).
  { unfold check_reference.
    repeat match goal with
           | |- state_wf (if ?b then _ else _) => destruct b
           end; auto. }
  set (st2 := check_reference st1 a) in *. clearbody st2.
  assert (H3 : state_wf (check_event_filter attrs st2 a)).
  { unfold check_event_filter. destruct (isEventFilter (name a)); auto. }
  set (st3 := check_event_filter attrs st2 a) in *. clearbody st3.
  assert (H4 : state_wf (check_on_dependent tg attrs st3 a)).
  { unfold check_on_dependent. destruct (isTagOnDependent tg (name a)); auto. }
  set (st4 := check_on_dependent tg attrs st3 a) in *. clearbody st4.
  assert (H5 : state_wf (check_position attrs st4 a)).
  { unfold check_position. destruct (isPosition (name a)); auto.
    destruct (negb (JS.includes validPosition (value a))); auto.
    destruct (InvalidPattern.test _ _) as [found li].
    destruct (negb found); auto. }
  set (st5 := check_position attrs st4 a) in *. clearbody st5.
  unfold check_x_prefix. destruct (JS.startsWith (name a) "x-"); auto.
Qed.

Lemma visit_nodes_wf (td : LSTextDocument) (nodes : list Node) :
  forall acc, state_wf (snd acc) ->
              state_wf (snd (fold_left (visit_node parseNodeAttrs td) nodes acc)).
Proof.
  induction nodes as [|n nodes IH]; intros [stk s] Hs; [exact Hs|].
  cbn [fold_left]. apply IH. unfold visit_node. cbn [snd].
  generalize (parseNodeAttrs td n) as l. intros l. revert s Hs.
  induction l as [|a l IHl]; intros s Hs; [exact Hs|].
  cbn [fold_left]. apply IHl. now apply parseAttr_wf.
Qed.

Lemma walk_wf (td : LSTextDocument) (stack : list (list Node)) (st : ParseState) :
  state_wf st -> state_wf (walk parseNodeAttrs td stack st).
Proof.
  funelim (walk parseNodeAttrs td stack st); intros Hok.
  - exact Hok.
  - apply H. now apply visit_nodes_wf.
Qed.

(** The tables returned by the parser have unique keys, as a [Map] has. *)
Lemma parseHTMLDocument_wf
    (service_parseHTMLDocument : LSTextDocument -> HTMLDocument)
    (lastIndex : Z) (d : TextDocument) (td : LSTextDocument) :
  let cur :=
    fst (parseHTMLDocument service_parseHTMLDocument parseNodeAttrs lastIndex d td) in
  JSMap.wf (event_definitions cur) /\ JSMap.wf (event_references cur) /\
  JSMap.wf (state_definitions cur) /\ JSMap.wf (state_references cur) /\
  JSMap.wf (result_definitions cur) /\ JSMap.wf (result_references cur).
Proof.
  cbn zeta. unfold parseHTMLDocument. cbn [fst].
  pose proof (walk_wf td [roots (service_parseHTMLDocument td)]
                (initial_state lastIndex)) as H.
  unfold state_wf in H.
  cbn [event_definitions event_references state_definitions state_references
       result_definitions result_references].
  apply H. unfold initial_state, JSMap.wf.
  cbn [ps_event_definitions ps_event_references ps_state_definitions
       ps_state_references ps_result_definitions ps_result_references].
  repeat apply conj; constructor.
Qed.

End UniqueKeys.

(** ** The resolver *)

Section ResolverFacts.

Lemma string_app_inv_head (a x y : string) : a ++ x = a ++ y -> x = y.
Proof. induction a as [|c a IH]; simpl; [auto|]. intros [= H]. auto. Qed.

Lemma string_app_inv_tail (s : string) :
  forall a b, a ++ s = b ++ s -> a = b.
Proof.
  induction a as [|c a IH]; intros b H.
  - destruct b as [|c' b]; [reflexivity|].
    apply (f_equal String.length) in H. simpl in H.
    rewrite string_app_length in H. lia.
  - destruct b as [|c' b].
    + apply (f_equal String.length) in H. simpl in H.
      rewrite string_app_length in H. lia.
    + simpl in H. injection H as -> H. f_equal. now apply IH.
Qed.

Lemma unused_message_eq (kind action : string) :
  unused_message kind action
  = "'" ++ action ++ "' " ++ kind
    ++ " action is declared but its value is never read.".
Proof. reflexivity. Qed.

Lemma undeclared_message_eq (kind action : string) :
  undeclared_message kind action
  = "Cannot find " ++ kind ++ " action '" ++ action ++ "'.".
Proof. reflexivity. Qed.

Lemma unused_message_inj (kind a b : string) :
  unused_message kind a = unused_message kind b -> a = b.
Proof.
  rewrite !unused_message_eq. intros H.
  apply string_app_inv_head in H.
  now apply string_app_inv_tail in H.
Qed.

Lemma undeclared_message_inj (kind a b : string) :
  undeclared_message kind a = undeclared_message kind b -> a = b.
Proof.
  rewrite !undeclared_message_eq. intros H.
  do 3 apply string_app_inv_head in H.
  now apply string_app_inv_tail in H.
Qed.

Lemma unused_not_undeclared (kind a kind' b : string) :
  unused_message kind a <> undeclared_message kind' b.
Proof. rewrite unused_message_eq, undeclared_message_eq. discriminate. Qed.

Variable docs : Docs.

Lemma found_in_docs_true (right : ParsedDocument -> Store) (action : string) :
  found_in_docs docs right action = true <->
  exists url d, In (url, d) docs /\ JSMap.has (right d) action = true.
Proof.
  unfold found_in_docs, JSMap.values. rewrite existsb_exists. split.
  - intros (d & [[url d'] [<- Hin]]%in_map_iff & Hhas). now exists url, d'.
  - intros (url & d & Hin & Hhas). exists d. split; [|exact Hhas].
    change d with (snd (url, d)). now apply in_map.
Qed.

Lemma found_in_docs_false (right : ParsedDocument -> Store) (action : string) :
  found_in_docs docs right action = false <->
  forall url d, In (url, d) docs -> JSMap.has (right d) action = false.
Proof.
  split.
  - intros Hf url d Hin. destruct (JSMap.has (right d) action) eqn:E; [|reflexivity].
    assert (found_in_docs docs right action = true)
      by (apply found_in_docs_true; eauto).
    congruence.
  - intros Hall. destruct (found_in_docs docs right action) eqn:E; [|reflexivity].
    apply found_in_docs_true in E as (url & d & Hin & Hhas).
    rewrite (Hall url d Hin) in Hhas. discriminate.
Qed.

Lemma push_fold {A B : Type} (f : A -> B) (l : list A) :
  forall acc, fold_left (fun acc x => push acc (f x)) l acc = (acc ++ map f l)%list.
Proof.
  induction l as [|x l IH]; intros acc; simpl; [now rewrite app_nil_r|].
  rewrite IH. unfold push. now rewrite <- app_assoc.
Qed.

Lemma addPartialReferenceDiagnostics_emitted
    (diagnostics : list Diagnostic) (cur : ParsedDocument)
    (left right : ParsedDocument -> Store) (kind : string)
    (tpl : (string -> string) -> string) (severity : DiagnosticSeverity)
    (tags : option (list DiagnosticTag)) :
  addPartialReferenceDiagnostics docs diagnostics cur left right kind tpl severity tags
  = (diagnostics ++ emitted docs cur left right kind tpl severity tags)%list.
Proof.
  unfold addPartialReferenceDiagnostics, emitted.
  generalize (left cur) as entries. intros entries. revert diagnostics.
  induction entries as [|[action ranges] entries IH]; intros diagnostics.
  - simpl. now rewrite app_nil_r.
  - cbn [fold_left flat_map fst snd].
    destruct (found_in_docs docs right action); cbn [negb].
    + apply IH.
    + rewrite IH, push_fold. now rewrite <- app_assoc.
Qed.

Lemma in_emitted (cur : ParsedDocument) (left right : ParsedDocument -> Store)
    (kind : string) (tpl : (string -> string) -> string)
    (severity : DiagnosticSeverity) (tags : option (list DiagnosticTag))
    (d : Diagnostic) :
  In d (emitted docs cur left right kind tpl severity tags) <->
  exists action ranges r,
    In (action, ranges) (left cur) /\ found_in_docs docs right action = false /\
    In r ranges /\ d = partial_diagnostic kind tpl severity tags action r.
Proof.
  unfold emitted. rewrite in_flat_map. split.
  - intros ([action ranges] & Hin & Hd). cbn [fst snd] in Hd.
    destruct (found_in_docs docs right action) eqn:E; [destruct Hd|].
    apply in_map_iff in Hd as (r & <- & Hr). now exists action, ranges, r.
  - intros (action & ranges & r & Hin & Hf & Hr & ->).
    exists (action, ranges). split; [exact Hin|]. cbn [fst snd]. rewrite Hf.
    now apply in_map.
Qed.

Lemma partial_diagnostic_message kind tpl severity tags action r :
  d_message (partial_diagnostic kind tpl severity tags action r)
  = tpl (record [("kind", kind); ("action", action)]).
Proof. unfold partial_diagnostic. now destruct tags. Qed.

End ResolverFacts.

Section PassFacts.

Variable docs : Docs.

Lemma filter_all {A : Type} (p : A -> bool) (l : list A) :
  (forall x, In x l -> p x = true) -> filter p l = l.
Proof.
  induction l as [|x l IH]; intros H; simpl; [reflexivity|].
  rewrite (H x) by now left. f_equal. apply IH. intros y Hy. apply H. now right.
Qed.

Lemma filter_none {A : Type} (p : A -> bool) (l : list A) :
  (forall x, In x l -> p x = false) -> filter p l = [].
Proof.
  induction l as [|x l IH]; intros H; simpl; [reflexivity|].
  rewrite (H x) by now left. apply IH. intros y Hy. apply H. now right.
Qed.

Lemma filter_undeclared (cur : ParsedDocument) (left right : ParsedDocument -> Store)
    (kind action : string) severity tags :
  filter (is_unused_for kind action)
         (emitted docs cur left right kind UNDECLARED_TPL severity tags) = [].
Proof.
  apply filter_none. intros d (a & rs & r & _ & _ & _ & ->)%in_emitted.
  unfold is_unused_for. rewrite partial_diagnostic_message.
  apply String.eqb_neq. intros E. symmetry in E.
  exact (unused_not_undeclared _ _ _ _ E).
Qed.

Lemma filter_unused_entries (right : ParsedDocument -> Store)
    (kind action : string) severity tags (entries : Store) :
  JSMap.wf entries ->
  filter (is_unused_for kind action)
    (flat_map
       (fun entry =>
          if found_in_docs docs right (fst entry) then []
          else map (partial_diagnostic kind UNUSED_TPL severity tags (fst entry))
                   (snd entry))
       entries)
  = match JSMap.get entries action with
    | Some ranges =>
        if found_in_docs docs right action then []
        else map (partial_diagnostic kind UNUSED_TPL severity tags action) ranges
    | None => []
    end.
Proof.
  unfold JSMap.wf. induction entries as [|[a rs] entries IH]; intros Hnd;
    [reflexivity|].
  inversion Hnd as [|? ? Hnotin Hnd']; subst.
  cbn [flat_map fst snd JSMap.get]. rewrite filter_app, (IH Hnd').
  destruct (String.eqb_spec a action) as [->|Hne].
  - apply get_none_not_in in Hnotin. rewrite Hnotin, app_nil_r.
    destruct (found_in_docs docs right action); [reflexivity|].
    apply filter_all. intros d (r & <- & _)%in_map_iff.
    unfold is_unused_for. rewrite partial_diagnostic_message.
    apply String.eqb_refl.
  - replace (filter _ (if found_in_docs docs right a then [] else _)) with (@nil Diagnostic);
      [reflexivity|].
    symmetry. destruct (found_in_docs docs right a); [reflexivity|].
    apply filter_none. intros d (r & <- & _)%in_map_iff.
    unfold is_unused_for. rewrite partial_diagnostic_message.
    apply String.eqb_neq. intros E. apply Hne. exact (unused_message_inj _ _ _ E).
Qed.

Lemma addReferenceDiagnostics_app (cfg : Config) (ds : list Diagnostic)
    (cur : ParsedDocument) (defs refs : ParsedDocument -> Store) (kind : string) :
  addReferenceDiagnostics docs cfg ds cur defs refs kind
  = (ds ++ addReferenceDiagnostics docs cfg [] cur defs refs kind)%list.
Proof.
  unfold addReferenceDiagnostics.
  destruct (actionUnusedSeverity cfg) as [s1|];
    destruct (actionUndefinedSeverity cfg) as [s2|];
    rewrite ?addPartialReferenceDiagnostics_emitted, ?app_nil_l, ?app_nil_r,
      ?app_assoc; reflexivity.
Qed.

(** What is computed for one document is the three per-kind outputs in a
    row. *)
Lemma reference_diagnostics_kinds (cfg : Config) (cur : ParsedDocument) :
  reference_diagnostics docs cfg cur
  = (addReferenceDiagnostics docs cfg [] cur event_definitions event_references "event"
     ++ addReferenceDiagnostics docs cfg [] cur state_definitions state_references "state"
     ++ addReferenceDiagnostics docs cfg [] cur result_definitions result_references
          "result")%list.
Proof.
  unfold reference_diagnostics.
  rewrite (addReferenceDiagnostics_app cfg (addReferenceDiagnostics _ _ _ _ _ _ _)).
  rewrite (addReferenceDiagnostics_app cfg (addReferenceDiagnostics _ _ _ _ _ _ _)).
  now rewrite app_assoc.
Qed.

End PassFacts.

(** C2. The diagnostics that one call of the resolver emits for the
    definitions of a document, picked out by their message.  When the
    "unused" severity is set: a name of the definition table that no
    tracked document has in its reference table gets exactly one diagnostic
    per stored range, in order, at that severity, from source KEML, tagged
    "unnecessary" exactly when the severity is Warning; a name that some
    tracked document references gets none.  When the "unused" severity is
    disabled nothing of the kind is emitted: all that is produced is what
    the undefined pass produces.  Whatever the array held before is kept
    in front. *)
Theorem unused_pass (docs : Docs) (cfg : Config) (cur : ParsedDocument)
    (defs refs : ParsedDocument -> Store) (kind action : string) :
  let out := addReferenceDiagnostics docs cfg [] cur defs refs kind in
  let unused_for := filter (is_unused_for kind action) out in
  (forall severity ranges,
      actionUnusedSeverity cfg = Some severity ->
      JSMap.wf (defs cur) ->
      JSMap.get (defs cur) action = Some ranges ->
      (forall url d, In (url, d) docs -> JSMap.has (refs d) action = false) ->
      unused_for
      = map (fun r =>
               mkDiagnostic r (unused_message kind action) severity (Some "KEML")
                 (match severity with
                  | Warning => Some [Unnecessary]
                  | _ => None
                  end))
            ranges) /\
  ((exists url d, In (url, d) docs /\ JSMap.has (refs d) action = true) ->
   unused_for = []) /\
  (actionUnusedSeverity cfg = None ->
   unused_for = [] /\
   out = match actionUndefinedSeverity cfg with
         | Some severity =>
             addPartialReferenceDiagnostics docs [] cur refs defs kind
               UNDECLARED_TPL severity None
         | None => []
         end) /\
  (forall ds,
      addReferenceDiagnostics docs cfg ds cur defs refs kind = (ds ++ out)%list).
Proof.
  cbn zeta.
  assert (Hshape :
    forall severity,
      actionUnusedSeverity cfg = Some severity -> JSMap.wf (defs cur) ->
      filter (is_unused_for kind action)
             (addReferenceDiagnostics docs cfg [] cur defs refs kind)
      = match JSMap.get (defs cur) action with
        | Some ranges =>
            if found_in_docs docs refs action then []
            else map (partial_diagnostic kind UNUSED_TPL severity
                        (if severity_eqb severity Warning
                         then Some [Unnecessary] else None) action) ranges
        | None => []
        end).
  { intros severity Hsev Hwf. unfold addReferenceDiagnostics. rewrite Hsev.
    rewrite addPartialReferenceDiagnostics_emitted, app_nil_l.
    destruct (actionUndefinedSeverity cfg) as [s2|].
    - rewrite addPartialReferenceDiagnostics_emitted, filter_app, filter_undeclared,
        app_nil_r.
      now apply filter_unused_entries.
    - now apply filter_unused_entries. }
  assert (Hnone :
    actionUnusedSeverity cfg = None ->
    filter (is_unused_for kind action)
           (addReferenceDiagnostics docs cfg [] cur defs refs kind) = []).
  { intros Hsev. unfold addReferenceDiagnostics. rewrite Hsev.
    destruct (actionUndefinedSeverity cfg) as [s2|]; [|reflexivity].
    rewrite addPartialReferenceDiagnostics_emitted, app_nil_l.
    apply filter_undeclared. }
  split; [|split; [|split]].
  - intros severity ranges Hsev Hwf Hget Hunref.
    rewrite (Hshape severity Hsev Hwf), Hget.
    apply found_in_docs_false in Hunref. rewrite Hunref.
    apply map_ext. intros r. unfold partial_diagnostic.
    destruct severity; reflexivity.
  - intros Href. apply found_in_docs_true in Href.
    destruct (actionUnusedSeverity cfg) as [severity|] eqn:Hsev; [|now apply Hnone].
    unfold addReferenceDiagnostics. rewrite Hsev.
    rewrite addPartialReferenceDiagnostics_emitted, app_nil_l.
    assert (Hu : forall tags,
      filter (is_unused_for kind action)
             (emitted docs cur defs refs kind UNUSED_TPL severity tags) = []).
    { intros tags. apply filter_none.
      intros d (a & rs & r & _ & Hf & _ & ->)%in_emitted.
      unfold is_unused_for. rewrite partial_diagnostic_message.
      apply String.eqb_neq. intros E.
      apply unused_message_inj in E. subst a. congruence. }
    destruct (actionUndefinedSeverity cfg) as [s2|].
    + rewrite addPartialReferenceDiagnostics_emitted, filter_app, filter_undeclared.
      now rewrite Hu.
    + apply Hu.
  - intros Hsev. split; [now apply Hnone|].
    unfold addReferenceDiagnostics. now rewrite Hsev.
  - intros ds. apply addReferenceDiagnostics_app.
Qed.

(** C4. In one resolver pass over the table, no action name of a kind gets
    both an "unused" and an "undefined" diagnostic: once the pass has
    emitted an unused diagnostic for a name in the entry of a tracked
    document (so that document defines the name), no diagnostic saying the
    name is undefined is emitted for any document. *)
Theorem unused_undefined_disjoint (docs : Docs) (cfg : Config)
    (defs refs : ParsedDocument -> Store) (kind action : string)
    (url1 : string) (cur1 : ParsedDocument) (d1 : Diagnostic) :
  In (url1, cur1) docs ->
  In d1 (addReferenceDiagnostics docs cfg [] cur1 defs refs kind) ->
  d_message d1 = unused_message kind action ->
  forall (cur2 : ParsedDocument) (d2 : Diagnostic),
    d_message d2 = undeclared_message kind action ->
    ~ In d2 (addReferenceDiagnostics docs cfg [] cur2 defs refs kind).
Proof.
  intros Hcur1 Hd1 Hm1 cur2 d2 Hm2 Hd2.
  assert (Hsplit : forall cur d,
    In d (addReferenceDiagnostics docs cfg [] cur defs refs kind) ->
    (exists s tags, In d (emitted docs cur defs refs kind UNUSED_TPL s tags)) \/
    (exists s tags, In d (emitted docs cur refs defs kind UNDECLARED_TPL s tags))).
  { intros cur d. unfold addReferenceDiagnostics.
    destruct (actionUnusedSeverity cfg) as [s1|];
      destruct (actionUndefinedSeverity cfg) as [s2|];
      rewrite ?addPartialReferenceDiagnostics_emitted, ?app_nil_l;
      rewrite ?in_app_iff; intros H; try destruct H as [H|H]; eauto.
    destruct H. }
  (* the unused diagnostic comes from a definition of [action] in [cur1] *)
  assert (Hdef : JSMap.has (defs cur1) action = true).
  { destruct (Hsplit cur1 d1 Hd1) as [(s & tags & H)|(s & tags & H)];
      apply in_emitted in H as (a & rs & r & Hin & _ & _ & ->);
      rewrite partial_diagnostic_message in Hm1.
    - apply unused_message_inj in Hm1. subst a.
      unfold JSMap.has.
      destruct (JSMap.get (defs cur1) action) eqn:E; [reflexivity|].
      apply get_none_not_in in E. exfalso. apply E.
      change action with (fst (action, rs)). now apply in_map.
    - symmetry in Hm1. now apply unused_not_undeclared in Hm1. }
  (* the undefined diagnostic needs every table of definitions to lack it *)
  destruct (Hsplit cur2 d2 Hd2) as [(s & tags & H)|(s & tags & H)];
    apply in_emitted in H as (a & rs & r & _ & Hf & _ & ->);
    rewrite partial_diagnostic_message in Hm2.
  - now apply unused_not_undeclared in Hm2.
  - apply undeclared_message_inj in Hm2. subst a.
    rewrite found_in_docs_false in Hf.
    rewrite (Hf url1 cur1 Hcur1) in Hdef. discriminate.
Qed.

(** ** The shared pattern between two uses *)

Section PatternState.

Lemma find_none_bracket_free (s : string) (off : Z) :
  InvalidPattern.find s off = None <-> TokenSpec.bracket_free s = true.
Proof.
  revert off. induction s as [|c s IH]; intros off; simpl; [tauto|].
  destruct (InvalidPattern.matches_char c); simpl; [split; discriminate|].
  apply IH.
Qed.

(** At rest, [test] answers whether the text has a bracket character. *)
Lemma test_fresh (s : string) :
  fst (InvalidPattern.test 0 s) = negb (TokenSpec.bracket_free s).
Proof.
  unfold InvalidPattern.test, InvalidPattern.exec.
  destruct (Z.ltb_spec (JS.len s) 0) as [H|_]; [unfold JS.len in H; lia|].
  rewrite slice_from_zero.
  destruct (InvalidPattern.find s 0) eqn:E.
  - destruct (TokenSpec.bracket_free s) eqn:B; [|reflexivity].
    apply find_none_bracket_free with (off := 0) in B. congruence.
  - apply find_none_bracket_free in E. now rewrite E.
Qed.

(** A text without bracket characters fails [test] in every state, and
    puts the pattern back at rest. *)
Lemma test_bracket_free (lastIndex : Z) (s : string) :
  TokenSpec.bracket_free s = true -> InvalidPattern.test lastIndex s = (false, 0).
Proof.
  intros B. unfold InvalidPattern.test, InvalidPattern.exec.
  destruct (JS.len s <? lastIndex); [reflexivity|].
  assert (E : InvalidPattern.find (JS.slice_from s lastIndex) lastIndex = None).
  { apply find_none_bracket_free. now apply bracket_free_substring. }
  now rewrite E.
Qed.

(** With the pattern at rest, the position check adds the error exactly
    for a value that is neither a valid position nor holds a bracket. *)
Lemma check_position_fresh (attrs : list (string * option string))
    (st : ParseState) (a : Attr) :
  ps_lastIndex st = 0 -> isPosition (name a) = true ->
  ps_diagnostics (check_position attrs st a)
  = (addDependsDiagnostic (ps_diagnostics st) attrs (fullRange a) (name a)
       "render" "a"
     ++ if negb (JS.includes validPosition (value a))
           && TokenSpec.bracket_free (value a)
        then [mkDiagnostic (fullRange a) invalid_position_message Error
                (Some "KEML") None]
        else [])%list.
Proof.
  intros Hli Hpos. unfold check_position. rewrite Hpos.
  destruct (JS.includes validPosition (value a)); cbn [negb andb].
  - cbn [with_diagnostics ps_diagnostics]. now rewrite app_nil_r.
  - cbn [with_diagnostics ps_lastIndex]. rewrite Hli.
    pose proof (test_fresh (value a)) as Ht.
    destruct (InvalidPattern.test 0 (value a)) as [found li]. cbn [fst] in Ht.
    subst found. destruct (TokenSpec.bracket_free (value a)); cbn [negb].
    + reflexivity.
    + cbn [with_lastIndex ps_diagnostics]. now rewrite app_nil_r.
Qed.

End PatternState.

(** C3, at the failing input.  The document
    [<button position="(a" on:click="(x save"></button>] is parsed twice
    in a row, the first time with the shared pattern at rest.  The first
    parse files the event definitions ["(x"] and ["save"] and reports one
    local diagnostic; the second parse of the same text files ["save"]
    only and reports two. *)
Theorem reparse_differs :
  JSMap.keys (event_definitions (fst Sample.first_parse)) = ["(x"; "save"] /\
  JSMap.keys (event_definitions (fst Sample.second_parse)) = ["save"] /\
  List.length (diagnostics (fst Sample.first_parse)) = 1%nat /\
  List.length (diagnostics (fst Sample.second_parse)) = 2%nat /\
  snd Sample.first_parse = 1 /\ snd Sample.second_parse = 0.
Proof. vm_compute. repeat split; reflexivity. Qed.

(** C5, at the failing input.  On the second parse of the sample document
    the attribute [position="(a"], whose value holds the bracket
    character [(], gets the "Invalid render position" error on its full
    range; on the first parse it does not. *)
Theorem position_error_despite_bracket :
  isPosition (name Sample.position_attr) = true /\
  TokenSpec.bracket_free (value Sample.position_attr) = false /\
  In Sample.invalid_position_diagnostic (diagnostics (fst Sample.second_parse)) /\
  ~ In Sample.invalid_position_diagnostic (diagnostics (fst Sample.first_parse)).
Proof.
  split; [reflexivity|]. split; [reflexivity|]. split.
  - vm_compute. right. left. reflexivity.
  - vm_compute. intros [H|[]]. discriminate H.
Qed.

(** ** The sample workspace *)

Lemma sample_docs : w_docs Sample.world1 = [("file:///a.html", Sample.parsed)].
Proof. reflexivity. Qed.

Lemma sample_docs_wf : JSMap.wf (w_docs Sample.world1).
Proof.
  rewrite sample_docs. unfold JSMap.wf. cbn [JSMap.keys map fst].
  constructor; [intros []|constructor].
Qed.

Lemma unused_pass_witness :
  filter (is_unused_for "event" "save")
    (addReferenceDiagnostics (w_docs Sample.world1) Sample.config []
       Sample.parsed event_definitions event_references "event")
  = [mkDiagnostic Sample.save_range (unused_message "event" "save") Warning
       (Some "KEML") (Some [Unnecessary])].
Proof.
  destruct (unused_pass (w_docs Sample.world1) Sample.config Sample.parsed
              event_definitions event_references "event" "save") as [H _].
  apply (H Warning [Sample.save_range]).
  - reflexivity.
  - unfold JSMap.wf. vm_compute. repeat constructor; simpl; intuition discriminate.
  - reflexivity.
  - intros url d [[= <- <-]|[]]. reflexivity.
Defined.

Lemma unused_undefined_disjoint_witness :
  ~ In (mkDiagnostic Sample.save_range (undeclared_message "event" "save") Error
          (Some "KEML") None)
       (addReferenceDiagnostics (w_docs Sample.world1) Sample.config []
          Sample.parsed event_definitions event_references "event").
Proof.
  apply (unused_undefined_disjoint (w_docs Sample.world1) Sample.config
           event_definitions event_references "event" "save"
           "file:///a.html" Sample.parsed
           (mkDiagnostic Sample.save_range (unused_message "event" "save") Warning
              (Some "KEML") (Some [Unnecessary]))).
  - left. reflexivity.
  - vm_compute. right. left. reflexivity.
  - reflexivity.
  - reflexivity.
Defined.

Lemma setDocs_skips_witness :
  onDidCreateDoc Sample.service_parseHTMLDocument Sample.parseNodeAttrs
    Sample.matchesGlob Sample.world1 Sample.document = Sample.world1 /\
  onDidChangeDoc Sample.service_parseHTMLDocument Sample.parseNodeAttrs
    Sample.matchesGlob Sample.world0 Sample.document = Sample.world0.
Proof.
  split.
  - apply (setDocs_skips Sample.service_parseHTMLDocument Sample.parseNodeAttrs
             Sample.matchesGlob Sample.world1 Sample.document).
    reflexivity.
  - apply (setDocs_skips Sample.service_parseHTMLDocument Sample.parseNodeAttrs
             Sample.matchesGlob Sample.world0 Sample.document).
    reflexivity.
Defined.


(** * Further properties *)

(** ** The tokenizer in any state of the shared pattern *)

Section AnyState.
Import TokenSpec ZoneSpec.

Lemma words_nonempty_head (s : string) (off : Z) :
  starts_with_word s = true -> words off s <> [].
Proof.
  intros H. destruct (words_located_aux s off) as [_ Hhead].
  destruct (Hhead H) as (tok & ts & b & -> & _). discriminate.
Qed.

(** Splitting the text in front of a space (or at its end) splits the
    list of words. *)
Lemma words_app (a b : string) :
  starts_with_word b = false ->
  forall off, words off (a ++ b) = (words off a ++ words (off + JS.len a) b)%list.
Proof.
  intros Hb. induction a as [|c a IH]; intros off.
  - cbn [append words app]. unfold JS.len. cbn [String.length Z.of_nat].
    now rewrite Z.add_0_r.
  - cbn [append words].
    replace (off + JS.len (String c a)) with (off + 1 + JS.len a)
      by (unfold JS.len; cbn [String.length]; lia).
    destruct (is_space c); [apply IH|].
    assert (Hsw : starts_with_word (a ++ b) = starts_with_word a).
    { destruct a; [exact Hb|reflexivity]. }
    rewrite Hsw, IH.
    destruct (starts_with_word a) eqn:Ha; [|reflexivity].
    pose proof (words_nonempty_head a (off + 1) Ha) as Hne.
    destruct (words (off + 1) a); [congruence|reflexivity].
Qed.

Lemma string_app_inv_length (a b x y : string) :
  a ++ x = b ++ y -> String.length a = String.length b -> a = b /\ x = y.
Proof.
  revert b. induction a as [|c a IH]; intros [|c' b] H Hl; try discriminate.
  - auto.
  - simpl in *. injection H as -> H. injection Hl as Hl.
    destruct (IH b H Hl) as [-> ->]. auto.
Qed.

Lemma head_not_word (pre rest : string) :
  isSpaceAt (pre ++ rest) (Z.of_nat (String.length pre)) = true ->
  starts_with_word rest = false.
Proof.
  destruct rest as [|c rest]; [reflexivity|].
  rewrite isSpaceAt_here. cbn [starts_with_word]. now intros ->.
Qed.

(** In any state the boundaries, when there are any, sit on spaces or at
    the two ends of the text. *)
Lemma boundaries_any (lastIndex : Z) (input : string) :
  0 <= lastIndex ->
  boundaries lastIndex input = (JS.len input, -1) \/
  exists lb rb,
    boundaries lastIndex input = (lb, rb) /\
    (lb = -1 \/ (0 <= lb < JS.len input /\ isSpaceAt input lb = true)) /\
    lb < rb <= JS.len input /\
    (rb = JS.len input \/ isSpaceAt input rb = true).
Proof.
  intros Hli. unfold boundaries, InvalidPattern.matchAll.
  destruct (Z.ltb_spec (JS.len input) lastIndex) as [|Hle]; [now left|].
  destruct (InvalidPattern.find_all (JS.slice_from input lastIndex) lastIndex)
    as [|p tl] eqn:E; [now left|].
  right.
  assert (Hin : forall x, In x (p :: tl) -> bracket_at input x).
  { intros x Hx. rewrite <- E in Hx.
    apply find_all_in in Hx as (n & c & -> & Hg & Hm).
    exists c. split; [|exact Hm].
    rewrite <- Hg. symmetry. apply slice_from_get. lia. }
  assert (Hp : bracket_at input p) by (apply Hin; now left).
  assert (Hq : bracket_at input (last (p :: tl) p)).
  { apply Hin. apply last_in. discriminate. }
  assert (Hpq : p <= last (p :: tl) p).
  { rewrite <- E. apply find_all_last_greatest. rewrite E. now left. }
  set (q := last (p :: tl) p) in *.
  assert (Hpr : 0 <= p < JS.len input).
  { destruct Hp as (c & Hc & _). now apply char_at_some in Hc. }
  assert (Hqr : 0 <= q < JS.len input).
  { destruct Hq as (c & Hc & _). now apply char_at_some in Hc. }
  pose proof (lastIndexOf_left_boundary input p Hpr) as Hlb.
  pose proof (indexOf_right_boundary input q Hqr) as Hrb.
  set (lb := JS.lastIndexOf input space p) in *.
  set (rb := if JS.indexOf input space q =? -1 then JS.len input
             else JS.indexOf input space q) in *.
  exists lb, rb. split; [reflexivity|].
  assert (Hlt : lb < p).
  { destruct Hlb as [[->|[Hs Hl]] _]; [lia|].
    destruct (Z.eq_dec lb p) as [Eq|]; [|lia].
    exfalso. apply (space_not_bracket _ _ Hs). now rewrite Eq. }
  split; [|split].
  - destruct Hlb as [[->|[Hs Hl]] _]; [now left|]. right. split.
    + now apply char_at_some in Hs.
    + now apply space_at_isSpaceAt.
  - destruct Hrb as [[->|[Hs Hl]] _]; [lia|]. apply char_at_some in Hs. lia.
  - destruct Hrb as [[->|[Hs Hl]] _]; [now left|]. right.
    now apply space_at_isSpaceAt.
Qed.

(** The tokens are the words of the text with one block of consecutive
    words left out. *)
Lemma parseTokens_block (lastIndex : Z) (input : string) :
  0 <= lastIndex ->
  exists a m b,
    input = a ++ m ++ b /\
    words 0 input
    = (words 0 a ++ words (JS.len a) m ++ words (JS.len a + JS.len m) b)%list /\
    parseTokens lastIndex input
    = (words 0 a ++ words (JS.len a + JS.len m) b)%list.
Proof.
  intros Hli.
  destruct (boundaries_any lastIndex input Hli)
    as [Hb|(lb & rb & Hb & Hlb & Hrange & Hrb)].
  - exists input, "", "". rewrite !string_app_empty_r.
    cbn [words]. rewrite !app_nil_r. repeat split; auto.
    apply (parseTokens_no_zone lastIndex input _ _ Hb).
    intros j Hj. apply andb_false_iff. left. apply Z.ltb_ge. lia.
  - pose proof (parseTokens_with_zone lastIndex input lb rb Hb Hlb Hrange) as Heq.
    assert (Hlb0 : 0 <= Z.max lb 0 <= rb) by lia.
    destruct (slice_split input rb ltac:(lia)) as [Hsplit Hlen].
    set (P := JS.slice input 0 rb) in *.
    set (B := JS.slice_from input rb) in *.
    destruct (slice_split P (Z.max lb 0) ltac:(lia)) as [HsplitP HlenA].
    set (A := JS.slice P 0 (Z.max lb 0)) in *.
    set (M := JS.slice_from P (Z.max lb 0)) in *.
    (* the prefix of the prefix is the prefix *)
    destruct (slice_split input (Z.max lb 0) ltac:(lia)) as [Hsplit' HlenA'].
    assert (HA : JS.slice input 0 (Z.max lb 0) = A).
    { assert (Hi : input = A ++ (M ++ B))
        by (rewrite <- string_app_assoc, <- HsplitP; exact Hsplit).
      rewrite Hi in Hsplit' at 1.
      symmetry in Hsplit'.
      apply string_app_inv_length in Hsplit'; [tauto|].
      unfold JS.len in *. lia. }
    rewrite HA in Heq.
    assert (HlenM : JS.len A + JS.len M = rb).
    { apply (f_equal String.length) in HsplitP. rewrite string_app_length in HsplitP.
      unfold JS.len in *. lia. }
    exists A, M, B. rewrite HlenM.
    assert (Hinput : input = A ++ M ++ B)
      by (rewrite <- string_app_assoc, <- HsplitP; exact Hsplit).
    assert (HB : starts_with_word B = false).
    { destruct Hrb as [->|Hsp].
      - assert (String.length B = 0%nat).
        { apply (f_equal String.length) in Hsplit.
          rewrite string_app_length in Hsplit. unfold JS.len in *. lia. }
        destruct B; [reflexivity|discriminate].
      - apply (head_not_word P B). rewrite <- Hsplit.
        replace (Z.of_nat (String.length P)) with rb by (unfold JS.len in Hlen; lia).
        exact Hsp. }
    assert (HMB : A = "" \/ starts_with_word (M ++ B) = false).
    { destruct Hlb as [->|[Hr Hsp]].
      - left. cbn [Z.max Z.compare Z.opp] in *.
        destruct A; [reflexivity|]. unfold JS.len in HlenA. simpl in HlenA. lia.
      - right. apply (head_not_word A (M ++ B)). rewrite <- Hinput.
        replace (Z.of_nat (String.length A)) with lb
          by (unfold JS.len in HlenA; lia).
        exact Hsp. }
    split; [exact Hinput|]. split; [|exact Heq].
    rewrite Hinput at 1.
    assert (H1 : words 0 (A ++ M ++ B)
                 = (words 0 A ++ words (JS.len A) (M ++ B))%list).
    { destruct HMB as [->|H].
      - reflexivity.
      - rewrite (words_app A (M ++ B) H 0). reflexivity. }
    rewrite H1, (words_app M B HB (JS.len A)), HlenM. reflexivity.
Qed.

Lemma words_lower (off : Z) (s : string) (tok : ParsedToken) :
  In tok (words off s) -> off <= characterDelta tok.
Proof. intros H%words_located. now apply located_bounds in H. Qed.

Lemma words_sorted (s : string) :
  forall off, StronglySorted precedes (words off s).
Proof.
  induction s as [|c s IH]; intros off; [constructor|].
  cbn [words]. destruct (is_space c) eqn:Hc; [apply IH|].
  destruct (starts_with_word s) eqn:Hs.
  - destruct (words_located_aux s (off + 1)) as [_ Hhead].
    destruct (Hhead Hs) as (t0 & ts & b & Hw & Hcd & _).
    pose proof (IH (off + 1)) as Hsorted. rewrite Hw in *.
    inversion Hsorted as [|? ? Hts Hall]; subst.
    constructor; [exact Hts|].
    eapply Forall_impl; [|exact Hall].
    intros x Hx. unfold precedes in *. cbn [token characterDelta].
    unfold JS.len in *. cbn [String.length]. lia.
  - constructor; [apply IH|].
    apply Forall_forall. intros x Hx.
    unfold precedes. cbn [token characterDelta]. unfold JS.len. cbn [String.length].
    destruct s as [|c' s'].
    + destruct Hx.
    + cbn [starts_with_word] in Hs. apply negb_false_iff in Hs.
      cbn [words] in Hx. rewrite Hs in Hx. apply words_lower in Hx. lia.
Qed.

Lemma words_whole (s : string) :
  forall off tok, In tok (words off s) -> whole_word off s tok.
Proof.
  induction s as [|c s IH]; intros off tok Hin; [destruct Hin|].
  cbn [words] in Hin.
  assert (Hshift : forall tok',
            whole_word (off + 1) s tok' ->
            (forall b a, s = b ++ token tok' ++ a ->
                         characterDelta tok' = off + 1 + JS.len b -> b <> "") \/
            is_space c = true ->
            whole_word off (String c s) tok').
  { intros tok' (b & a & Hs & Hcd & Hb & Ha) Hcase.
    exists (String c b), a. split; [cbn [append]; now rewrite <- Hs|].
    split; [unfold JS.len in *; cbn [String.length]; lia|].
    split; [right|exact Ha].
    destruct Hb as [->|(b' & ->)].
    - destruct Hcase as [Hne|Hsp].
      + exfalso. now apply (Hne "" a Hs Hcd).
      + exists "". unfold is_space in Hsp. apply Ascii.eqb_eq in Hsp.
        now subst c.
    - exists (String c b'). reflexivity. }
  destruct (is_space c) eqn:Hc.
  - apply Hshift; [now apply IH|now right].
  - destruct (starts_with_word s) eqn:Hs.
    + destruct (words_located_aux s (off + 1)) as [_ Hhead].
      destruct (Hhead Hs) as (t0 & ts & b0 & Hw & Hcd0 & Hs0).
      pose proof (words_sorted s (off + 1)) as Hsorted.
      rewrite Hw in Hin, Hsorted.
      destruct Hin as [<-|Hin].
      * destruct (IH (off + 1) t0) as (b & a & Hsplit & Hcd & _ & Ha);
          [rewrite Hw; now left|].
        assert (Hb : b = "").
        { destruct b; [reflexivity|].
          unfold JS.len in Hcd. cbn [String.length] in Hcd. lia. }
        subst b. cbn [append] in Hsplit.
        exists "", a. cbn [token characterDelta append].
        split; [now rewrite <- Hsplit|].
        split; [unfold JS.len; cbn [String.length]; lia|].
        split; [now left|exact Ha].
      * apply Hshift; [apply IH; rewrite Hw; now right|left].
        intros b a _ Hcd ->.
        inversion Hsorted as [|? ? _ Hall]; subst.
        rewrite Forall_forall in Hall. specialize (Hall _ Hin).
        unfold precedes, JS.len in *. cbn [String.length] in Hcd. lia.
    + destruct Hin as [<-|Hin].
      * exists "", s. cbn [token characterDelta append].
        split; [reflexivity|].
        split; [unfold JS.len; cbn [String.length]; lia|].
        split; [now left|].
        destruct s as [|c' s']; [now left|right].
        cbn [starts_with_word] in Hs. apply negb_false_iff in Hs.
        unfold is_space in Hs. apply Ascii.eqb_eq in Hs. subst c'.
        now exists s'.
      * apply Hshift; [now apply IH|left].
        intros b a Hsplit _ ->. cbn [append] in Hsplit.
        apply words_located in Hin. destruct Hin as (Hne & Hsp & _).
        destruct (token tok) as [|c' w] eqn:Htok; [contradiction|].
        cbn [append] in Hsplit. subst s.
        cbn [starts_with_word] in Hs. cbn [spaceless] in Hsp.
        apply andb_true_iff in Hsp. destruct Hsp as [Hc' _].
        rewrite Hc' in Hs. discriminate.
Qed.

Lemma parseTokens_whole (lastIndex : Z) (input : string) (tok : ParsedToken) :
  0 <= lastIndex -> In tok (parseTokens lastIndex input) ->
  whole_word 0 input tok.
Proof.
  intros Hli Hin.
  destruct (parseTokens_block lastIndex input Hli) as (a & m & b & _ & Hw & Hp).
  apply words_whole. rewrite Hw. rewrite Hp in Hin.
  rewrite !in_app_iff in *. tauto.
Qed.

Lemma sorted_drop_middle {A : Type} (R : A -> A -> Prop) (l1 l2 l3 : list A) :
  StronglySorted R (l1 ++ l2 ++ l3) -> StronglySorted R (l1 ++ l3).
Proof.
  induction l1 as [|a l1 IH]; cbn [app].
  - induction l2 as [|b l2 IH2]; cbn [app]; [auto|].
    intros H. inversion H; subst. auto.
  - intros H. inversion H as [|? ? Hs Hall]; subst. constructor; [auto|].
    rewrite !Forall_app in *. tauto.
Qed.

End AnyState.

(** C6. For an input without any of the characters ()[]<>{}, and whatever
    the state of the shared pattern, joining the tokens of [parseTokens]
    with single spaces gives the input with leading and trailing spaces
    removed and every run of spaces collapsed to one; the tokens are the
    words of the reference splitter; every token is a non-empty space-free
    whole word of the input whose [characterDelta] is the index of its own
    first character, so [slice] finds it there; the tokens come in
    increasing order without touching; and an input made of spaces only
    (the empty string included) gives no token. *)
Theorem parseTokens_roundtrip (lastIndex : Z) (input : string) :
  TokenSpec.bracket_free input = true ->
  JS.join " " (map token (parseTokens lastIndex input)) = TokenSpec.normalize input
  /\ parseTokens lastIndex input = TokenSpec.words 0 input
  /\ (forall t, In t (parseTokens lastIndex input) ->
        token t <> "" /\ TokenSpec.spaceless (token t) = true /\
        whole_word 0 input t /\
        0 <= characterDelta t /\
        JS.slice input (characterDelta t) (characterDelta t + JS.len (token t))
        = token t)
  /\ StronglySorted precedes (parseTokens lastIndex input)
  /\ (TokenSpec.all_spaces input = true -> parseTokens lastIndex input = []).
Proof.
  intros H. rewrite (parseTokens_bracket_free_words lastIndex input H).
  split; [apply join_words|]. split; [reflexivity|]. split; [|split].
  - intros t Ht. pose proof (words_whole _ _ _ Ht) as Hwhole.
    apply words_located in Ht.
    pose proof (located_slice _ _ Ht) as [H0 Hs].
    destruct Ht as (Hne & Hsp & _). auto.
  - apply words_sorted.
  - apply words_all_spaces.
Qed.

Lemma parseTokens_roundtrip_witness :
  JS.join " " (map token (parseTokens 0 "  save  load x ")) = "save load x"
  /\ parseTokens 0 "ab b" = [mkToken "ab" 0; mkToken "b" 3]
  /\ parseTokens 3 "   " = [].
Proof.
  pose proof (parseTokens_roundtrip 0 "  save  load x " eq_refl)
    as (Hj & _ & _ & _ & _).
  pose proof (parseTokens_roundtrip 0 "ab b" eq_refl) as (_ & Hw & _ & _ & _).
  pose proof (parseTokens_roundtrip 3 "   " eq_refl) as (_ & _ & _ & _ & He).
  split; [exact Hj|]. split; [exact Hw|exact (He eq_refl)].
Defined.

(** X1. In every state of the shared pattern, each token is a non-empty
    piece of the input without spaces that [slice] finds at its recorded
    [characterDelta], and the tokens come in increasing order without
    touching one another. *)
Theorem parseTokens_tokens_in_place (lastIndex : Z) (input : string) :
  0 <= lastIndex ->
  (forall tok, In tok (parseTokens lastIndex input) ->
     token tok <> "" /\ TokenSpec.spaceless (token tok) = true /\
     0 <= characterDelta tok /\
     JS.slice input (characterDelta tok) (characterDelta tok + JS.len (token tok))
     = token tok) /\
  StronglySorted precedes (parseTokens lastIndex input).
Proof.
  intros Hli.
  destruct (parseTokens_block lastIndex input Hli) as (a & m & b & _ & Hw & Hp).
  rewrite Hp. split.
  - intros tok Htok.
    assert (Hin : In tok (TokenSpec.words 0 input)).
    { rewrite Hw. rewrite !in_app_iff in *. tauto. }
    apply words_located in Hin.
    pose proof (located_slice _ _ Hin) as [H0 Hs].
    destruct Hin as (Hne & Hsp & _). auto.
  - apply (sorted_drop_middle precedes _ (TokenSpec.words (JS.len a) m)).
    rewrite <- Hw. apply words_sorted.
Qed.

Lemma parseTokens_tokens_in_place_witness :
  StronglySorted precedes (parseTokens 1 "(x save").
Proof.
  apply (parseTokens_tokens_in_place 1 "(x save"). lia.
Defined.

(** X2. Whatever the state of the shared pattern, the tokens are the
    space-separated words of the input with one run of consecutive words
    (possibly none) left out: brackets never split, join or alter a word,
    they only remove whole words. *)
Theorem parseTokens_drops_whole_words (lastIndex : Z) (input : string) :
  0 <= lastIndex ->
  exists kept1 dropped kept2,
    TokenSpec.words 0 input = (kept1 ++ dropped ++ kept2)%list /\
    parseTokens lastIndex input = (kept1 ++ kept2)%list.
Proof.
  intros Hli.
  destruct (parseTokens_block lastIndex input Hli) as (a & m & b & _ & Hw & Hp).
  eauto.
Qed.

Lemma parseTokens_drops_whole_words_witness :
  exists kept1 dropped kept2,
    TokenSpec.words 0 "foo bar(baz) qux" = (kept1 ++ dropped ++ kept2)%list /\
    parseTokens 0 "foo bar(baz) qux" = (kept1 ++ kept2)%list.
Proof.
  apply (parseTokens_drops_whole_words 0 "foo bar(baz) qux"). lia.
Defined.

(** ** Navigation *)

Section NavigationFacts.

Variable docs : Docs.

Lemma has_in_keys {V : Type} (m : JSMap.t V) (k : string) :
  JSMap.has m k = true <-> In k (JSMap.keys m).
Proof.
  unfold JSMap.has. pose proof (get_none_not_in m k) as H.
  destruct (JSMap.get m k).
  - split; [|reflexivity]. intros _.
    destruct (in_dec string_dec k (JSMap.keys m)) as [Hin|Hnin]; [exact Hin|].
    apply H in Hnin. discriminate.
  - split; [discriminate|]. intros Hin. exfalso. now apply (proj1 H).
Qed.

Lemma in_values (url : string) (cur : ParsedDocument) :
  In (url, cur) docs -> In cur (JSMap.values docs).
Proof. intros H. change cur with (snd (url, cur)). now apply in_map. Qed.

Lemma values_in (cur : ParsedDocument) :
  In cur (JSMap.values docs) -> exists url, In (url, cur) docs.
Proof. intros ([url c] & <- & H)%in_map_iff. now exists url. Qed.

(** The locations one document contributes. *)
Lemma getLocations_flat (value : string) (resolver : ParsedDocument -> Store) :
  getLocations docs value resolver
  = flat_map
      (fun cur =>
         match JSMap.get (resolver cur) value with
         | Some ranges => map (mkLocation (uri (doc cur))) ranges
         | None => []
         end)
      (JSMap.values docs).
Proof.
  unfold getLocations. generalize (JSMap.values docs) as curs.
  assert (H : forall curs acc,
    fold_left
      (fun result cur =>
         match JSMap.get (resolver cur) value with
         | Some ranges =>
             fold_left (fun result r => push result (mkLocation (uri (doc cur)) r))
                       ranges result
         | None => result
         end) curs acc
    = (acc ++ flat_map
         (fun cur =>
            match JSMap.get (resolver cur) value with
            | Some ranges => map (mkLocation (uri (doc cur))) ranges
            | None => []
            end) curs)%list).
  { induction curs as [|cur curs IH]; intros acc; cbn [fold_left flat_map].
    - now rewrite app_nil_r.
    - rewrite IH. destruct (JSMap.get (resolver cur) value) as [ranges|].
      + rewrite push_fold. now rewrite <- app_assoc.
      + reflexivity. }
  intros curs. now rewrite H.
Qed.

Lemma getExistingActionValue_found {V : Type} (name : string)
    (definitionsGetter : ParsedDocument -> Store) (valueGetter : string -> V) :
  getExistingActionValue docs name definitionsGetter valueGetter
  = if found_in_docs docs definitionsGetter name then Some (valueGetter name)
    else None.
Proof.
  unfold getExistingActionValue, found_in_docs.
  induction (JSMap.values docs) as [|cur curs IH]; [reflexivity|].
  cbn [getExistingActionValue_from existsb].
  destruct (JSMap.has (definitionsGetter cur) name); [reflexivity|exact IH].
Qed.

Lemma in_getLocations (value : string) (resolver : ParsedDocument -> Store)
    (loc : Location) :
  In loc (getLocations docs value resolver) <->
  exists url cur ranges,
    In (url, cur) docs /\ JSMap.get (resolver cur) value = Some ranges /\
    In (loc_range loc) ranges /\ loc_uri loc = uri (doc cur).
Proof.
  rewrite getLocations_flat, in_flat_map. split.
  - intros (cur & Hcur & Hloc). apply values_in in Hcur as [url Hcur].
    destruct (JSMap.get (resolver cur) value) as [ranges|] eqn:E; [|destruct Hloc].
    apply in_map_iff in Hloc as (r & <- & Hr).
    exists url, cur, ranges. auto.
  - intros (url & cur & ranges & Hin & Hget & Hr & Huri).
    exists cur. split; [now apply (in_values url)|].
    rewrite Hget. apply in_map_iff. exists (loc_range loc). split; [|exact Hr].
    destruct loc as [u r]. cbn in *. now subst.
Qed.

(** With no empty list of ranges in the tables, the query comes back empty
    exactly for the names that no document has. *)
Lemma getLocations_nil_iff (value : string) (resolver : ParsedDocument -> Store) :
  (forall url cur, In (url, cur) docs -> store_ok (resolver cur)) ->
  getLocations docs value resolver = [] <->
  found_in_docs docs resolver value = false.
Proof.
  intros Hok. split.
  - intros Hnil. destruct (found_in_docs docs resolver value) eqn:E; [|reflexivity].
    apply found_in_docs_true in E as (url & cur & Hin & Hhas).
    unfold JSMap.has in Hhas.
    destruct (JSMap.get (resolver cur) value) as [ranges|] eqn:Hget; [|discriminate].
    destruct (Hok url cur Hin value ranges (get_some_in _ _ _ Hget)) as [_ Hne].
    destruct ranges as [|r ranges]; [congruence|].
    assert (Hloc : In (mkLocation (uri (doc cur)) r) (getLocations docs value resolver)).
    { apply in_getLocations. exists url, cur, (r :: ranges).
      repeat split; auto. now left. }
    rewrite Hnil in Hloc. destruct Hloc.
  - intros Hf. destruct (getLocations docs value resolver) as [|loc locs] eqn:E;
      [reflexivity|].
    assert (Hloc : In loc (getLocations docs value resolver)) by (rewrite E; now left).
    apply in_getLocations in Hloc as (url & cur & ranges & Hin & Hget & _).
    rewrite found_in_docs_false in Hf. specialize (Hf url cur Hin).
    unfold JSMap.has in Hf. rewrite Hget in Hf. discriminate.
Qed.

End NavigationFacts.

(** X3. A location is returned by the navigation query for a name exactly
    when it is the identity of a tracked document paired with one of the
    ranges that document stores under the name; the number of locations is
    the number of stored ranges, and nothing is returned for a name that no
    document has. *)
Theorem getLocations_complete (docs : Docs) (value : string)
    (resolver : ParsedDocument -> Store) :
  (forall loc,
      In loc (getLocations docs value resolver) <->
      exists url cur ranges,
        In (url, cur) docs /\ JSMap.get (resolver cur) value = Some ranges /\
        In (loc_range loc) ranges /\ loc_uri loc = uri (doc cur)) /\
  List.length (getLocations docs value resolver)
  = list_sum
      (map (fun cur =>
              match JSMap.get (resolver cur) value with
              | Some ranges => List.length ranges
              | None => 0%nat
              end)
           (JSMap.values docs)) /\
  (found_in_docs docs resolver value = false ->
   getLocations docs value resolver = []).
Proof.
  split; [intros loc; apply in_getLocations|].
  rewrite getLocations_flat. split.
  - induction (JSMap.values docs) as [|cur curs IH]; [reflexivity|].
    cbn [flat_map map list_sum fold_right]. rewrite length_app, IH.
    f_equal. destruct (JSMap.get (resolver cur) value); [apply length_map|reflexivity].
  - intros Hf. rewrite found_in_docs_false in Hf.
    assert (Hall : forall cur, In cur (JSMap.values docs) ->
                     JSMap.get (resolver cur) value = None).
    { intros cur Hcur. apply values_in in Hcur as [url Hcur].
      specialize (Hf url cur Hcur). unfold JSMap.has in Hf.
      now destruct (JSMap.get (resolver cur) value). }
    induction (JSMap.values docs) as [|cur curs IH]; [reflexivity|].
    cbn [flat_map]. rewrite (Hall cur) by now left.
    apply IH. intros c Hc. apply Hall. now right.
Qed.

Section UnusedShape.

Variable docs : Docs.

(** The unused diagnostics for one name, as they come out of one call. *)
Lemma unused_for_shape (cfg : Config) (cur : ParsedDocument)
    (defs refs : ParsedDocument -> Store) (kind action : string)
    (severity : DiagnosticSeverity) :
  actionUnusedSeverity cfg = Some severity -> JSMap.wf (defs cur) ->
  filter (is_unused_for kind action)
         (addReferenceDiagnostics docs cfg [] cur defs refs kind)
  = match JSMap.get (defs cur) action with
    | Some ranges =>
        if found_in_docs docs refs action then []
        else map (partial_diagnostic kind UNUSED_TPL severity
                    (if severity_eqb severity Warning
                     then Some [Unnecessary] else None) action) ranges
    | None => []
    end.
Proof.
  intros Hsev Hwf. unfold addReferenceDiagnostics. rewrite Hsev.
  rewrite addPartialReferenceDiagnostics_emitted, app_nil_l.
  destruct (actionUndefinedSeverity cfg) as [s2|].
  - rewrite addPartialReferenceDiagnostics_emitted, filter_app, filter_undeclared,
      app_nil_r.
    now apply filter_unused_entries.
  - now apply filter_unused_entries.
Qed.

End UnusedShape.

(** X4. With the "unused" severity set, a name that a document defines is
    reported unused there exactly when the reference query for that name
    comes back empty. *)
Theorem unused_iff_no_references (docs : Docs) (cfg : Config)
    (cur : ParsedDocument) (defs refs : ParsedDocument -> Store)
    (kind action : string) (severity : DiagnosticSeverity) (ranges : list Range) :
  actionUnusedSeverity cfg = Some severity ->
  JSMap.wf (defs cur) ->
  JSMap.get (defs cur) action = Some ranges -> ranges <> [] ->
  (forall url d, In (url, d) docs -> store_ok (refs d)) ->
  filter (is_unused_for kind action)
         (addReferenceDiagnostics docs cfg [] cur defs refs kind) <> []
  <-> getLocations docs action refs = [].
Proof.
  intros Hsev Hwf Hget Hne Hok.
  rewrite (unused_for_shape docs cfg cur defs refs kind action severity Hsev Hwf), Hget.
  rewrite (getLocations_nil_iff docs action refs Hok).
  destruct (found_in_docs docs refs action).
  - split; [congruence|discriminate].
  - split; [reflexivity|]. intros _. destruct ranges; [congruence|discriminate].
Qed.

Lemma unused_iff_no_references_witness :
  filter (is_unused_for "event" "save")
         (addReferenceDiagnostics (w_docs Sample.world1) Sample.config []
            Sample.parsed event_definitions event_references "event") <> []
  <-> getLocations (w_docs Sample.world1) "save" event_references = [].
Proof.
  apply (unused_iff_no_references (w_docs Sample.world1) Sample.config
           Sample.parsed event_definitions event_references "event" "save"
           Warning [Sample.save_range]).
  - reflexivity.
  - unfold JSMap.wf. vm_compute. repeat constructor; simpl; intuition discriminate.
  - reflexivity.
  - discriminate.
  - intros url d [[= <- <-]|[]] key rs [].
Defined.

(** ** Collecting names once *)

Section Dedup.

Context {B : Type}.
Variable keep : string -> bool.
Variable f : string -> B.
Variable step : list string * list B -> string -> list string * list B.

Hypothesis step_eq : forall seen out a,
  step (seen, out) a
  = if set_has seen a then (seen, out)
    else if keep a then ((seen ++ [a])%list, (out ++ [f a])%list)
    else (seen, out).

Lemma set_has_in (s : list string) (x : string) :
  set_has s x = true <-> In x s.
Proof.
  unfold set_has. rewrite existsb_exists. split.
  - intros (y & Hy & E). apply String.eqb_eq in E. now subst.
  - intros H. exists x. split; [exact H|apply String.eqb_refl].
Qed.

Lemma dedup_fold (out0 : list B) (names : list string) :
  forall seen,
    NoDup seen ->
    let r := fold_left step names (seen, (out0 ++ map f seen)%list) in
    snd r = (out0 ++ map f (fst r))%list /\ NoDup (fst r) /\
    forall n, In n (fst r) <-> In n seen \/ (In n names /\ keep n = true).
Proof.
  induction names as [|a names IH]; intros seen Hnd; cbn [fold_left].
  - cbn [fst snd]. split; [auto|split; [auto|]]. intros n. simpl. tauto.
  - rewrite step_eq.
    destruct (set_has seen a) eqn:Hhas.
    + destruct (IH seen Hnd) as (H1 & H2 & H3). split; [auto|split; [auto|]].
      intros n. rewrite H3. apply set_has_in in Hhas. cbn [In].
      intuition (subst; auto).
    + destruct (keep a) eqn:Hk.
      * assert (Hnd' : NoDup (seen ++ [a])).
        { apply NoDup_app; [exact Hnd|repeat constructor; intros []|].
          intros x Hx [<-|[]]. apply set_has_in in Hx. congruence. }
        pose proof (IH (seen ++ [a])%list Hnd') as IH'.
        rewrite map_app, app_assoc in IH'. cbn [map] in IH'.
        destruct IH' as (H1 & H2 & H3). split; [auto|split; [auto|]].
        intros n. rewrite H3, in_app_iff. cbn [In].
        intuition (subst; auto).
      * destruct (IH seen Hnd) as (H1 & H2 & H3). split; [auto|split; [auto|]].
        intros n. rewrite H3. cbn [In]. intuition (subst; auto; congruence).
Qed.

Lemma fold_left_concat_map {S A C : Type} (g : S -> A -> S) (h : C -> list A)
    (cs : list C) :
  forall acc,
    fold_left (fun acc c => fold_left g (h c) acc) cs acc
    = fold_left g (List.concat (map h cs)) acc.
Proof.
  induction cs as [|c cs IH]; intros acc; [reflexivity|].
  cbn [fold_left map List.concat]. now rewrite fold_left_app, IH.
Qed.

End Dedup.

(** X5. The values offered for a reference attribute are the converted
    names of the chosen tables, each name once, and a name is offered
    exactly when some tracked document has it in that table. *)
Theorem provideActionValues_distinct {V : Type} (docs : Docs)
    (resolver : ParsedDocument -> Store) (converter : string -> V) :
  exists names,
    provideActionValues docs resolver converter = map converter names /\
    NoDup names /\
    forall n, In n names <->
              exists url cur, In (url, cur) docs /\
                              JSMap.has (resolver cur) n = true.
Proof.
  unfold provideActionValues.
  set (step := fun (acc : list string * list V) (action : string) =>
                 let '(seen, result) := acc in
                 if negb (set_has seen action)
                 then (set_add seen action, push result (converter action))
                 else (seen, result)).
  assert (Hstep : forall seen out a,
    step (seen, out) a
    = if set_has seen a then (seen, out)
      else if true then ((seen ++ [a])%list, (out ++ [converter a])%list)
      else (seen, out)).
  { intros seen out a. unfold step, set_add, push.
    destruct (set_has seen a); reflexivity. }
  change (fold_left _ (JSMap.values docs) ([], []))
    with (fold_left (fun acc cur => fold_left step (JSMap.keys (resolver cur)) acc)
            (JSMap.values docs) ([], [])).
  rewrite (fold_left_concat_map step (fun cur => JSMap.keys (resolver cur))).
  destruct (dedup_fold (fun _ => true) converter step Hstep []
              (List.concat (map (fun cur => JSMap.keys (resolver cur))
                              (JSMap.values docs))) [] (NoDup_nil _))
    as (H1 & H2 & H3).
  cbn [map app] in *.
  eexists. split; [exact H1|]. split; [exact H2|].
  intros n. rewrite H3. split.
  - intros [[]|[Hin _]]. apply in_concat in Hin as (l & Hl & Hn).
    apply in_map_iff in Hl as (cur & <- & Hcur).
    apply values_in in Hcur as [url Hcur].
    exists url, cur. split; [exact Hcur|]. now apply has_in_keys.
  - intros (url & cur & Hcur & Hhas). right. split; [|reflexivity].
    apply in_concat. exists (JSMap.keys (resolver cur)). split.
    + apply in_map_iff. exists cur. split; [reflexivity|].
      now apply (in_values docs url).
    + now apply has_in_keys.
Qed.

(** X6. The completion items added for actions come after the items that
    were there, one per name and without repeats, and a name is suggested
    exactly when some tracked document defines it: a name that is only
    referenced is never suggested. *)
Theorem addCompletions_defined_once (docs : Docs)
    (completions : list CompletionItem)
    (definitionsGetter referencesGetter : ParsedDocument -> Store)
    (r : Range) (valueGetter : string -> ValueData) :
  exists names,
    addCompletions docs completions definitionsGetter referencesGetter r valueGetter
    = (completions ++ map (fun n => action_item n r (valueGetter n)) names)%list /\
    NoDup names /\
    forall n, In n names <->
              exists url cur, In (url, cur) docs /\
                              JSMap.has (definitionsGetter cur) n = true.
Proof.
  unfold addCompletions.
  set (step := addCompletions_step docs definitionsGetter r valueGetter).
  assert (Hstep : forall seen out a,
    step (seen, out) a
    = if set_has seen a then (seen, out)
      else if found_in_docs docs definitionsGetter a
           then ((seen ++ [a])%list, (out ++ [action_item a r (valueGetter a)])%list)
           else (seen, out)).
  { intros seen out a. unfold step, addCompletions_step, set_add, push.
    rewrite getExistingActionValue_found.
    destruct (set_has seen a); [reflexivity|].
    destruct (found_in_docs docs definitionsGetter a); reflexivity. }
  rewrite (fold_left_concat_map step
             (fun cur =>
                combineIterators
                  [JSMap.keys (definitionsGetter cur);
                   JSMap.keys (referencesGetter cur)])).
  pose proof (dedup_fold (found_in_docs docs definitionsGetter)
                (fun n => action_item n r (valueGetter n)) step Hstep completions
                (List.concat
                   (map (fun cur =>
                           combineIterators
                             [JSMap.keys (definitionsGetter cur);
                              JSMap.keys (referencesGetter cur)])
                        (JSMap.values docs))) [] (NoDup_nil _)) as H.
  cbn [map] in H. rewrite app_nil_r in H. destruct H as (H1 & H2 & H3).
  eexists. split; [exact H1|]. split; [exact H2|].
  intros n. rewrite H3. split.
  - intros [[]|[_ Hf]]. now apply found_in_docs_true in Hf.
  - intros (url & cur & Hcur & Hhas). right. split.
    + apply in_concat.
      exists (combineIterators [JSMap.keys (definitionsGetter cur);
                                JSMap.keys (referencesGetter cur)]).
      split.
      * apply in_map_iff. exists cur. split; [reflexivity|].
        now apply (in_values docs url).
      * unfold combineIterators. cbn [List.concat]. apply in_app_iff. left.
        now apply has_in_keys.
    + apply found_in_docs_true. eauto.
Qed.

(** ** The workspace table under its handlers *)

Section TableFacts.

Lemma has_set_same {V : Type} (m : JSMap.t V) (k : string) (v : V) :
  JSMap.has (JSMap.set m k v) k = true.
Proof. unfold JSMap.has. now rewrite get_set_same. Qed.

Lemma delete_absent {V : Type} (m : JSMap.t V) (k : string) :
  JSMap.has m k = false -> JSMap.delete m k = m.
Proof.
  unfold JSMap.has. induction m as [|[k' v'] m IH]; cbn [JSMap.get JSMap.delete];
    [reflexivity|].
  destruct (String.eqb k' k); [discriminate|]. intros H. now rewrite IH.
Qed.

Lemma delete_set_absent {V : Type} (m : JSMap.t V) (k : string) (v : V) :
  JSMap.has m k = false -> JSMap.delete (JSMap.set m k v) k = m.
Proof.
  unfold JSMap.has.
  induction m as [|[k' v'] m IH]; cbn [JSMap.get JSMap.set JSMap.delete].
  - now rewrite String.eqb_refl.
  - destruct (String.eqb k' k) eqn:E; [discriminate|].
    cbn [JSMap.delete]. rewrite E. intros H. now rewrite IH.
Qed.

End TableFacts.

(** X7. Deleting a document removes its entry and nothing else from the
    table and leaves the state of the shared pattern alone; deleting an
    identity that is not tracked leaves the table as it is. *)
Theorem onDidDelete_removes (w : World) (url : string) :
  JSMap.wf (w_docs w) ->
  let w' := onDidDelete w url in
  JSMap.get (w_docs w') url = None /\
  (forall k, k <> url -> JSMap.get (w_docs w') k = JSMap.get (w_docs w) k) /\
  JSMap.wf (w_docs w') /\
  w_lastIndex w' = w_lastIndex w /\
  (JSMap.has (w_docs w) url = false -> w_docs w' = w_docs w).
Proof.
  intros Hwf. cbn zeta. unfold onDidDelete. cbn [w_docs w_lastIndex].
  split; [now apply get_delete_same|].
  split; [intros k Hk; now apply get_delete_other|].
  split; [now apply delete_wf|].
  split; [reflexivity|apply delete_absent].
Qed.

Lemma onDidDelete_removes_witness :
  JSMap.get (w_docs (onDidDelete Sample.world1 "file:///a.html")) "file:///a.html"
  = None.
Proof.
  apply (onDidDelete_removes Sample.world1 "file:///a.html" sample_docs_wf).
Defined.

(** X8. Creating a document that was not tracked and then deleting it
    gives back the table there was, in the same order, and the diagnostics
    published are those of a resolver pass over that table, whether or not
    the filters let the document in. *)
Theorem create_then_delete
    (service_parseHTMLDocument : LSTextDocument -> HTMLDocument)
    (parseNodeAttrs : LSTextDocument -> Node -> list Attr)
    (matchesGlob : string -> string -> bool)
    (w : World) (d : TextDocument) :
  JSMap.has (w_docs w) (uri d) = false ->
  let w' :=
    onDidDelete
      (onDidCreateDoc service_parseHTMLDocument parseNodeAttrs matchesGlob w d)
      (uri d) in
  w_docs w' = w_docs w /\
  w_diagnosticCollection w' = updateDiagnosticCollection (w_docs w) (w_config w) /\
  w_config w' = w_config w.
Proof.
  intros Hhas. cbn zeta. unfold onDidDelete, onDidCreateDoc, setDocs.
  rewrite Hhas. cbn [Bool.eqb negb].
  destruct (_ || _).
  - cbn [w_docs w_config w_diagnosticCollection].
    rewrite (delete_absent _ _ Hhas). auto.
  - destruct (parseHTMLDocument _ _ _ _ _) as [parsed li].
    cbn [w_docs w_config w_diagnosticCollection].
    rewrite (delete_set_absent _ _ _ Hhas). auto.
Qed.

Lemma create_then_delete_witness :
  w_docs
    (onDidDelete
       (onDidCreateDoc Sample.service_parseHTMLDocument Sample.parseNodeAttrs
          Sample.matchesGlob Sample.world0 Sample.document)
       (uri Sample.document))
  = w_docs Sample.world0.
Proof.
  apply (create_then_delete Sample.service_parseHTMLDocument Sample.parseNodeAttrs
           Sample.matchesGlob Sample.world0 Sample.document).
  reflexivity.
Defined.

(** X9. A document-created notification is idempotent: delivering it a
    second time right after the first changes nothing, whether the first
    one added the document, found it already tracked, or was turned down
    by the filters. *)
Theorem onDidCreateDoc_idempotent
    (service_parseHTMLDocument : LSTextDocument -> HTMLDocument)
    (parseNodeAttrs : LSTextDocument -> Node -> list Attr)
    (matchesGlob : string -> string -> bool)
    (w : World) (d : TextDocument) :
  let create :=
    onDidCreateDoc service_parseHTMLDocument parseNodeAttrs matchesGlob in
  create (create w d) d = create w d.
Proof.
  cbn zeta. unfold onDidCreateDoc.
  set (w1 := setDocs service_parseHTMLDocument parseNodeAttrs matchesGlob w d false).
  assert (H : JSMap.has (w_docs w1) (uri d) = true \/ w1 = w).
  { unfold w1, setDocs.
    destruct (JSMap.has (w_docs w) (uri d)) eqn:Hhas; cbn [Bool.eqb negb];
      [now left|].
    destruct (_ || _); [now right|].
    destruct (parseHTMLDocument _ _ _ _ _) as [parsed li].
    left. cbn [w_docs]. apply has_set_same. }
  destruct H as [H|H].
  - unfold setDocs at 1. now rewrite H.
  - rewrite H at 1. reflexivity.
Qed.

(** ** What is published *)

Section Published.

Lemma fold_set_fresh {X V : Type} (k : X -> string) (v : X -> V) (l : list X) :
  forall c0 : JSMap.t V,
    NoDup (map k l) ->
    (forall x, In x l -> ~ In (k x) (JSMap.keys c0)) ->
    fold_left (fun c x => JSMap.set c (k x) (v x)) l c0
    = (c0 ++ map (fun x => (k x, v x)) l)%list.
Proof.
  assert (Hset : forall (c : JSMap.t V) key val,
             ~ In key (JSMap.keys c) -> JSMap.set c key val = (c ++ [(key, val)])%list).
  { induction c as [|[k' v'] c IH]; intros key val Hn; [reflexivity|].
    cbn [JSMap.set app]. cbn [JSMap.keys map fst In] in Hn.
    destruct (String.eqb_spec k' key) as [->|_]; [tauto|].
    rewrite IH; [reflexivity|]. unfold JSMap.keys. tauto. }
  induction l as [|x l IH]; intros c0 Hnd Hfresh; cbn [fold_left map].
  - now rewrite app_nil_r.
  - cbn [map] in Hnd. inversion Hnd as [|? ? Hx Hnd']; subst.
    rewrite Hset by (apply Hfresh; now left).
    rewrite IH; [now rewrite <- app_assoc| exact Hnd' |].
    intros y Hy. unfold JSMap.keys. rewrite map_app, in_app_iff. cbn [map fst In].
    intros [H|[H|[]]].
    + apply (Hfresh y); [now right|exact H].
    + apply Hx. rewrite H. now apply in_map.
Qed.

End Published.

(** X10. When the tracked documents have pairwise different identities,
    the collection published by a resolver pass has one entry per tracked
    document, in table order: its cross-document diagnostics followed by
    its cached local diagnostics; so that is what is looked up for a
    tracked document. *)
Theorem published_diagnostics (docs : Docs) (cfg : Config) :
  NoDup (map (fun cur => uri (doc cur)) (JSMap.values docs)) ->
  updateDiagnosticCollection docs cfg
  = map (fun cur =>
           (uri (doc cur),
            (reference_diagnostics docs cfg cur ++ diagnostics cur)%list))
        (JSMap.values docs) /\
  forall url cur,
    In (url, cur) docs ->
    JSMap.get (updateDiagnosticCollection docs cfg) (uri (doc cur))
    = Some (reference_diagnostics docs cfg cur ++ diagnostics cur)%list.
Proof.
  intros Hnd.
  assert (Heq : updateDiagnosticCollection docs cfg
                = map (fun cur =>
                         (uri (doc cur),
                          (reference_diagnostics docs cfg cur ++ diagnostics cur)%list))
                      (JSMap.values docs)).
  { unfold updateDiagnosticCollection.
    rewrite (fold_set_fresh (fun cur => uri (doc cur))
               (fun cur => (reference_diagnostics docs cfg cur ++ diagnostics cur)%list)
               (JSMap.values docs) JSMap.empty Hnd); [reflexivity|].
    intros x _ []. }
  split; [exact Heq|].
  intros url cur Hin. rewrite Heq. apply in_get_wf.
  - unfold JSMap.wf, JSMap.keys. rewrite map_map. exact Hnd.
  - apply in_map_iff. exists cur. split; [reflexivity|].
    now apply (in_values docs url).
Qed.

Lemma published_diagnostics_witness :
  JSMap.get (updateDiagnosticCollection (w_docs Sample.world1) Sample.config)
    (uri (doc Sample.parsed))
  = Some (reference_diagnostics (w_docs Sample.world1) Sample.config Sample.parsed
          ++ diagnostics Sample.parsed)%list.
Proof.
  destruct (published_diagnostics (w_docs Sample.world1) Sample.config) as [_ H].
  - vm_compute. repeat constructor. intros [].
  - apply (H "file:///a.html"). left. reflexivity.
Defined.

Section CleanFacts.

Variable docs : Docs.

Lemma emitted_nil_iff (cur : ParsedDocument) (left right : ParsedDocument -> Store)
    (kind : string) (tpl : (string -> string) -> string)
    (severity : DiagnosticSeverity) (tags : option (list DiagnosticTag)) :
  store_ok (left cur) ->
  emitted docs cur left right kind tpl severity tags = [] <->
  forall n, JSMap.has (left cur) n = true -> found_in_docs docs right n = true.
Proof.
  intros Hok. split.
  - intros Hnil n Hhas.
    destruct (found_in_docs docs right n) eqn:Hf; [reflexivity|exfalso].
    unfold JSMap.has in Hhas.
    destruct (JSMap.get (left cur) n) as [rs|] eqn:Hget; [|discriminate].
    apply get_some_in in Hget. destruct (Hok n rs Hget) as [_ Hne].
    destruct rs as [|r rs]; [congruence|].
    assert (Hd : In (partial_diagnostic kind tpl severity tags n r)
                    (emitted docs cur left right kind tpl severity tags)).
    { apply in_emitted. exists n, (r :: rs), r. repeat split; auto. now left. }
    rewrite Hnil in Hd. destruct Hd.
  - intros Hall.
    destruct (emitted docs cur left right kind tpl severity tags) as [|d ds] eqn:E;
      [reflexivity|exfalso].
    assert (Hd : In d (emitted docs cur left right kind tpl severity tags))
      by (rewrite E; now left).
    apply in_emitted in Hd as (a & rs & r & Hin & Hf & _).
    assert (Hhas : JSMap.has (left cur) a = true).
    { apply has_in_keys. change a with (fst (a, rs)). now apply in_map. }
    rewrite (Hall a Hhas) in Hf. discriminate.
Qed.

End CleanFacts.

(** X11. With both severities set and no empty list of ranges in the two
    tables of a document, the resolver emits nothing for that document and
    kind exactly when every name it defines is referenced by some tracked
    document and every name it references is defined by some tracked
    document. *)
Theorem clean_iff_consistent (docs : Docs) (cfg : Config) (cur : ParsedDocument)
    (defs refs : ParsedDocument -> Store) (kind : string)
    (s1 s2 : DiagnosticSeverity) :
  actionUnusedSeverity cfg = Some s1 ->
  actionUndefinedSeverity cfg = Some s2 ->
  store_ok (defs cur) -> store_ok (refs cur) ->
  addReferenceDiagnostics docs cfg [] cur defs refs kind = [] <->
  (forall n, JSMap.has (defs cur) n = true ->
             exists url d, In (url, d) docs /\ JSMap.has (refs d) n = true) /\
  (forall n, JSMap.has (refs cur) n = true ->
             exists url d, In (url, d) docs /\ JSMap.has (defs d) n = true).
Proof.
  intros H1 H2 Hd Hr. unfold addReferenceDiagnostics. rewrite H1, H2.
  rewrite !addPartialReferenceDiagnostics_emitted, app_nil_l.
  split.
  - intros [Hu Hv]%app_eq_nil.
    rewrite (emitted_nil_iff docs cur defs refs _ _ _ _ Hd) in Hu.
    rewrite (emitted_nil_iff docs cur refs defs _ _ _ _ Hr) in Hv.
    split; intros n Hn; apply found_in_docs_true; auto.
  - intros [Hu Hv].
    assert (E1 : emitted docs cur defs refs kind UNUSED_TPL s1
                   (if severity_eqb s1 Warning then Some [Unnecessary] else None) = []).
    { apply (emitted_nil_iff docs cur defs refs _ _ _ _ Hd).
      intros n Hn. apply found_in_docs_true. auto. }
    assert (E2 : emitted docs cur refs defs kind UNDECLARED_TPL s2 None = []).
    { apply (emitted_nil_iff docs cur refs defs _ _ _ _ Hr).
      intros n Hn. apply found_in_docs_true. auto. }
    now rewrite E1, E2.
Qed.

Lemma clean_iff_consistent_witness :
  addReferenceDiagnostics [("file:///a.html", linked_document)] Sample.config []
    linked_document event_definitions event_references "event" = [] <->
  (forall n, JSMap.has (event_definitions linked_document) n = true ->
             exists url d, In (url, d) [("file:///a.html", linked_document)] /\
                           JSMap.has (event_references d) n = true) /\
  (forall n, JSMap.has (event_references linked_document) n = true ->
             exists url d, In (url, d) [("file:///a.html", linked_document)] /\
                           JSMap.has (event_definitions d) n = true).
Proof.
  apply (clean_iff_consistent [("file:///a.html", linked_document)] Sample.config
           linked_document event_definitions event_references "event" Warning Error).
  - reflexivity.
  - reflexivity.
  - intros key rs [[= <- <-]|[]]. split; discriminate.
  - intros key rs [[= <- <-]|[]]. split; discriminate.
Defined.

Section UndefinedPass.

Variable docs : Docs.

Lemma filter_unused_by_undeclared (cur : ParsedDocument)
    (left right : ParsedDocument -> Store) (kind action : string) severity tags :
  filter (is_undeclared_for kind action)
         (emitted docs cur left right kind UNUSED_TPL severity tags) = [].
Proof.
  apply filter_none. intros d (a & rs & r & _ & _ & _ & ->)%in_emitted.
  unfold is_undeclared_for. rewrite partial_diagnostic_message.
  apply String.eqb_neq. apply unused_not_undeclared.
Qed.

Lemma filter_undeclared_entries (right : ParsedDocument -> Store)
    (kind action : string) severity tags (entries : Store) :
  JSMap.wf entries ->
  filter (is_undeclared_for kind action)
    (flat_map
       (fun entry =>
          if found_in_docs docs right (fst entry) then []
          else map (partial_diagnostic kind UNDECLARED_TPL severity tags (fst entry))
                   (snd entry))
       entries)
  = match JSMap.get entries action with
    | Some ranges =>
        if found_in_docs docs right action then []
        else map (partial_diagnostic kind UNDECLARED_TPL severity tags action) ranges
    | None => []
    end.
Proof.
  unfold JSMap.wf. induction entries as [|[a rs] entries IH]; intros Hnd;
    [reflexivity|].
  inversion Hnd as [|? ? Hnotin Hnd']; subst.
  cbn [flat_map fst snd JSMap.get]. rewrite filter_app, (IH Hnd').
  destruct (String.eqb_spec a action) as [->|Hne].
  - apply get_none_not_in in Hnotin. rewrite Hnotin, app_nil_r.
    destruct (found_in_docs docs right action); [reflexivity|].
    apply filter_all. intros d (r & <- & _)%in_map_iff.
    unfold is_undeclared_for. rewrite partial_diagnostic_message.
    apply String.eqb_refl.
  - replace (filter _ (if found_in_docs docs right a then [] else _))
      with (@nil Diagnostic); [reflexivity|].
    symmetry. destruct (found_in_docs docs right a); [reflexivity|].
    apply filter_none. intros d (r & <- & _)%in_map_iff.
    unfold is_undeclared_for. rewrite partial_diagnostic_message.
    apply String.eqb_neq. intros E. apply Hne. exact (undeclared_message_inj _ _ _ E).
Qed.

End UndefinedPass.

(** X12. The undefined pass.  With the "undefined" severity set, a name of
    a document's reference table that no tracked document defines gets
    exactly one diagnostic per stored reference range, in order, at that
    severity, from source KEML and without any tag, whatever the severity;
    a name that some tracked document defines gets none; and with the
    severity disabled no such diagnostic is emitted. *)
Theorem undefined_pass (docs : Docs) (cfg : Config) (cur : ParsedDocument)
    (defs refs : ParsedDocument -> Store) (kind action : string) :
  let out := addReferenceDiagnostics docs cfg [] cur defs refs kind in
  let undefined_for := filter (is_undeclared_for kind action) out in
  (forall severity ranges,
      actionUndefinedSeverity cfg = Some severity ->
      JSMap.wf (refs cur) ->
      JSMap.get (refs cur) action = Some ranges ->
      (forall url d, In (url, d) docs -> JSMap.has (defs d) action = false) ->
      undefined_for
      = map (fun r =>
               mkDiagnostic r (undeclared_message kind action) severity
                 (Some "KEML") None)
            ranges) /\
  ((exists url d, In (url, d) docs /\ JSMap.has (defs d) action = true) ->
   undefined_for = []) /\
  (actionUndefinedSeverity cfg = None -> undefined_for = []).
Proof.
  cbn zeta.
  assert (Hout : addReferenceDiagnostics docs cfg [] cur defs refs kind
    = ((match actionUnusedSeverity cfg with
        | Some s => emitted docs cur defs refs kind UNUSED_TPL s
                      (if severity_eqb s Warning then Some [Unnecessary] else None)
        | None => []
        end)
       ++ match actionUndefinedSeverity cfg with
          | Some s => emitted docs cur refs defs kind UNDECLARED_TPL s None
          | None => []
          end)%list).
  { unfold addReferenceDiagnostics.
    destruct (actionUnusedSeverity cfg); destruct (actionUndefinedSeverity cfg);
      rewrite ?addPartialReferenceDiagnostics_emitted, ?app_nil_l, ?app_nil_r;
      reflexivity. }
  rewrite Hout, filter_app.
  assert (Hu : filter (is_undeclared_for kind action)
                 match actionUnusedSeverity cfg with
                 | Some s => emitted docs cur defs refs kind UNUSED_TPL s
                               (if severity_eqb s Warning then Some [Unnecessary]
                                else None)
                 | None => []
                 end = []).
  { destruct (actionUnusedSeverity cfg); [apply filter_unused_by_undeclared|reflexivity]. }
  rewrite Hu, app_nil_l. split; [|split].
  - intros severity ranges Hsev Hwf Hget Hundef. rewrite Hsev.
    unfold emitted. rewrite (filter_undeclared_entries docs defs _ _ _ _ _ Hwf), Hget.
    apply found_in_docs_false in Hundef. rewrite Hundef. reflexivity.
  - intros Hdef. apply found_in_docs_true in Hdef.
    destruct (actionUndefinedSeverity cfg) as [s|]; [|reflexivity].
    apply filter_none. intros d (a & rs & r & _ & Hf & _ & ->)%in_emitted.
    unfold is_undeclared_for. rewrite partial_diagnostic_message.
    apply String.eqb_neq. intros E. apply undeclared_message_inj in E. subst a.
    congruence.
  - intros ->. reflexivity.
Qed.

Lemma undefined_pass_witness :
  filter (is_undeclared_for "event" "load")
    (addReferenceDiagnostics [("file:///a.html", dangling_document)] Sample.config []
       dangling_document event_definitions event_references "event")
  = [mkDiagnostic (mkRange (mkPosition 2 9) (mkPosition 2 13))
       (undeclared_message "event" "load") Error (Some "KEML") None].
Proof.
  destruct (undefined_pass [("file:///a.html", dangling_document)] Sample.config
              dangling_document event_definitions event_references "event" "load")
    as [H _].
  apply (H Error [mkRange (mkPosition 2 9) (mkPosition 2 13)]).
  - reflexivity.
  - unfold JSMap.wf. vm_compute. repeat constructor. intros [].
  - reflexivity.
  - intros url d [[= <- <-]|[]]. reflexivity.
Defined.

(** ** What the checks of the parser leave alone *)

Section CheckFrames.

Lemma addDependsDiagnostic_extends (ds : list Diagnostic)
    (attrs : list (string * option string)) (r : Range)
    (name depends article : string) :
  exists extra,
    addDependsDiagnostic ds attrs r name depends article = (ds ++ extra)%list /\
    Forall local_diagnostic_ok extra.
Proof.
  unfold addDependsDiagnostic. destruct (_ || _).
  - exists []. split; [now rewrite app_nil_r|constructor].
  - eexists [_]. split; [reflexivity|].
    constructor; [|constructor]. split; [reflexivity|]. left. split; reflexivity.
Qed.

Lemma frames_refl (st : ParseState) : frames st st.
Proof. split; [reflexivity|]. exists []. split; [now rewrite app_nil_r|constructor]. Qed.

Lemma frames_trans (a b c : ParseState) : frames a b -> frames b c -> frames a c.
Proof.
  intros [T1 (e1 & D1 & F1)] [T2 (e2 & D2 & F2)]. split; [congruence|].
  exists (e1 ++ e2)%list. split.
  - rewrite D2, D1. now rewrite app_assoc.
  - apply Forall_app. auto.
Qed.

Lemma frames_depends (st : ParseState) (attrs : list (string * option string))
    (r : Range) (name depends article : string) :
  frames st
    (with_diagnostics st
       (addDependsDiagnostic (ps_diagnostics st) attrs r name depends article)).
Proof.
  split; [reflexivity|].
  destruct (addDependsDiagnostic_extends (ps_diagnostics st) attrs r name depends
              article) as (extra & E & F).
  exists extra. cbn [with_diagnostics ps_diagnostics]. auto.
Qed.

Lemma frames_push (st : ParseState) (d : Diagnostic) :
  local_diagnostic_ok d ->
  frames st (with_diagnostics st (push (ps_diagnostics st) d)).
Proof.
  intros Hd. split; [reflexivity|]. exists [d]. split; [reflexivity|].
  constructor; [exact Hd|constructor].
Qed.

Lemma check_reference_frames (st : ParseState) (a : Attr) :
  frames st (check_reference st a).
Proof.
  unfold check_reference. destruct (_ || _); [|apply frames_refl].
  destruct (String.eqb (value a) "").
  - apply frames_push. split; [reflexivity|]. left. split; reflexivity.
  - destruct (END_SPACE_PATTERN_test (value a)); [|apply frames_refl].
    apply frames_push. split; [reflexivity|]. right. split; reflexivity.
Qed.

Lemma check_event_filter_frames attrs (st : ParseState) (a : Attr) :
  frames st (check_event_filter attrs st a).
Proof.
  unfold check_event_filter. destruct (isEventFilter (name a));
    [apply frames_depends|apply frames_refl].
Qed.

Lemma check_on_dependent_frames tg attrs (st : ParseState) (a : Attr) :
  frames st (check_on_dependent tg attrs st a).
Proof.
  unfold check_on_dependent. destruct (isTagOnDependent tg (name a));
    [apply frames_depends|apply frames_refl].
Qed.

Lemma check_position_frames attrs (st : ParseState) (a : Attr) :
  frames st (check_position attrs st a).
Proof.
  unfold check_position. destruct (isPosition (name a)); [|apply frames_refl].
  eapply frames_trans; [apply (frames_depends st attrs (fullRange a) (name a) "render" "a")|].
  set (st1 := with_diagnostics st _).
  destruct (negb (JS.includes validPosition (value a))); [|apply frames_refl].
  destruct (InvalidPattern.test (ps_lastIndex st1) (value a)) as [found li].
  assert (H : frames st1 (with_lastIndex st1 li)).
  { split; [reflexivity|]. exists []. split; [now rewrite app_nil_r|constructor]. }
  destruct (negb found); [|exact H].
  eapply frames_trans; [exact H|].
  apply (frames_push (with_lastIndex st1 li)).
  split; [reflexivity|]. right. split; reflexivity.
Qed.

Lemma check_x_prefix_frames attrs (st : ParseState) (a : Attr) :
  frames st (check_x_prefix attrs st a).
Proof.
  unfold check_x_prefix. destruct (JS.startsWith (name a) "x-");
    [apply frames_depends|apply frames_refl].
Qed.

(** After the attribute has been filed, the checks keep the tables and
    only add well-shaped diagnostics. *)
Lemma parseAttr_frames tg attrs (st : ParseState) (a : Attr) :
  frames (record_action st a) (parseAttr tg attrs st a).
Proof.
  unfold parseAttr.
  eapply frames_trans; [apply check_reference_frames|].
  eapply frames_trans; [apply check_event_filter_frames|].
  eapply frames_trans; [apply check_on_dependent_frames|].
  eapply frames_trans; [apply check_position_frames|].
  apply check_x_prefix_frames.
Qed.

Lemma record_action_diagnostics (st : ParseState) (a : Attr) :
  ps_diagnostics (record_action st a) = ps_diagnostics st /\
  ps_lastIndex (record_action st a) = ps_lastIndex st.
Proof.
  unfold record_action.
  repeat match goal with
         | |- context [if ?b then _ else _] => destruct b
         end; split; reflexivity.
Qed.

End CheckFrames.

(** ** Invariants of the walk *)

Section WalkInvariant.

Variable parseNodeAttrs : LSTextDocument -> Node -> list Attr.
Variable P : ParseState -> Prop.
Hypothesis P_parseAttr :
  forall tg attrs st a, P st -> P (parseAttr tg attrs st a).

Lemma visit_nodes_invariant (td : LSTextDocument) (nodes : list Node) :
  forall acc, P (snd acc) ->
              P (snd (fold_left (visit_node parseNodeAttrs td) nodes acc)).
Proof.
  induction nodes as [|n nodes IH]; intros [stk s] Hs; [exact Hs|].
  cbn [fold_left]. apply IH. unfold visit_node. cbn [snd].
  generalize (parseNodeAttrs td n) as l. intros l. revert s Hs.
  induction l as [|a l IHl]; intros s Hs; [exact Hs|].
  cbn [fold_left]. apply IHl. now apply P_parseAttr.
Qed.

Lemma walk_invariant (td : LSTextDocument) (stack : list (list Node))
    (st : ParseState) :
  P st -> P (walk parseNodeAttrs td stack st).
Proof.
  funelim (walk parseNodeAttrs td stack st); intros Hok.
  - exact Hok.
  - apply H. now apply visit_nodes_invariant.
Qed.

End WalkInvariant.

(** X13. Every local diagnostic of a parsed document comes from the source
    KEML and is either a warning tagged "unnecessary" or an error without
    tags, whatever the tree, the attributes and the state of the shared
    pattern. *)
Theorem local_diagnostics_shape
    (service_parseHTMLDocument : LSTextDocument -> HTMLDocument)
    (parseNodeAttrs : LSTextDocument -> Node -> list Attr)
    (lastIndex : Z) (d : TextDocument) (td : LSTextDocument) :
  Forall local_diagnostic_ok
    (diagnostics
       (fst (parseHTMLDocument service_parseHTMLDocument parseNodeAttrs
               lastIndex d td))).
Proof.
  unfold parseHTMLDocument. cbn [fst diagnostics].
  apply (walk_invariant parseNodeAttrs
           (fun st => Forall local_diagnostic_ok (ps_diagnostics st))).
  - intros tg attrs st a Hst.
    destruct (parseAttr_frames tg attrs st a) as [_ (extra & E & F)].
    rewrite E. destruct (record_action_diagnostics st a) as [-> _].
    apply Forall_app. auto.
  - constructor.
Qed.

Lemma empty_reference_effect (tg : option string)
    (attrs : list (string * option string)) (st : ParseState) (a : Attr) :
  isReference (name a) = true -> value a = "" ->
  tables_of (parseAttr tg attrs st a) = tables_of st /\
  exists rest,
    ps_diagnostics (parseAttr tg attrs st a)
    = (ps_diagnostics st ++ no_action_diagnostic a :: rest)%list.
Proof.
  intros Href Hval.
  assert (Hrec : record_action st a = st).
  { unfold record_action. rewrite Hval.
    rewrite !addDefinitionRanges_empty, !addRange_empty_key.
    destruct st.
    repeat match goal with
           | |- context [if ?b then _ else _] => destruct b
           end; reflexivity. }
  unfold parseAttr. rewrite Hrec.
  assert (Hcheck : check_reference st a
                   = with_diagnostics st (push (ps_diagnostics st)
                                            (no_action_diagnostic a))).
  { unfold check_reference. unfold isReference in Href. rewrite Href, Hval.
    reflexivity. }
  rewrite Hcheck.
  set (st1 := with_diagnostics st _).
  assert (Hrest : frames st1
            (check_x_prefix attrs
               (check_position attrs
                  (check_on_dependent tg attrs
                     (check_event_filter attrs st1 a) a) a) a)).
  { eapply frames_trans; [apply check_event_filter_frames|].
    eapply frames_trans; [apply check_on_dependent_frames|].
    eapply frames_trans; [apply check_position_frames|].
    apply check_x_prefix_frames. }
  destruct Hrest as [Ht (extra & Hd & _)]. split; [exact Ht|].
  exists extra. rewrite Hd. unfold st1, push.
  cbn [with_diagnostics ps_diagnostics]. now rewrite <- app_assoc.
Qed.

(** X14. A reference attribute ([on], [reset], [if], [render] and their
    [x-] forms) with an empty value files nothing in any of the six tables
    and gets the "No action specified." warning on its full range, right
    after the diagnostics that were there. *)
Theorem empty_reference_warned (tg : option string)
    (attrs : list (string * option string)) (st : ParseState) (a : Attr) :
  isReference (name a) = true -> value a = "" ->
  tables_of (parseAttr tg attrs st a) = tables_of st /\
  exists rest,
    ps_diagnostics (parseAttr tg attrs st a)
    = (ps_diagnostics st ++ no_action_diagnostic a :: rest)%list.
Proof. exact (empty_reference_effect tg attrs st a). Qed.

Lemma empty_reference_warned_witness :
  tables_of
    (parseAttr (Some "div") [("on", None)] (initial_state 0)
       (mkAttr "on" "" 9 9 (mkRange (mkPosition 0 9) (mkPosition 0 9))
          (mkRange (mkPosition 0 5) (mkPosition 0 10))))
  = tables_of (initial_state 0).
Proof.
  apply (empty_reference_warned (Some "div") [("on", None)] (initial_state 0)
           (mkAttr "on" "" 9 9 (mkRange (mkPosition 0 9) (mkPosition 0 9))
              (mkRange (mkPosition 0 5) (mkPosition 0 10))));
    reflexivity.
Defined.

Lemma addRange_get_keys (store : Store) (key : string) (r : Range) :
  key <> "" ->
  JSMap.get (addRange store key r) key = appended (JSMap.get store key) [r] /\
  (forall k, k <> key -> JSMap.get (addRange store key r) k = JSMap.get store k) /\
  JSMap.keys (addRange store key r)
  = if JSMap.has store key then JSMap.keys store
    else (JSMap.keys store ++ [key])%list.
Proof.
  intros Hne. unfold addRange.
  destruct (String.eqb_spec key "") as [|_]; [contradiction|].
  unfold JSMap.has.
  destruct (JSMap.get store key) as [ranges|] eqn:E.
  - split; [apply get_set_same|]. split.
    + intros k Hk. now apply get_set_other.
    + rewrite keys_set. unfold JSMap.has. now rewrite E.
  - split; [apply get_set_same|]. split.
    + intros k Hk. now apply get_set_other.
    + rewrite keys_set. unfold JSMap.has. now rewrite E.
Qed.

(** X15. Recording a range under a non-empty key and looking the key up
    gives the ranges that were there followed by the new one; every other
    key is found as before, and the keys keep their order, a new key going
    last. *)
Theorem addRange_lookup (store : Store) (key : string) (r : Range) :
  key <> "" ->
  JSMap.get (addRange store key r) key = appended (JSMap.get store key) [r] /\
  (forall k, k <> key -> JSMap.get (addRange store key r) k = JSMap.get store k) /\
  JSMap.keys (addRange store key r)
  = if JSMap.has store key then JSMap.keys store
    else (JSMap.keys store ++ [key])%list.
Proof. exact (addRange_get_keys store key r). Qed.

Lemma addRange_lookup_witness :
  JSMap.get (addRange [("save", [Sample.save_range])] "save" Sample.save_range) "save"
  = Some [Sample.save_range; Sample.save_range].
Proof.
  apply (addRange_lookup [("save", [Sample.save_range])] "save" Sample.save_range).
  discriminate.
Defined.

Section DefinitionLookup.

Lemma appended_app (old : option (list Range)) (l1 l2 : list Range) :
  appended (appended old l1) l2 = appended old (l1 ++ l2).
Proof.
  destruct old as [o|]; cbn [appended].
  - now rewrite <- app_assoc.
  - destruct l1 as [|x l1]; cbn [appended app]; [reflexivity|].
    reflexivity.
Qed.

Lemma token_range_with (r : Range) (tok : ParsedToken) :
  range_with r
    (translate (range_start r) (characterDelta tok))
    (translate (range_start r) (characterDelta tok + JS.len (token tok)))
  = token_range r tok.
Proof.
  unfold range_with, new_Range, token_range, isBefore, translate.
  cbn [line character].
  rewrite Z.ltb_irrefl, Z.eqb_refl. cbn [orb andb].
  destruct (Z.ltb_spec (character (range_start r) + (characterDelta tok
                                                     + JS.len (token tok)))
                       (character (range_start r) + characterDelta tok))
    as [H|_]; [unfold JS.len in H; lia|reflexivity].
Qed.

Lemma definition_fold_lookup (r : Range) (k : string) (toks : list ParsedToken) :
  forall store,
    (forall tok, In tok toks -> token tok <> "") ->
    JSMap.get
      (fold_left
         (fun store tok =>
            addRange store (token tok)
              (range_with r
                 (translate (range_start r) (characterDelta tok))
                 (translate (range_start r)
                    (characterDelta tok + JS.len (token tok)))))
         toks store) k
    = appended (JSMap.get store k)
        (map (token_range r) (filter (fun tok => String.eqb (token tok) k) toks)).
Proof.
  induction toks as [|tok toks IH]; intros store Hne; cbn [fold_left filter map].
  - destruct (JSMap.get store k); cbn [appended]; [now rewrite app_nil_r|reflexivity].
  - rewrite IH by (intros t' Ht'; apply Hne; now right).
    rewrite token_range_with.
    assert (Htok : token tok <> "") by (apply Hne; now left).
    destruct (String.eqb_spec (token tok) k) as [<-|Hk].
    + destruct (addRange_get_keys store (token tok) (token_range r tok) Htok)
        as [-> _].
      cbn [map]. rewrite appended_app. reflexivity.
    + destruct (addRange_get_keys store (token tok) (token_range r tok) Htok)
        as (_ & Hother & _).
      rewrite Hother by congruence. reflexivity.
Qed.

End DefinitionLookup.

(** X16. After the definitions of an attribute value have been recorded,
    looking a name up gives the ranges that were there followed by one
    range per occurrence of the name among the tokens of the value, in
    order; each of these starts at the token's offset from the start of
    the value and is as long as the name. *)
Theorem addDefinitionRanges_lookup (lastIndex : Z) (store : Store)
    (value : string) (r : Range) (k : string) :
  JSMap.get (addDefinitionRanges lastIndex store value r) k
  = appended (JSMap.get store k)
      (map (token_range r)
         (filter (fun tok => String.eqb (token tok) k)
                 (parseTokens lastIndex value))).
Proof.
  unfold addDefinitionRanges. apply definition_fold_lookup.
  intros tok. apply parseTokens_nonempty.
Qed.

(** X17. For a name that starts with neither [h-] nor [x-], the [x-] form
    of the name depends on [on] exactly when the name itself does, on every
    tag (or on none). *)
Theorem isTagOnDependent_x_form (tag : option string) (n : string) :
  JS.startsWith n "h-" = false ->
  JS.startsWith n "x-" = false ->
  isOnDependent ("x-" ++ n) = isOnDependent n /\
  isTagOnDependent tag ("x-" ++ n) = isTagOnDependent tag n.
Proof.
  intros Hh Hx.
  assert (Hslice : JS.slice_from ("x-" ++ n) 2 = n)
    by exact (slice_from_tail "x-" n).
  assert (Hpre : JS.startsWith ("x-" ++ n) "x-" = true)
    by exact (prefix_app "x-" n).
  assert (Hon : isOnDependent ("x-" ++ n) = isOnDependent n).
  { unfold isOnDependent. rewrite Hpre, Hslice, Hh, Hx.
    unfold JS.includes, onDependentAttributes.
    cbn. now rewrite ?orb_false_r. }
  split; [exact Hon|].
  unfold isTagOnDependent. rewrite Hon, Hpre, Hslice, Hx.
  assert (Hget : JSMap.get onDependentTags ("x-" ++ n) = None)
    by (cbn; reflexivity).
  rewrite Hget.
  destruct (isOnDependent n); [reflexivity|].
  destruct (JSMap.get onDependentTags n); reflexivity.
Qed.

Lemma isTagOnDependent_x_form_witness :
  isTagOnDependent (Some "div") "x-href" = isTagOnDependent (Some "div") "href".
Proof.
  apply (isTagOnDependent_x_form (Some "div") "href"); reflexivity.
Defined.

(** ** The order of the traversal *)

Section Schedule.

Variable parseNodeAttrs : LSTextDocument -> Node -> list Attr.

Lemma Node_children_ind (P : Node -> Prop) :
  (forall n, Forall P (children n) -> P n) -> forall n, P n.
Proof.
  intros H. fix IH 1. intros [tg s e a cs]. apply H. cbn [children].
  induction cs as [|c cs IHcs]; constructor; [apply IH|exact IHcs].
Qed.

Lemma visited_after_children (n : Node) :
  visited_after n = visit_order (children n).
Proof. destruct n. reflexivity. Qed.

Lemma visit_nodes_schedule (td : LSTextDocument) (nodes : list Node) :
  forall stack st,
    fold_left (visit_node parseNodeAttrs td) nodes (stack, st)
    = ((rev (map children nodes) ++ stack)%list,
       fold_left (visit_attrs parseNodeAttrs td) nodes st).
Proof.
  induction nodes as [|n nodes IH]; intros stack st; [reflexivity|].
  cbn [fold_left map rev]. unfold visit_node at 2. rewrite IH.
  rewrite <- app_assoc. reflexivity.
Qed.

Lemma walk_schedule (td : LSTextDocument) (stack : list (list Node))
    (st : ParseState) :
  walk parseNodeAttrs td stack st
  = fold_left (visit_attrs parseNodeAttrs td)
      (List.concat (map visit_order stack)) st.
Proof.
  funelim (walk parseNodeAttrs td stack st); [reflexivity|].
  rewrite H. rewrite visit_nodes_schedule. cbn [fst snd map List.concat].
  rewrite map_app, concat_app, !fold_left_app.
  f_equal. unfold visit_order at 2. rewrite fold_left_app. f_equal.
  rewrite map_rev, map_map. f_equal. f_equal.
  apply map_ext. intros n. symmetry. apply visited_after_children.
Qed.

Lemma visit_order_permutation_aux (nodes : list Node) :
  Forall (fun n => Permutation (n :: visited_after n) (subtree n)) nodes ->
  Permutation (visit_order nodes) (document_order nodes).
Proof.
  unfold visit_order, document_order.
  induction 1 as [|n nodes Hn _ IH]; [constructor|].
  cbn [map rev List.concat]. rewrite concat_app. cbn [List.concat].
  rewrite app_nil_r.
  apply Permutation_trans
    with ((n :: visited_after n)
          ++ (nodes ++ List.concat (rev (map visited_after nodes))))%list.
  - cbn [app]. constructor. rewrite app_assoc.
    apply Permutation_app_comm.
  - now apply Permutation_app.
Qed.

Lemma visited_after_permutation (n : Node) :
  Permutation (n :: visited_after n) (subtree n).
Proof.
  induction n as [n IH] using Node_children_ind.
  rewrite visited_after_children.
  replace (subtree n) with (n :: document_order (children n))
    by (destruct n; reflexivity).
  constructor. now apply visit_order_permutation_aux.
Qed.

Lemma visit_attrs_lastIndex (td : LSTextDocument) (n : Node) (st : ParseState) :
  Forall (fun a => position_at_rest a = true) (parseNodeAttrs td n) ->
  ps_lastIndex st = 0 ->
  ps_lastIndex (visit_attrs parseNodeAttrs td st n) = 0.
Proof.
  unfold visit_attrs.
  generalize (match attributes n with Some a => a | None => [] end) as attrs.
  intros attrs H. revert st.
  induction H as [|a l Ha _ IH]; intros st Hst; [exact Hst|].
  cbn [fold_left]. apply IH.
  unfold parseAttr, check_x_prefix, check_position.
  unfold position_at_rest in Ha.
  set (st3 := check_on_dependent _ _ _ _).
  assert (H3 : ps_lastIndex st3 = 0).
  { unfold st3, check_on_dependent, check_event_filter, check_reference,
      record_action.
    repeat match goal with
           | |- context [if ?b then _ else _] => destruct b
           end; cbn [ps_lastIndex with_diagnostics]; exact Hst. }
  destruct (isPosition (name a)); cbn [negb orb] in Ha.
  - destruct (JS.includes validPosition (value a)); cbn [negb orb] in Ha.
    + destruct (JS.startsWith (name a) "x-");
        cbn [ps_lastIndex with_diagnostics]; exact H3.
    + cbn [ps_lastIndex with_diagnostics].
      rewrite (test_bracket_free _ _ Ha). cbn [negb].
      destruct (JS.startsWith (name a) "x-");
        cbn [ps_lastIndex with_diagnostics with_lastIndex]; reflexivity.
  - destruct (JS.startsWith (name a) "x-");
      cbn [ps_lastIndex with_diagnostics]; exact H3.
Qed.

End Schedule.

(** X18. The traversal goes through every node of the tree exactly once:
    it handles the attributes of the nodes in the order given by
    [visit_order] (siblings from left to right, then the children of the
    last sibling first), which is a rearrangement of the document order. *)
Theorem walk_visits_each_node_once
    (parseNodeAttrs : LSTextDocument -> Node -> list Attr)
    (td : LSTextDocument) (nodes : list Node) (st : ParseState) :
  walk parseNodeAttrs td [nodes] st
  = fold_left (visit_attrs parseNodeAttrs td) (visit_order nodes) st /\
  Permutation (visit_order nodes) (document_order nodes).
Proof.
  split.
  - rewrite walk_schedule. cbn [map List.concat]. now rewrite app_nil_r.
  - apply visit_order_permutation_aux.
    apply Forall_forall. intros n _. apply visited_after_permutation.
Qed.

(** X19. When every position attribute of the document has a value that is
    a valid position or has no bracket character, a parse that starts with
    the shared pattern at rest leaves it at rest, so parsing the document
    again gives the same result. *)
Theorem parse_repeatable
    (service_parseHTMLDocument : LSTextDocument -> HTMLDocument)
    (parseNodeAttrs : LSTextDocument -> Node -> list Attr)
    (d : TextDocument) (td : LSTextDocument) :
  Forall (fun n => Forall (fun a => position_at_rest a = true)
                          (parseNodeAttrs td n))
         (visit_order (roots (service_parseHTMLDocument td))) ->
  snd (parseHTMLDocument service_parseHTMLDocument parseNodeAttrs 0 d td) = 0 /\
  parseHTMLDocument service_parseHTMLDocument parseNodeAttrs
    (snd (parseHTMLDocument service_parseHTMLDocument parseNodeAttrs 0 d td))
    d td
  = parseHTMLDocument service_parseHTMLDocument parseNodeAttrs 0 d td.
Proof.
  intros Hrest.
  assert (H0 : snd (parseHTMLDocument service_parseHTMLDocument
                      parseNodeAttrs 0 d td) = 0).
  { unfold parseHTMLDocument. cbn [snd].
    rewrite walk_schedule. cbn [map List.concat]. rewrite app_nil_r.
    assert (Hst : ps_lastIndex (initial_state 0) = 0) by reflexivity.
    revert Hst. generalize (initial_state 0) as st.
    induction Hrest as [|n l Hn _ IH]; intros st Hst; [exact Hst|].
    cbn [fold_left]. apply IH. now apply visit_attrs_lastIndex. }
  split; [exact H0|]. now rewrite H0.
Qed.

Lemma parse_repeatable_witness :
  snd (parseHTMLDocument Sample.service_parseHTMLDocument
         (fun _ _ =>
            [Sample.on_click_attr;
             mkAttr "position" "sideways" 18 26
               (mkRange (Sample.at_ 0 18) (Sample.at_ 0 26))
               (mkRange (Sample.at_ 0 8) (Sample.at_ 0 27))])
         0 Sample.document Sample.ls_document) = 0.
Proof.
  apply (parse_repeatable Sample.service_parseHTMLDocument
           (fun _ _ =>
              [Sample.on_click_attr;
               mkAttr "position" "sideways" 18 26
                 (mkRange (Sample.at_ 0 18) (Sample.at_ 0 26))
                 (mkRange (Sample.at_ 0 8) (Sample.at_ 0 27))])
           Sample.document Sample.ls_document).
  repeat constructor.
Defined.

(** ** Attribute extraction *)

Section ExtractorFacts.

Import Extractor.

Lemma is_quote_not_whitespace (c : ascii) :
  is_quote c = true -> is_whitespace c = false.
Proof.
  unfold is_quote. intros H. apply orb_true_iff in H.
  destruct H as [H|H]; apply Ascii.eqb_eq in H; subst c; reflexivity.
Qed.

Lemma head_match_quoted (ws : string) (q : ascii) (rest : string) :
  forall n, all_whitespace ws = true -> is_quote q = true ->
            head_match (ws ++ String q rest) n = n + JS.len ws + 1.
Proof.
  induction ws as [|c ws IH]; intros n Hws Hq; cbn [append head_match].
  - rewrite Hq. unfold JS.len. cbn [String.length]. lia.
  - cbn [all_whitespace] in Hws. apply andb_true_iff in Hws.
    destruct Hws as [Hc Hws].
    destruct (is_quote c) eqn:Q.
    + apply is_quote_not_whitespace in Q. congruence.
    + rewrite Hc, IH by assumption. unfold JS.len. cbn [String.length]. lia.
Qed.

Lemma head_match_unquoted (s : string) :
  forall n, has_quote s = false -> head_match s n = 0.
Proof.
  induction s as [|c s IH]; intros n H; cbn [head_match]; [reflexivity|].
  cbn [has_quote] in H. apply orb_false_iff in H. destruct H as [Hc Hs].
  rewrite Hc. destruct (is_whitespace c); [now apply IH|reflexivity].
Qed.

Lemma all_whitespace_quote (pre : string) (q : ascii) (rest : string) :
  is_quote q = true -> all_whitespace (pre ++ String q rest) = false.
Proof.
  intros Hq. induction pre as [|c pre IH]; cbn [append all_whitespace].
  - now rewrite (is_quote_not_whitespace q Hq).
  - rewrite IH. apply andb_false_r.
Qed.

Lemma tail_length_quoted (pre : string) (q : ascii) (ws : string) :
  all_whitespace ws = true -> is_quote q = true ->
  TAIL_PATTERN_length (pre ++ String q ws) = 1 + JS.len ws.
Proof.
  intros Hws Hq. induction pre as [|c pre IH]; cbn [append TAIL_PATTERN_length].
  - rewrite Hq, Hws. unfold JS.len. cbn [andb String.length]. lia.
  - rewrite (all_whitespace_quote pre q ws Hq), andb_false_r. exact IH.
Qed.

Lemma tail_length_unquoted (s : string) :
  has_quote s = false -> TAIL_PATTERN_length s = 0.
Proof.
  induction s as [|c s IH]; intros H; cbn [TAIL_PATTERN_length]; [reflexivity|].
  cbn [has_quote] in H. apply orb_false_iff in H. destruct H as [Hc Hs].
  rewrite Hc. cbn [andb]. now apply IH.
Qed.

Lemma substring_no_length (s : string) :
  forall n, String.substring n 0 s = "".
Proof.
  induction s as [|c s IH]; intros [|n]; cbn [String.substring];
    try reflexivity. apply IH.
Qed.

Lemma slice_to_zero (s : string) (a : Z) : JS.slice s a 0 = "".
Proof.
  unfold JS.slice, JS.clamp at 2. cbn [Z.ltb Z.compare].
  assert (H : Z.min 0 (JS.len s) = 0) by (unfold JS.len; lia).
  rewrite H.
  assert (Hn : Z.to_nat (0 - JS.clamp (JS.len s) a) = 0%nat).
  { unfold JS.clamp, JS.len. destruct (Z.ltb_spec a 0); lia. }
  rewrite Hn. apply substring_no_length.
Qed.

Lemma slice_quoted (ws1 : string) (q1 : ascii) (v : string) (q2 : ascii)
    (ws2 : string) :
  JS.slice (ws1 ++ String q1 (v ++ String q2 ws2))
    (0 + JS.len ws1 + 1) ((1 + JS.len ws2) * -1) = v.
Proof.
  pose proof (slice_middle (ws1 ++ String q1 "") v (String q2 ws2)) as H.
  rewrite string_app_assoc in H. cbn [append] in H.
  rewrite <- H at 2. unfold JS.slice. f_equal; [f_equal|f_equal; f_equal].
  - unfold JS.clamp, JS.len. rewrite !string_app_length.
    cbn [String.length]. rewrite !string_app_length. cbn [String.length].
    repeat match goal with
           | |- context [?a <? ?b] => destruct (Z.ltb_spec a b)
           end; lia.
  - unfold JS.clamp, JS.len. rewrite !string_app_length.
    cbn [String.length]. rewrite !string_app_length. cbn [String.length].
    repeat match goal with
           | |- context [?a <? ?b] => destruct (Z.ltb_spec a b)
           end; lia.
  - unfold JS.clamp, JS.len. rewrite !string_app_length.
    cbn [String.length]. rewrite !string_app_length. cbn [String.length].
    repeat match goal with
           | |- context [?a <? ?b] => destruct (Z.ltb_spec a b)
           end; lia.
Qed.

End ExtractorFacts.

(** X20. For a value token whose text is a value between two quotes
    (single or double, not necessarily the same), with white space allowed
    before the first and after the second, the attribute yielded has
    exactly the text between the quotes as its value, starts right after
    the opening quote and ends right before the closing one. *)
Theorem quoted_value_read (positionAt : LSTextDocument -> Z -> Position)
    (td : LSTextDocument) (nm : string) (nameOffset : Z)
    (tok : Extractor.Scanned) (ws1 : string) (q1 : ascii) (v : string)
    (q2 : ascii) (ws2 : string) :
  Extractor.all_whitespace ws1 = true ->
  Extractor.all_whitespace ws2 = true ->
  Extractor.is_quote q1 = true ->
  Extractor.is_quote q2 = true ->
  Extractor.getTokenText tok = ws1 ++ String q1 (v ++ String q2 ws2) ->
  value (Extractor.yield_attr positionAt td nm nameOffset tok) = v /\
  offset (Extractor.yield_attr positionAt td nm nameOffset tok)
  = Extractor.getTokenOffset tok + JS.len ws1 + 1 /\
  end_ (Extractor.yield_attr positionAt td nm nameOffset tok)
  = Extractor.getTokenEnd tok - 1 - JS.len ws2.
Proof.
  intros H1 H2 Q1 Q2 E. unfold Extractor.yield_attr.
  cbn [value offset end_]. rewrite E. unfold Extractor.HEAD_PATTERN_length.
  rewrite head_match_quoted by assumption.
  replace (ws1 ++ String q1 (v ++ String q2 ws2))
    with ((ws1 ++ String q1 v) ++ String q2 ws2)
    by (rewrite string_app_assoc; reflexivity).
  rewrite tail_length_quoted by assumption.
  replace ((ws1 ++ String q1 v) ++ String q2 ws2)
    with (ws1 ++ String q1 (v ++ String q2 ws2))
    by (rewrite string_app_assoc; reflexivity).
  rewrite slice_quoted. repeat apply conj; [reflexivity|lia|lia].
Qed.

Lemma quoted_value_read_witness :
  value
    (Extractor.yield_attr (fun _ o => mkPosition 0 o) Sample.ls_document
       "on:click" 22
       (Extractor.mkScanned Extractor.AttributeValue 31 40
          (Sample.quoted "(x save")))
  = "(x save".
Proof.
  apply (quoted_value_read (fun _ o => mkPosition 0 o) Sample.ls_document
           "on:click" 22
           (Extractor.mkScanned Extractor.AttributeValue 31 40
              (Sample.quoted "(x save"))
           "" (ascii_of_nat 34) "(x save" (ascii_of_nat 34) "");
    reflexivity.
Defined.

(** X21. For a value token whose text has no quote at all (an unquoted
    value such as [on=click]), the attribute yielded has the empty string
    as its value, although its offsets cover the whole token; when its
    name is a reference, nothing is filed in the six tables and the
    "No action specified." warning is issued. *)
Theorem unquoted_value_empty (positionAt : LSTextDocument -> Z -> Position)
    (td : LSTextDocument) (nm : string) (nameOffset : Z)
    (tok : Extractor.Scanned) :
  Extractor.has_quote (Extractor.getTokenText tok) = false ->
  let a := Extractor.yield_attr positionAt td nm nameOffset tok in
  value a = "" /\
  offset a = Extractor.getTokenOffset tok /\
  end_ a = Extractor.getTokenEnd tok /\
  (isReference nm = true ->
   forall tg attrs st,
     tables_of (parseAttr tg attrs st a) = tables_of st /\
     exists rest,
       ps_diagnostics (parseAttr tg attrs st a)
       = (ps_diagnostics st ++ no_action_diagnostic a :: rest)%list).
Proof.
  intros H a.
  assert (Hv : value a = "").
  { unfold a, Extractor.yield_attr. cbn [value].
    rewrite (tail_length_unquoted _ H). cbn [Z.mul]. apply slice_to_zero. }
  split; [exact Hv|]. split; [|split].
  - unfold a, Extractor.yield_attr, Extractor.HEAD_PATTERN_length.
    cbn [offset]. rewrite (head_match_unquoted _ 0 H). lia.
  - unfold a, Extractor.yield_attr. cbn [end_].
    rewrite (tail_length_unquoted _ H). lia.
  - intros Href tg attrs st. apply empty_reference_effect; [exact Href|exact Hv].
Qed.

Lemma unquoted_value_empty_witness :
  value
    (Extractor.yield_attr (fun _ o => mkPosition 0 o) Sample.ls_document
       "on" 5 (Extractor.mkScanned Extractor.AttributeValue 8 13 "click"))
  = "".
Proof.
  apply (unquoted_value_empty (fun _ o => mkPosition 0 o) Sample.ls_document
           "on" 5 (Extractor.mkScanned Extractor.AttributeValue 8 13 "click")).
  reflexivity.
Defined.

Section ScanLoop.

Import Extractor.

Variable positionAt : LSTextDocument -> Z -> Position.

Lemma scan_loop_sound (td : LSTextDocument) (e : Z) (tokens : list Scanned) :
  forall tokenEnd nm nameOffset a,
    In a (scan_loop positionAt td e tokens tokenEnd nm nameOffset) ->
    exists pre val post,
      tokens = (pre ++ val :: post)%list /\
      getTokenType val = AttributeValue /\
      Forall (fun t => getTokenEnd t < e /\ getTokenType t <> EOS) pre /\
      tokenEnd < e /\
      ((exists pre' name_token mid,
           pre = (pre' ++ name_token :: mid)%list /\
           getTokenType name_token = AttributeName /\
           Forall (fun t => getTokenType t = OtherToken) mid /\
           a = yield_attr positionAt td (getTokenText name_token)
                 (getTokenOffset name_token) val) \/
       (exists n no,
           nm = Some n /\ nameOffset = Some no /\
           Forall (fun t => getTokenType t = OtherToken) pre /\
           a = yield_attr positionAt td n no val)).
Proof.
  induction tokens as [|tok rest IH]; intros tokenEnd nm nameOffset a Hin;
    cbn [scan_loop] in Hin; [contradiction|].
  destruct (Z.ltb_spec tokenEnd e) as [Hlt|_]; [|contradiction].
  assert (Hshift : forall nm' no',
    In a (scan_loop positionAt td e rest (getTokenEnd tok) nm' no') ->
    getTokenType tok <> EOS ->
    (forall n no, nm' = Some n -> no' = Some no ->
       (getTokenType tok = AttributeName /\ n = getTokenText tok
        /\ no = getTokenOffset tok) \/
       (getTokenType tok = OtherToken /\ nm = Some n /\ nameOffset = Some no)) ->
    exists pre val post,
      (tok :: rest) = (pre ++ val :: post)%list /\
      getTokenType val = AttributeValue /\
      Forall (fun t => getTokenEnd t < e /\ getTokenType t <> EOS) pre /\
      tokenEnd < e /\
      ((exists pre' name_token mid,
           pre = (pre' ++ name_token :: mid)%list /\
           getTokenType name_token = AttributeName /\
           Forall (fun t => getTokenType t = OtherToken) mid /\
           a = yield_attr positionAt td (getTokenText name_token)
                 (getTokenOffset name_token) val) \/
       (exists n no,
           nm = Some n /\ nameOffset = Some no /\
           Forall (fun t => getTokenType t = OtherToken) pre /\
           a = yield_attr positionAt td n no val))).
  { intros nm' no' Hin' Hneos Hcase.
    destruct (IH _ _ _ _ Hin')
      as (pre & val & post & -> & Hval & Hpre & Hend & Hsrc).
    exists (tok :: pre), val, post.
    split; [reflexivity|]. split; [exact Hval|].
    split; [constructor; [split; assumption|exact Hpre]|].
    split; [exact Hlt|].
    destruct Hsrc as [(pre' & nt & mid & -> & Hnt & Hmid & Ha)
                     |(n & no & -> & -> & Hother & Ha)].
    - left. exists (tok :: pre'), nt, mid. auto.
    - destruct (Hcase n no eq_refl eq_refl)
        as [(Hty & -> & ->)|(Hty & -> & ->)].
      + left. exists [], tok, pre. auto.
      + right. exists n, no. auto. }
  destruct (getTokenType tok) eqn:Hty.
  - apply (Hshift _ _ Hin); [discriminate|].
    intros n no Hn Hno. left. inversion Hn. inversion Hno. auto.
  - destruct nm as [n|]; [destruct nameOffset as [no|]|].
    + destruct Hin as [<-|Hin].
      * exists [], tok, rest. split; [reflexivity|]. split; [exact Hty|].
        split; [constructor|]. split; [exact Hlt|].
        right. exists n, no. auto.
      * apply (Hshift _ _ Hin); [discriminate|].
        intros n' no' Hn. discriminate.
    + apply (Hshift _ _ Hin); [discriminate|].
      intros n' no' _ Hno. discriminate.
    + apply (Hshift _ _ Hin); [discriminate|].
      intros n' no' Hn. discriminate.
  - contradiction.
  - apply (Hshift _ _ Hin); [discriminate|].
    intros n no -> ->. right. auto.
Qed.

Lemma find_first (A : Type) (f : A -> bool) (l : list A) :
  match find f l with
  | Some a =>
      exists pre post, l = (pre ++ a :: post)%list /\ f a = true /\
                       Forall (fun b => f b = false) pre
  | None => Forall (fun b => f b = false) l
  end.
Proof.
  induction l as [|x l IH]; cbn [find]; [constructor|].
  destruct (f x) eqn:E.
  - exists [], l. auto.
  - destruct (find f l) as [a|].
    + destruct IH as (pre & post & -> & Ha & Hpre).
      exists (x :: pre), post. auto.
    + constructor; assumption.
Qed.

End ScanLoop.

(** X22. Every attribute that [parseNodeAttrs] yields pairs a value token
    of the start tag with the nearest name token before it, with nothing
    but other tokens in between; all the tokens before the value token end
    before the end of the start tag.  Nothing is yielded for a node
    without a tag, without attributes or without the end of its start
    tag, so a name that has no value token never gives an attribute. *)
Theorem parseNodeAttrs_pairs
    (createScanner : string -> Z -> list Extractor.Scanned)
    (positionAt : LSTextDocument -> Z -> Position)
    (td : LSTextDocument) (node : Node) (a : Attr) :
  In a (Extractor.parseNodeAttrs createScanner positionAt td node) ->
  exists e tg pre name_token mid val post,
    startTagEnd node = Some e /\ e <> 0 /\
    tag node = Some tg /\ tg <> "" /\
    attributes node <> None /\
    createScanner (ls_text td) (start node)
    = (pre ++ name_token :: mid ++ val :: post)%list /\
    Extractor.getTokenType name_token = Extractor.AttributeName /\
    Extractor.getTokenType val = Extractor.AttributeValue /\
    Forall (fun t => Extractor.getTokenType t = Extractor.OtherToken) mid /\
    Forall (fun t => Extractor.getTokenEnd t < e)
           (pre ++ name_token :: mid)%list /\
    a = Extractor.yield_attr positionAt td
          (Extractor.getTokenText name_token)
          (Extractor.getTokenOffset name_token) val.
Proof.
  unfold Extractor.parseNodeAttrs. intros Hin.
  destruct (startTagEnd node) as [e|]; [|contradiction].
  destruct (tag node) as [tg|]; [|contradiction].
  destruct (attributes node) as [attrs|] eqn:Hattrs; [|contradiction].
  destruct (Z.eqb_spec e 0) as [|He]; [contradiction|].
  destruct (String.eqb_spec tg "") as [|Htg]; [contradiction|].
  cbn [orb] in Hin.
  destruct (scan_loop_sound positionAt td e _ _ _ _ a Hin)
    as (pre & val & post & Htokens & Hval & Hpre & _ & Hsrc).
  destruct Hsrc as [(pre' & nt & mid & -> & Hnt & Hmid & Ha)
                   |(n & no & Hn & _)]; [|discriminate].
  exists e, tg, pre', nt, mid, val, post.
  repeat apply conj; try assumption; try discriminate; try reflexivity.
  - rewrite Htokens, <- app_assoc. reflexivity.
  - eapply Forall_impl; [|exact Hpre]. intros t [Ht _]. exact Ht.
Qed.

(** X23. [getAttrAtOffset] returns the first attribute of the node whose
    value span contains the offset, both ends included: every attribute
    before it lies outside, and when it returns nothing every attribute of
    the node lies outside. *)
Theorem getAttrAtOffset_first
    (createScanner : string -> Z -> list Extractor.Scanned)
    (positionAt : LSTextDocument -> Z -> Position)
    (td : LSTextDocument) (node : Node) (o : Z) :
  match Extractor.getAttrAtOffset createScanner positionAt td node o with
  | Some a =>
      exists pre post,
        Extractor.parseNodeAttrs createScanner positionAt td node
        = (pre ++ a :: post)%list /\
        offset a <= o <= end_ a /\
        Forall (fun b => o < offset b \/ end_ b < o) pre
  | None =>
      Forall (fun b => o < offset b \/ end_ b < o)
        (Extractor.parseNodeAttrs createScanner positionAt td node)
  end.
Proof.
  unfold Extractor.getAttrAtOffset.
  pose proof (find_first Attr
                (fun attribute => (offset attribute <=? o)
                                  && (o <=? end_ attribute))
                (Extractor.parseNodeAttrs createScanner positionAt td node))
    as H.
  assert (Hout : forall l,
    Forall (fun b => (offset b <=? o) && (o <=? end_ b) = false) l ->
    Forall (fun b => o < offset b \/ end_ b < o) l).
  { intros l. apply Forall_impl. intros b Hb.
    apply andb_false_iff in Hb. destruct Hb as [Hb|Hb];
      apply Z.leb_gt in Hb; lia. }
  destruct (find _ _) as [a|].
  - destruct H as (pre & post & E & Ha & Hpre).
    exists pre, post. split; [exact E|]. split; [|now apply Hout].
    apply andb_true_iff in Ha. destruct Ha as [H1 H2].
    apply Z.leb_le in H1, H2. lia.
  - now apply Hout.
Qed.

Lemma parseNodeAttrs_pairs_witness :
  exists e, startTagEnd Sample.button = Some e /\ e <> 0.
Proof.
  destruct (parseNodeAttrs_pairs SampleTokens.createScanner
              SampleTokens.positionAt Sample.ls_document Sample.button
              Sample.position_attr)
    as (e & tg & pre & name_token & mid & val & post & He & Hne & _).
  - vm_compute. left. reflexivity.
  - exists e. split; [exact He|exact Hne].
Defined.

(** X24. An edit or a change of a document never adds a document to the
    table nor removes one: the urls of the table and their order stay as
    they are, and so does every entry but the one of the document itself.
    An edit of a document that is not in the table is ignored. *)
Theorem changes_keep_documents
    (service_parseHTMLDocument : LSTextDocument -> HTMLDocument)
    (parseNodeAttrs : LSTextDocument -> Node -> list Attr)
    (matchesGlob : string -> string -> bool)
    (Change : Type)
    (TextDocument_update : LSTextDocument -> list Change -> Z -> LSTextDocument)
    (w : World) (document : TextDocument) (contentChanges : list Change) :
  let edited :=
    onDidChangeTextDocument service_parseHTMLDocument parseNodeAttrs
      Change TextDocument_update w document contentChanges in
  let changed :=
    onDidChangeDoc service_parseHTMLDocument parseNodeAttrs matchesGlob
      w document in
  JSMap.keys (w_docs edited) = JSMap.keys (w_docs w) /\
  JSMap.keys (w_docs changed) = JSMap.keys (w_docs w) /\
  (forall url, url <> uri document ->
     JSMap.get (w_docs edited) url = JSMap.get (w_docs w) url /\
     JSMap.get (w_docs changed) url = JSMap.get (w_docs w) url) /\
  (JSMap.has (w_docs w) (uri document) = false -> edited = w /\ changed = w).
Proof.
  intros edited changed.
  assert (He : JSMap.keys (w_docs edited) = JSMap.keys (w_docs w) /\
               (forall url, url <> uri document ->
                  JSMap.get (w_docs edited) url = JSMap.get (w_docs w) url) /\
               (JSMap.has (w_docs w) (uri document) = false -> edited = w)).
  { unfold edited, onDidChangeTextDocument, JSMap.has.
    destruct (JSMap.get (w_docs w) (uri document)) as [cur|] eqn:E;
      [|auto].
    destruct contentChanges as [|c cs]; [auto|].
    destruct (parseHTMLDocument _ _ _ _ _) as [parsed li].
    cbn [w_docs]. split; [|split].
    - rewrite keys_set. unfold JSMap.has. now rewrite E.
    - intros url Hurl. apply get_set_other. congruence.
    - discriminate. }
  assert (Hc : JSMap.keys (w_docs changed) = JSMap.keys (w_docs w) /\
               (forall url, url <> uri document ->
                  JSMap.get (w_docs changed) url = JSMap.get (w_docs w) url) /\
               (JSMap.has (w_docs w) (uri document) = false -> changed = w)).
  { unfold changed, onDidChangeDoc, setDocs.
    destruct (JSMap.has (w_docs w) (uri document)) eqn:E; cbn [Bool.eqb negb];
      [|auto].
    destruct (negb _ || negb _); [auto|].
    destruct (parseHTMLDocument _ _ _ _ _) as [parsed li].
    cbn [w_docs]. split; [|split].
    - rewrite keys_set. now rewrite E.
    - intros url Hurl. apply get_set_other. congruence.
    - discriminate. }
  destruct He as (He1 & He2 & He3). destruct Hc as (Hc1 & Hc2 & Hc3).
  repeat apply conj; auto.
Qed.

Section ReferenceFiling.

Lemma reference_table_tables (n : string) (st1 st2 : ParseState) :
  tables_of st1 = tables_of st2 ->
  reference_table n st1 = reference_table n st2.
Proof.
  unfold tables_of, reference_table. intros H. inversion H.
  repeat match goal with
         | |- context [if ?b then _ else _] => destruct b
         end; reflexivity.
Qed.

Lemma record_action_reference (st : ParseState) (a : Attr) :
  isReference (name a) = true ->
  reference_table (name a) (record_action st a)
  = addRange (reference_table (name a) st) (value a) (range a).
Proof.
  unfold isReference. rewrite !orb_true_iff.
  intros [[H|H]|H];
    [apply isEventReference_inv in H
    |apply isStateReference_inv in H
    |apply isResultReference_inv in H];
    destruct a as [n v o e r fr]; cbn [name value range] in *;
    repeat match goal with H : _ \/ _ |- _ => destruct H as [H|H] end;
    subst n; reflexivity.
Qed.

End ReferenceFiling.

(** X25. A reference attribute with a value is filed under its whole
    value, white space included and never split into tokens: looking the
    value up in the table of the attribute's kind gives the ranges that
    were there followed by the range of the value.  When the value begins
    or ends with white space the subscriber error is issued as well. *)
Theorem reference_filed_verbatim (tg : option string)
    (attrs : list (string * option string)) (st : ParseState) (a : Attr) :
  isReference (name a) = true -> value a <> "" ->
  JSMap.get (reference_table (name a) (parseAttr tg attrs st a)) (value a)
  = appended (JSMap.get (reference_table (name a) st) (value a)) [range a] /\
  (END_SPACE_PATTERN_test (value a) = true ->
   exists rest,
     ps_diagnostics (parseAttr tg attrs st a)
     = (ps_diagnostics st ++ subscriber_diagnostic a :: rest)%list).
Proof.
  intros Href Hval. split.
  - destruct (parseAttr_frames tg attrs st a) as [Ht _].
    rewrite (reference_table_tables _ _ _ Ht).
    rewrite record_action_reference by exact Href.
    destruct (addRange_get_keys (reference_table (name a) st) (value a)
                (range a) Hval) as [E _].
    exact E.
  - intros Hsp. unfold parseAttr.
    set (st0 := record_action st a).
    assert (Hd0 : ps_diagnostics st0 = ps_diagnostics st)
      by apply record_action_diagnostics.
    assert (Hcheck : check_reference st0 a
                     = with_diagnostics st0 (push (ps_diagnostics st0)
                                               (subscriber_diagnostic a))).
    { unfold check_reference. unfold isReference in Href. rewrite Href, Hsp.
      destruct (String.eqb_spec (value a) "") as [|_]; [contradiction|].
      reflexivity. }
    rewrite Hcheck.
    set (st1 := with_diagnostics st0 _).
    assert (Hrest : frames st1
              (check_x_prefix attrs
                 (check_position attrs
                    (check_on_dependent tg attrs
                       (check_event_filter attrs st1 a) a) a) a)).
    { eapply frames_trans; [apply check_event_filter_frames|].
      eapply frames_trans; [apply check_on_dependent_frames|].
      eapply frames_trans; [apply check_position_frames|].
      apply check_x_prefix_frames. }
    destruct Hrest as [_ (extra & Hd & _)].
    exists extra. rewrite Hd. unfold st1, push.
    cbn [with_diagnostics ps_diagnostics]. rewrite Hd0.
    now rewrite <- app_assoc.
Qed.

Lemma reference_filed_verbatim_witness :
  JSMap.get
    (reference_table "on"
       (parseAttr (Some "div") [("on", None)] (initial_state 0)
          (mkAttr "on" " save" 9 14
             (mkRange (mkPosition 0 9) (mkPosition 0 14))
             (mkRange (mkPosition 0 5) (mkPosition 0 15)))))
    " save"
  = Some [mkRange (mkPosition 0 9) (mkPosition 0 14)].
Proof.
  apply (reference_filed_verbatim (Some "div") [("on", None)]
           (initial_state 0)
           (mkAttr "on" " save" 9 14
              (mkRange (mkPosition 0 9) (mkPosition 0 14))
              (mkRange (mkPosition 0 5) (mkPosition 0 15))));
    [reflexivity|discriminate].
Defined.

Section DeleteFiles.

Lemma onDidDeleteFiles_lookup (files : list string) :
  forall w, JSMap.wf (w_docs w) ->
    JSMap.wf (w_docs (onDidDeleteFiles w files)) /\
    w_lastIndex (onDidDeleteFiles w files) = w_lastIndex w /\
    w_config (onDidDeleteFiles w files) = w_config w /\
    forall k,
      JSMap.get (w_docs (onDidDeleteFiles w files)) k
      = if existsb (String.eqb k) files then None
        else JSMap.get (w_docs w) k.
Proof.
  unfold onDidDeleteFiles.
  induction files as [|u rest IH]; intros w Hwf; cbn [fold_left existsb].
  - auto.
  - assert (Hwf1 : JSMap.wf (w_docs (onDidDelete w u)))
      by (unfold onDidDelete; cbn [w_docs]; now apply delete_wf).
    destruct (IH _ Hwf1) as (Hwf' & Hli & Hcfg & Hget).
    split; [exact Hwf'|]. split; [exact Hli|]. split; [exact Hcfg|].
    intros k. rewrite Hget. unfold onDidDelete. cbn [w_docs].
    destruct (String.eqb_spec k u) as [->|Hk]; cbn [orb].
    + rewrite get_delete_same by exact Hwf.
      now destruct (existsb _ rest).
    + now rewrite get_delete_other.
Qed.

Lemma onDidDeleteFiles_published (files : list string) :
  forall w, files <> [] ->
    w_diagnosticCollection (onDidDeleteFiles w files)
    = updateDiagnosticCollection (w_docs (onDidDeleteFiles w files))
        (w_config w).
Proof.
  unfold onDidDeleteFiles.
  induction files as [|u rest IH]; intros w Hne; [contradiction|].
  cbn [fold_left]. destruct rest as [|u' rest'].
  - reflexivity.
  - rewrite IH by discriminate. reflexivity.
Qed.

End DeleteFiles.

(** X26. Removing several documents at once: afterwards none of the given
    urls is in the table, every other entry is found as before, the keys
    stay unique and the shared pattern is left alone; when at least one
    url was given, the diagnostics published are those of a resolver pass
    over the table that is left. *)
Theorem onDidDeleteFiles_removes (w : World) (files : list string) :
  JSMap.wf (w_docs w) ->
  let w' := onDidDeleteFiles w files in
  (forall u, In u files -> JSMap.get (w_docs w') u = None) /\
  (forall k, ~ In k files -> JSMap.get (w_docs w') k = JSMap.get (w_docs w) k) /\
  JSMap.wf (w_docs w') /\
  w_lastIndex w' = w_lastIndex w /\
  (files <> [] ->
   w_diagnosticCollection w'
   = updateDiagnosticCollection (w_docs w') (w_config w)).
Proof.
  intros Hwf w'.
  destruct (onDidDeleteFiles_lookup files w Hwf) as (Hwf' & Hli & _ & Hget).
  split; [|split; [|split; [exact Hwf'|split; [exact Hli|]]]].
  - intros u Hu. unfold w'. rewrite Hget.
    assert (E : existsb (String.eqb u) files = true).
    { apply existsb_exists. exists u. split; [exact Hu|apply String.eqb_refl]. }
    now rewrite E.
  - intros k Hk. unfold w'. rewrite Hget.
    destruct (existsb (String.eqb k) files) eqn:E; [|reflexivity].
    apply existsb_exists in E. destruct E as (u & Hu & Heq).
    apply String.eqb_eq in Heq. subst u. contradiction.
  - apply onDidDeleteFiles_published.
Qed.

Lemma onDidDeleteFiles_removes_witness :
  JSMap.get
    (w_docs (onDidDeleteFiles Sample.world1 ["file:///b.html"; "file:///a.html"]))
    "file:///a.html"
  = None.
Proof.
  apply (onDidDeleteFiles_removes Sample.world1
           ["file:///b.html"; "file:///a.html"] sample_docs_wf).
  right. left. reflexivity.
Defined.

(** ** Where the entries of the tables come from *)

Section Provenance.

Variable parseNodeAttrs : LSTextDocument -> Node -> list Attr.
Variable seen : Attr -> Prop.

Lemma addDefinitionRanges_get (lastIndex : Z) (store : Store)
    (value : string) (r : Range) (k : string) :
  JSMap.get (addDefinitionRanges lastIndex store value r) k
  = appended (JSMap.get store k)
      (map (token_range r)
         (filter (fun tok => String.eqb (token tok) k)
                 (parseTokens lastIndex value))).
Proof.
  unfold addDefinitionRanges. apply definition_fold_lookup.
  intros tok. apply parseTokens_nonempty.
Qed.

Lemma store_from_appended (origin : string -> Range -> Prop) (store : Store)
    (k : string) (new ranges : list Range) :
  store_from origin store ->
  (forall r, In r new -> origin k r) ->
  appended (JSMap.get store k) new = Some ranges ->
  (exists r, In r ranges) /\ forall r, In r ranges -> origin k r.
Proof.
  intros Hstore Hnew Happ.
  destruct (JSMap.get store k) as [old|] eqn:E; cbn [appended] in Happ.
  - injection Happ as <-. destruct (Hstore k old E) as [(r0 & Hr0) Hold].
    split; [exists r0; apply in_or_app; now left|].
    intros r [Hr|Hr]%in_app_or; auto.
  - destruct new as [|r0 new']; [discriminate|]. injection Happ as <-.
    split; [exists r0; now left|exact Hnew].
Qed.

Lemma store_from_empty (origin : string -> Range -> Prop) :
  store_from origin JSMap.empty.
Proof. intros k ranges H. discriminate. Qed.

Lemma store_from_addRange (origin : string -> Range -> Prop) (store : Store)
    (key : string) (r : Range) :
  store_from origin store ->
  (key <> "" -> origin key r) ->
  store_from origin (addRange store key r).
Proof.
  intros Hstore Hkey.
  destruct (String.eqb_spec key "") as [->|Hne]; [exact Hstore|].
  destruct (addRange_get_keys store key r Hne) as (Hsame & Hother & _).
  intros k ranges Hget.
  destruct (String.eqb_spec k key) as [->|Hk].
  - rewrite Hsame in Hget.
    apply (store_from_appended origin store key [r] ranges Hstore);
      [|exact Hget].
    intros r' [<-|[]]. now apply Hkey.
  - rewrite (Hother k Hk) in Hget. now apply Hstore.
Qed.

Lemma store_from_addDefinitionRanges (origin : string -> Range -> Prop)
    (lastIndex : Z) (store : Store) (value : string) (r : Range) :
  store_from origin store ->
  (forall tok, In tok (parseTokens lastIndex value) ->
               origin (token tok) (token_range r tok)) ->
  store_from origin (addDefinitionRanges lastIndex store value r).
Proof.
  intros Hstore Htok k ranges Hget.
  rewrite addDefinitionRanges_get in Hget.
  eapply store_from_appended; [exact Hstore| |exact Hget].
  intros r' Hr'. apply in_map_iff in Hr'. destruct Hr' as (tok & <- & Hin).
  apply filter_In in Hin. destruct Hin as [Hin Heq].
  apply String.eqb_eq in Heq. subst k. now apply Htok.
Qed.

Lemma token_of_attr (role : string -> bool) (lastIndex : Z) (a : Attr)
    (tok : ParsedToken) :
  seen a -> role (name a) = true -> 0 <= lastIndex ->
  In tok (parseTokens lastIndex (value a)) ->
  token_of seen role (token tok) (token_range (range a) tok).
Proof.
  intros Hs Hr Hli Hin. exists a, lastIndex, tok.
  repeat apply conj; auto.
  - now apply (parseTokens_whole lastIndex).
  - now apply parseTokens_nonempty in Hin.
Qed.

Lemma value_of_attr (role : string -> bool) (a : Attr) :
  seen a -> role (name a) = true -> value a <> "" ->
  value_of seen role (value a) (range a).
Proof. intros Hs Hr Hne. exists a. auto. Qed.

Lemma record_action_from (st : ParseState) (a : Attr) :
  seen a -> 0 <= ps_lastIndex st ->
  tables_from seen (tables_of st) ->
  tables_from seen (tables_of (record_action st a)).
Proof.
  intros Hs Hli. unfold tables_from, tables_of, record_action.
  intros (H1 & H2 & H3 & H4 & H5 & H6).
  destruct (isEventDefinition (name a)) eqn:E1;
    [|destruct (isEventReference (name a)) eqn:E2;
      [|destruct (isStateDefinition (name a)) eqn:E3;
        [|destruct (isStateReference (name a)) eqn:E4;
          [|destruct (isResultDefinition (name a)) eqn:E5;
            [|destruct (isResultReference (name a)) eqn:E6]]]]];
    cbn [ps_event_definitions ps_event_references ps_state_definitions
         ps_state_references ps_result_definitions ps_result_references];
    repeat apply conj; try assumption;
    try (apply store_from_addDefinitionRanges; [assumption|];
         intros tok Hin; eapply token_of_attr; eassumption);
    try (apply store_from_addRange; [assumption|];
         intros Hne; now apply value_of_attr).
Qed.

Lemma find_lower (s : string) :
  forall off j, InvalidPattern.find s off = Some j -> off <= j.
Proof.
  induction s as [|c s IH]; intros off j; cbn [InvalidPattern.find];
    [discriminate|].
  destruct (InvalidPattern.matches_char c).
  - intros [= <-]. lia.
  - intros H. apply IH in H. lia.
Qed.

Lemma test_lastIndex (lastIndex : Z) (s : string) :
  0 <= lastIndex -> 0 <= snd (InvalidPattern.test lastIndex s).
Proof.
  intros Hli. unfold InvalidPattern.test, InvalidPattern.exec.
  destruct (JS.len s <? lastIndex); [cbn; lia|].
  destruct (InvalidPattern.find _ _) as [j|] eqn:E; cbn [snd]; [|lia].
  apply find_lower in E. lia.
Qed.

Lemma parseAttr_lastIndex (tg : option string)
    (attrs : list (string * option string)) (st : ParseState) (a : Attr) :
  0 <= ps_lastIndex st -> 0 <= ps_lastIndex (parseAttr tg attrs st a).
Proof.
  intros Hst. unfold parseAttr, check_x_prefix, check_position.
  set (st3 := check_on_dependent _ _ _ _).
  assert (H3 : ps_lastIndex st3 = ps_lastIndex st).
  { unfold st3, check_on_dependent, check_event_filter, check_reference,
      record_action.
    repeat match goal with
           | |- context [if ?b then _ else _] => destruct b
           end; reflexivity. }
  destruct (isPosition (name a)).
  - destruct (negb (JS.includes validPosition (value a))).
    + cbn [ps_lastIndex with_diagnostics].
      pose proof (test_lastIndex (ps_lastIndex st3) (value a)) as Ht.
      rewrite H3 in Ht. specialize (Ht Hst). rewrite H3.
      destruct (InvalidPattern.test (ps_lastIndex st) (value a)) as [found li].
      cbn [snd] in Ht.
      destruct (negb found); destruct (JS.startsWith (name a) "x-");
        cbn [ps_lastIndex with_diagnostics with_lastIndex]; exact Ht.
    + destruct (JS.startsWith (name a) "x-");
        cbn [ps_lastIndex with_diagnostics]; rewrite H3; exact Hst.
  - destruct (JS.startsWith (name a) "x-");
      cbn [ps_lastIndex with_diagnostics]; rewrite H3; exact Hst.
Qed.

Lemma parseAttr_from (tg : option string)
    (attrs : list (string * option string)) (st : ParseState) (a : Attr) :
  seen a -> 0 <= ps_lastIndex st ->
  tables_from seen (tables_of st) ->
  tables_from seen (tables_of (parseAttr tg attrs st a)).
Proof.
  intros Hs Hli Hst. destruct (parseAttr_frames tg attrs st a) as [-> _].
  now apply record_action_from.
Qed.

Lemma visit_attrs_from (td : LSTextDocument) (n : Node) (st : ParseState) :
  (forall a, In a (parseNodeAttrs td n) -> seen a) ->
  0 <= ps_lastIndex st ->
  tables_from seen (tables_of st) ->
  0 <= ps_lastIndex (visit_attrs parseNodeAttrs td st n) /\
  tables_from seen (tables_of (visit_attrs parseNodeAttrs td st n)).
Proof.
  unfold visit_attrs.
  generalize (match attributes n with Some a => a | None => [] end) as attrs.
  intros attrs. generalize (parseNodeAttrs td n) as l.
  intros l. revert st.
  induction l as [|a l IH]; intros st Hl Hli Hst; [now split|].
  cbn [fold_left]. apply IH.
  - intros a' Ha'. apply Hl. now right.
  - now apply parseAttr_lastIndex.
  - apply parseAttr_from; [apply Hl; now left|exact Hli|exact Hst].
Qed.

Lemma visit_order_from (td : LSTextDocument) (nodes : list Node) :
  forall st,
    (forall n a, In n nodes -> In a (parseNodeAttrs td n) -> seen a) ->
    0 <= ps_lastIndex st ->
    tables_from seen (tables_of st) ->
    tables_from seen
      (tables_of (fold_left (visit_attrs parseNodeAttrs td) nodes st)).
Proof.
  induction nodes as [|n nodes IH]; intros st Hn Hli Hst; [exact Hst|].
  cbn [fold_left].
  destruct (visit_attrs_from td n st) as [Hli' Hst']; auto.
  { intros a Ha. apply (Hn n a); [now left|exact Ha]. }
  apply IH; auto.
  intros n' a Hn' Ha. apply (Hn n' a); [now right|exact Ha].
Qed.

End Provenance.

Lemma parseHTMLDocument_from
    (service_parseHTMLDocument : LSTextDocument -> HTMLDocument)
    (parseNodeAttrs : LSTextDocument -> Node -> list Attr)
    (lastIndex : Z) (d : TextDocument) (td : LSTextDocument) :
  0 <= lastIndex ->
  tables_from
    (extracted parseNodeAttrs td (roots (service_parseHTMLDocument td)))
    (document_tables
       (fst (parseHTMLDocument service_parseHTMLDocument parseNodeAttrs
               lastIndex d td))).
Proof.
  intros Hli. unfold parseHTMLDocument. cbn [fst]. unfold document_tables.
  cbn [event_definitions event_references state_definitions state_references
       result_definitions result_references].
  change (tables_from
            (extracted parseNodeAttrs td (roots (service_parseHTMLDocument td)))
            (tables_of (walk parseNodeAttrs td
                          [roots (service_parseHTMLDocument td)]
                          (initial_state lastIndex)))).
  rewrite walk_schedule. cbn [map List.concat]. rewrite app_nil_r.
  apply visit_order_from.
  - intros n a Hn Ha. exists n. split; [|exact Ha].
    eapply Permutation_in; [|exact Hn].
    apply visit_order_permutation_aux.
    apply Forall_forall. intros n' _. apply visited_after_permutation.
  - exact Hli.
  - unfold tables_from, tables_of, initial_state.
    cbn [ps_event_definitions ps_event_references ps_state_definitions
         ps_state_references ps_result_definitions ps_result_references].
    repeat apply conj; apply store_from_empty.
Qed.

(** C9. The operations that fill the symbol tables keep every key
    non-empty and every list of ranges non-empty: [addRange] keeps the
    invariant and ignores the empty key; [addDefinitionRanges] keeps it,
    records exactly one occurrence per token of the tokenizer, and records
    nothing for an empty value or a value made of spaces; the six tables
    returned by the parser satisfy it, whatever the tree, the extracted
    attributes and the state of the shared pattern; and, the index kept
    by the shared pattern being a natural number, each of these tables
    holds only what was extracted in its role: every key of a definition
    table is a non-empty token, and a whole word, of the value of some
    attribute of the tree whose name is a definition of that kind, every
    key of a reference table is the non-empty value of some attribute of
    the tree whose name is a reference of that kind, and every range
    stored under the key is the range of such an occurrence. *)
Theorem tables_invariant :
  (forall store key r, store_ok store -> store_ok (addRange store key r)) /\
  (forall store r, addRange store "" r = store) /\
  (forall lastIndex store value r,
      store_ok store ->
      store_ok (addDefinitionRanges lastIndex store value r) /\
      ranges_count (addDefinitionRanges lastIndex store value r)
      = (ranges_count store + List.length (parseTokens lastIndex value))%nat) /\
  (forall lastIndex store value r,
      TokenSpec.all_spaces value = true ->
      addDefinitionRanges lastIndex store value r = store) /\
  (forall service_parseHTMLDocument parseNodeAttrs lastIndex d td,
      tables_ok (fst (parseHTMLDocument service_parseHTMLDocument parseNodeAttrs
                        lastIndex d td))) /\
  (forall service_parseHTMLDocument parseNodeAttrs lastIndex d td,
      0 <= lastIndex ->
      tables_from
        (extracted parseNodeAttrs td (roots (service_parseHTMLDocument td)))
        (document_tables
           (fst (parseHTMLDocument service_parseHTMLDocument parseNodeAttrs
                   lastIndex d td)))).
Proof.
  split; [exact addRange_ok|].
  split; [exact addRange_empty_key|].
  split; [exact addDefinitionRanges_ok|].
  split; [|split].
  - intros lastIndex store value r Hsp. unfold addDefinitionRanges.
    assert (Hbf : TokenSpec.bracket_free value = true).
    { clear -Hsp. induction value as [|c v IH]; [reflexivity|].
      simpl in *. apply andb_true_iff in Hsp as [Hc Hv].
      apply Ascii.eqb_eq in Hc. subst c. simpl. now apply IH. }
    rewrite (parseTokens_bracket_free_words lastIndex value Hbf).
    now rewrite words_all_spaces.
  - intros svc pna lastIndex d td. unfold parseHTMLDocument. cbn [fst].
    pose proof (walk_ok pna td [roots (svc td)] (initial_state lastIndex)) as H.
    unfold state_ok, tables_ok in *.
    cbn [event_definitions event_references state_definitions state_references
         result_definitions result_references].
    apply H. unfold initial_state, store_ok.
    cbn [ps_event_definitions ps_event_references ps_state_definitions
         ps_state_references ps_result_definitions ps_result_references].
    repeat apply conj; intros ? ? [].
  - exact parseHTMLDocument_from.
Qed.

Lemma tables_invariant_witness :
  store_ok (addRange JSMap.empty "save" Sample.save_range) /\
  tables_ok Sample.parsed /\
  tables_from
    (extracted Sample.parseNodeAttrs Sample.ls_document [Sample.button])
    (document_tables Sample.parsed).
Proof.
  destruct tables_invariant as (Hadd & _ & _ & _ & Hparse & Hfrom).
  split; [|split].
  - apply Hadd. intros key ranges [].
  - apply (Hparse Sample.service_parseHTMLDocument Sample.parseNodeAttrs 0
             Sample.document Sample.ls_document).
  - apply (Hfrom Sample.service_parseHTMLDocument Sample.parseNodeAttrs 0
             Sample.document Sample.ls_document). lia.
Defined.
